(** * Psule Profile: the style-generation fan-out of [App] and the watermark helper

    A shallow embedding of the event handlers of the [App] component
    (handleGenerateClick, handleRegenerateStyle, handleDownloadAlbum) and of
    lib/imageUtils.ts (loadImage, addWatermark).

    JavaScript runs the handlers on one thread: a handler or a promise
    continuation runs without interruption up to its next [await].  The
    embedding therefore has one transition per such uninterrupted segment, and
    an interleaving of the program is a sequence of these transitions. *)

From stdpp Require Import base option list gmap strings.
From Stdlib Require Import Floats.
From Stdlib Require Uint63.

Local Open Scope string_scope.
Local Open Scope list_scope.
Local Open Scope nat_scope.
Set Warnings "-inexact-float".

(** ** JavaScript values the handlers inspect *)

(** What a [catch (err)] clause may receive: an [Error] instance with its
    [message], or any other value. *)
Inductive Thrown :=
| ErrorObject (message : string)
| OtherValue.

(** How a promise of a string settles. *)
Inductive Settled :=
| Fulfilled (value : string)
| RejectedWith (reason : Thrown).

(** Truthiness of a string: only the empty string is falsy. *)
Definition truthy (s : string) : bool := negb (String.eqb s "").

(** ** STYLES and STYLE_KEYS *)

Record Style := { name : string; prompt : string }.

Definition STYLES : list (string * Style) :=
  [
    ("digital-painting",
     {| name := "Digital Painting";
        prompt := "Create a vibrant, artistic, and expressive digital painting of the person in this photo. The style should be modern and eye-catching, suitable for a social profile. Make the person look their best, enhancing their features in a flattering way. The background should be abstract and complementary to the portrait." |});
    ("watercolor",
     {| name := "Watercolor";
        prompt := "Create a portrait of the person in this photo in a soft, flowing watercolor style. Use a wet-on-wet technique with delicate washes of color and visible brushstrokes. The background should be light and abstract, suggesting a paper texture." |});
    ("sketch",
     {| name := "Sketch";
        prompt := "Create a detailed charcoal sketch portrait of the person in this photo. Emphasize strong light and shadow (chiaroscuro) for a dramatic, classic effect. The background should be minimal, like a piece of artist's paper." |});
    ("vaporwave",
     {| name := "Pastel Pop";
        prompt := "Transform the person in this photo into a vibrant K-pop idol style portrait. The aesthetic should be cute, energetic, and trendy. Adorn their hair with large, puffy, shiny bows (like pink and light blue) and scatter small, colorful star-shaped stickers or confetti on their face and hair. The makeup should be soft and doll-like, with prominent blush and glossy lips. Use bright, even studio lighting against a solid, vibrant pastel background (like lavender or bubblegum pink)." |});
    ("3d-render",
     {| name := "3D Render";
        prompt := "Recreate the person in this photo as a stylized 3D character render, similar to modern animated movies. Focus on soft lighting, detailed textures for hair and clothing, and a friendly, appealing expression. The background should be a simple, clean studio setup." |});
    ("impressionism",
     {| name := "Impressionism";
        prompt := "Generate a portrait of the person in this photo in the style of Impressionism. Use visible, short, thick brushstrokes and a focus on the accurate depiction of light and its changing qualities. The overall effect should be a fleeting moment captured on canvas. Avoid hard outlines." |});
    ("pop-art",
     {| name := "Pop Art";
        prompt := "Create a Pop Art portrait of the person from this photo, inspired by artists like Andy Warhol. Use bold, flat colors, strong black outlines, and a screen-printed look. The background should be a single, vibrant, solid color." |});
    ("anime",
     {| name := "Anime";
        prompt := "Illustrate the person in this photo in a classic 90s anime/manga style. Emphasize large, expressive eyes, stylized hair, and clean lines. The background should be simple, perhaps with speed lines or a soft gradient to focus on the character." |});
    ("comic-book",
     {| name := "Comic Book";
        prompt := "Transform this photo into a Western comic book style portrait. Use bold ink lines, dynamic shading with cross-hatching or Ben-Day dots, and a dramatic, action-oriented pose. The colors should be vibrant and slightly saturated." |})
  ].

(** [Object.keys(STYLES)]: the own keys in insertion order (none of them is
    an array index, so insertion order is the enumeration order). *)
Definition STYLE_KEYS : list string := STYLES.*1.

(** [STYLES[styleKey]] for the own properties of the literal; [None] stands
    for [undefined].  A key that names a property inherited from
    [Object.prototype] is not modelled: the handlers receive style keys only
    (the queue is a copy of STYLE_KEYS, and a card exists per style key). *)
Fixpoint lookupStyle (table : list (string * Style)) (styleKey : string) : option Style :=
  match table with
  | [] => None
  | (k, st) :: rest => if String.eqb k styleKey then Some st else lookupStyle rest styleKey
  end.

(** ** The result mapping *)

Inductive ImageStatus := Pending | Done | Error.

Record GeneratedImage := {
  status : ImageStatus;
  url : option string;
  error : option string
}.

Inductive AppStateT := idle | cropping | image_uploaded | generating | results_shown.

(** ** Suspended activations and the instrumentation trace *)

(** The [try] block shared by processStyle and handleRegenerateStyle has two
    suspension points. *)
Inductive Suspension :=
| AtGenerate                         (* await generateStyledImage(croppedImageForDisplay, prompt) *)
| AtWatermark (resultUrl : string).  (* await addWatermark(resultUrl) *)

(** One element of [workers]: an activation of the async arrow function. *)
Inductive Worker :=
| Resuming                                          (* about to test stylesQueue.length > 0 *)
| Awaiting (styleKey : string) (at_ : Suspension)   (* inside await processStyle(styleKey) *)
| Returned.                                         (* left the while loop *)

(** Who performs an update or an external call: worker [worker] of the pool,
    or an activation of handleRegenerateStyle. *)
Inductive Origin := Pool (worker : nat) | Rerun.

(** Ghost instrumentation: what an observer wrapping processStyle, the two
    external calls and the state setters would record, oldest first. *)
Inductive Event :=
| EnterProcessStyle (worker : nat) (styleKey : string)
| CallGenerateStyledImage (by_ : Origin) (styleKey image prompt_ : string)
| CallAddWatermark (by_ : Origin) (styleKey resultUrl : string)
| SetInitialImages (prev next : gmap string GeneratedImage)
| SetImage (by_ : Origin) (styleKey : string) (prev : option GeneratedImage) (next : GeneratedImage)
| ShowResults.

(** The component state the handlers read and write, the activation of
    handleGenerateClick (its queue, its workers, whether it is parked at
    [await Promise.all(workers)]), the parked activations of
    handleRegenerateStyle, and the trace. *)
Record App := {
  croppedImageForDisplay : option string;
  generatedImages : gmap string GeneratedImage;
  appState : AppStateT;
  stylesQueue : list string;
  workers : list Worker;
  awaitingAll : bool;
  regenerations : list (string * Suspension);
  trace : list Event
}.

Definition record (e : Event) (a : App) : App :=
  {| croppedImageForDisplay := croppedImageForDisplay a;
     generatedImages := generatedImages a;
     appState := appState a;
     stylesQueue := stylesQueue a;
     workers := workers a;
     awaitingAll := awaitingAll a;
     regenerations := regenerations a;
     trace := trace a ++ [e] |}.

(** [setGeneratedImages(prev => f(prev))]. *)
Definition setGeneratedImages
    (f : gmap string GeneratedImage → gmap string GeneratedImage) (a : App) : App :=
  {| croppedImageForDisplay := croppedImageForDisplay a;
     generatedImages := f (generatedImages a);
     appState := appState a;
     stylesQueue := stylesQueue a;
     workers := workers a;
     awaitingAll := awaitingAll a;
     regenerations := regenerations a;
     trace := trace a |}.

Definition setAppState (st : AppStateT) (a : App) : App :=
  {| croppedImageForDisplay := croppedImageForDisplay a;
     generatedImages := generatedImages a;
     appState := st;
     stylesQueue := stylesQueue a;
     workers := workers a;
     awaitingAll := awaitingAll a;
     regenerations := regenerations a;
     trace := trace a |}.

Definition setStylesQueue (q : list string) (a : App) : App :=
  {| croppedImageForDisplay := croppedImageForDisplay a;
     generatedImages := generatedImages a;
     appState := appState a;
     stylesQueue := q;
     workers := workers a;
     awaitingAll := awaitingAll a;
     regenerations := regenerations a;
     trace := trace a |}.

Definition setWorkers (ws : list Worker) (a : App) : App :=
  {| croppedImageForDisplay := croppedImageForDisplay a;
     generatedImages := generatedImages a;
     appState := appState a;
     stylesQueue := stylesQueue a;
     workers := ws;
     awaitingAll := awaitingAll a;
     regenerations := regenerations a;
     trace := trace a |}.

Definition setAwaitingAll (b : bool) (a : App) : App :=
  {| croppedImageForDisplay := croppedImageForDisplay a;
     generatedImages := generatedImages a;
     appState := appState a;
     stylesQueue := stylesQueue a;
     workers := workers a;
     awaitingAll := b;
     regenerations := regenerations a;
     trace := trace a |}.

Definition setRegenerations (rs : list (string * Suspension)) (a : App) : App :=
  {| croppedImageForDisplay := croppedImageForDisplay a;
     generatedImages := generatedImages a;
     appState := appState a;
     stylesQueue := stylesQueue a;
     workers := workers a;
     awaitingAll := awaitingAll a;
     regenerations := rs;
     trace := trace a |}.

Definition setWorker (i : nat) (w : Worker) (a : App) : App :=
  setWorkers (<[i := w]> (workers a)) a.

(** ** The entries the handlers write *)

Definition pendingImage : GeneratedImage :=
  {| status := Pending; url := None; error := None |}.

Definition doneImage (watermarkedUrl : string) : GeneratedImage :=
  {| status := Done; url := Some watermarkedUrl; error := None |}.

Definition errorImage (errorMessage : string) : GeneratedImage :=
  {| status := Error; url := None; error := Some errorMessage |}.

(** [setGeneratedImages(prev => ({...prev, [styleKey]: next}))], recorded
    together with the entry it replaces. *)
Definition putImage (by_ : Origin) (styleKey : string) (next : GeneratedImage) (a : App) : App :=
  record (SetImage by_ styleKey (generatedImages a !! styleKey) next)
         (setGeneratedImages (λ prev, <[styleKey := next]> prev) a).

(** [err instanceof Error ? err.message : "An unknown error occurred."] *)
Definition errorMessage (err : Thrown) : string :=
  match err with
  | ErrorObject message => message
  | OtherValue => "An unknown error occurred."
  end.

(** The [catch] block of processStyle and of handleRegenerateStyle
    (console.error has no effect on the state). *)
Definition catchBlock (by_ : Origin) (styleKey : string) (err : Thrown) (a : App) : App :=
  putImage by_ styleKey (errorImage (errorMessage err)) a.

(** The [TypeError] of reading [.prompt] of [undefined] (V8's wording). *)
Definition undefinedPrompt : Thrown :=
  ErrorObject "Cannot read properties of undefined (reading 'prompt')".

(** The [try] block from its first statement up to the first [await]; the
    second component is where it parked, or [None] when the [catch] block ran
    and the body is finished. *)
Definition tryFromStart (by_ : Origin) (image styleKey : string) (a : App)
    : App * option Suspension :=
  match lookupStyle STYLES styleKey with
  | Some st =>
      (record (CallGenerateStyledImage by_ styleKey image (prompt st)) a, Some AtGenerate)
  | None => (catchBlock by_ styleKey undefinedPrompt a, None)
  end.

(** The [try] block resumed when the promise it awaits at [at_] settles. *)
Definition tryResume (by_ : Origin) (styleKey : string) (at_ : Suspension) (r : Settled)
    (a : App) : App * option Suspension :=
  match r with
  | RejectedWith err => (catchBlock by_ styleKey err a, None)
  | Fulfilled v =>
      match at_ with
      | AtGenerate => (record (CallAddWatermark by_ styleKey v) a, Some (AtWatermark v))
      | AtWatermark _ => (putImage by_ styleKey (doneImage v) a, None)
      end
  end.

(** ** handleGenerateClick *)

Definition concurrencyLimit : nat := 3.

(** The body of a worker from the loop test to its next [await]:
    [while (stylesQueue.length > 0) { const styleKey = stylesQueue.shift();
    if (styleKey) { await processStyle(styleKey); } }].  The recursion is on
    the queue, which the loop consumes. *)
Fixpoint workerLoop (i : nat) (image : string) (queue : list string) (a : App) : App :=
  match queue with
  | [] => setWorker i Returned a
  | styleKey :: rest =>
      let a := setStylesQueue rest a in
      if truthy styleKey then
        let a := record (EnterProcessStyle i styleKey) a in
        match tryFromStart (Pool i) image styleKey a with
        | (a, Some at_) => setWorker i (Awaiting styleKey at_) a
        | (a, None) => setWorker i Resuming a
        end
      else workerLoop i image rest a
  end.

Definition runWorker (i : nat) (image : string) (a : App) : App :=
  workerLoop i image (stylesQueue a) a.

(** [STYLE_KEYS.forEach(styleKey => { initialImages[styleKey] = { status: 'pending' }; })] *)
Definition initialImages : gmap string GeneratedImage :=
  foldl (λ acc styleKey, <[styleKey := pendingImage]> acc) ∅ STYLE_KEYS.

(** handleGenerateClick up to [await Promise.all(workers)]: [map] calls the
    async arrow function once per slot, and each call runs to its first
    [await] before the next one starts. *)
Definition handleGenerateClick (a : App) : App :=
  match croppedImageForDisplay a with
  | None => a
  | Some image =>
      if truthy image then
        let a := setAppState generating a in
        let a := record (SetInitialImages (generatedImages a) initialImages)
                        (setGeneratedImages (λ _, initialImages) a) in
        let a := setStylesQueue STYLE_KEYS a in
        let a := setWorkers (replicate concurrencyLimit Resuming) a in
        let a := foldl (λ a i, runWorker i image a) a (seq 0 concurrencyLimit) in
        setAwaitingAll true a
      else a
  end.

(** ** handleRegenerateStyle *)

(** [generatedImages[styleKey]?.status === 'pending'] *)
Definition isPending (entry : option GeneratedImage) : bool :=
  match entry with
  | Some {| status := Pending |} => true
  | _ => false
  end.

(** handleRegenerateStyle up to its first [await]. *)
Definition handleRegenerateStyle (styleKey : string) (a : App) : App :=
  match croppedImageForDisplay a with
  | None => a
  | Some image =>
      if truthy image then
        if isPending (generatedImages a !! styleKey) then a
        else
          let a := putImage Rerun styleKey pendingImage a in
          match tryFromStart Rerun image styleKey a with
          | (a, Some at_) => setRegenerations (regenerations a ++ [(styleKey, at_)]) a
          | (a, None) => a
          end
      else a
  end.

(** ** Transitions *)

Inductive Action :=
| Resume (i : nat)                               (* worker i continues after its await *)
| SettleWorker (i : nat) (r : Settled)           (* the promise worker i's job awaits settles *)
| AllSettled                                     (* Promise.all(workers) is fulfilled *)
| ClickRegenerate (styleKey : string)            (* onRegenerate of the card of styleKey *)
| SettleRegeneration (j : nat) (r : Settled).    (* the promise a re-run awaits settles *)

Definition isReturned (w : Worker) : bool :=
  match w with Returned => true | _ => false end.

(** The cards are rendered, one per element of STYLE_KEYS, in these states. *)
Definition cardsShown (a : App) : bool :=
  match appState a with
  | generating | results_shown => true
  | _ => false
  end.

(** One transition.  The workers read the image handleGenerateClick tested;
    no transition changes it, so it is read from the state.  A click runs the
    handler of the latest render, so handleRegenerateStyle reads the current
    mapping.  The continuation of [await Promise.all(workers)] is a transition
    of its own, enabled when every worker has returned. *)
Definition step (act : Action) (a : App) : option App :=
  match act with
  | Resume i =>
      match workers a !! i, croppedImageForDisplay a with
      | Some Resuming, Some image => Some (runWorker i image a)
      | _, _ => None
      end
  | SettleWorker i r =>
      match workers a !! i with
      | Some (Awaiting styleKey at_) =>
          match tryResume (Pool i) styleKey at_ r a with
          | (a, Some at') => Some (setWorker i (Awaiting styleKey at') a)
          | (a, None) => Some (setWorker i Resuming a)
          end
      | _ => None
      end
  | AllSettled =>
      if awaitingAll a && forallb isReturned (workers a)
      then Some (record ShowResults (setAppState results_shown (setAwaitingAll false a)))
      else None
  | ClickRegenerate styleKey =>
      if cardsShown a && bool_decide (styleKey ∈ STYLE_KEYS)
      then Some (handleRegenerateStyle styleKey a)
      else None
  | SettleRegeneration j r =>
      match regenerations a !! j with
      | Some (styleKey, at_) =>
          match tryResume Rerun styleKey at_ r a with
          | (a, Some at') =>
              Some (setRegenerations (<[j := (styleKey, at')]> (regenerations a)) a)
          | (a, None) => Some (setRegenerations (delete j (regenerations a)) a)
          end
      | None => None
      end
  end.

(** The state in which the "Generate Styles" button is rendered while
    nothing is in flight, as it is before the first generation: a cropped
    image is present and the mapping is empty.  (After "Start Over" a re-run
    of the generation before can still be in flight when the button is
    rendered again; [Program] below has every handler and every job.) *)
Definition afterCrop (image : string) : App :=
  {| croppedImageForDisplay := Some image;
     generatedImages := ∅;
     appState := image_uploaded;
     stylesQueue := [];
     workers := [];
     awaitingAll := false;
     regenerations := [];
     trace := [] |}.

(** The states of a generation session: handleGenerateClick, then any
    interleaving of the transitions. *)
Inductive reachable (image : string) : App → Prop :=
| reachable_click : reachable image (handleGenerateClick (afterCrop image))
| reachable_step a act a' :
    reachable image a → step act a = Some a' → reachable image a'.

(** Running a schedule of transitions. *)
Fixpoint run (acts : list Action) (a : App) : option App :=
  match acts with
  | [] => Some a
  | act :: rest => match step act a with Some a' => run rest a' | None => None end
  end.

(** A session: handleGenerateClick on that state, followed by a schedule.
    It is one generation, from a click made while nothing is in flight, up
    to the next reset of the state. *)
Definition session (image : string) (acts : list Action) : option App :=
  run acts (handleGenerateClick (afterCrop image)).

(** A schedule that runs the call to its end: the job of "watercolor" is
    rejected by generateStyledImage and re-run by a click while the pool is
    still working, the job of "anime" is rejected by addWatermark with a value
    that is not an [Error], every other promise is fulfilled. *)
Definition succeed (i : nat) (styleKey : string) : list Action :=
  [SettleWorker i (Fulfilled ("gen:" +:+ styleKey));
   SettleWorker i (Fulfilled ("wm:" +:+ styleKey));
   Resume i].

Definition exampleImage : string := "data:image/jpeg;base64,/9j/4AAQ".

Definition exampleSchedule : list Action :=
  [SettleWorker 1 (RejectedWith (ErrorObject "quota exceeded")); Resume 1]
  ++ succeed 0 "digital-painting"
  ++ [ClickRegenerate "watercolor"]
  ++ succeed 2 "sketch"
  ++ [SettleRegeneration 0 (Fulfilled "gen:watercolor");
      SettleRegeneration 0 (Fulfilled "wm:watercolor")]
  ++ succeed 1 "vaporwave"
  ++ succeed 0 "3d-render"
  ++ succeed 2 "impressionism"
  ++ succeed 1 "pop-art"
  ++ [SettleWorker 0 (Fulfilled "gen:anime"); SettleWorker 0 (RejectedWith OtherValue); Resume 0]
  ++ succeed 2 "comic-book"
  ++ [AllSettled].

(** The state handleGenerateClick leaves. *)
Definition exampleStart : App := handleGenerateClick (afterCrop exampleImage).

(** The state it ends in. *)
Definition exampleEnd : App :=
  default (afterCrop exampleImage) (session exampleImage exampleSchedule).

(** The same schedule cut after the last key was claimed: the pool is at
    work on three keys and the re-run has finished. *)
Definition exampleMiddle : App :=
  default (afterCrop exampleImage) (session exampleImage (take 21 exampleSchedule)).

(** ** Reading the trace *)

(** The keys on which a worker of the pool entered processStyle. *)
Definition entered (e : Event) : option string :=
  match e with EnterProcessStyle _ styleKey => Some styleKey | _ => None end.

(** The keys whose processStyle finished: it ends with exactly one update. *)
Definition settled (e : Event) : option string :=
  match e with SetImage (Pool _) styleKey _ _ => Some styleKey | _ => None end.

(** The keys for which a worker called generateStyledImage, addWatermark. *)
Definition generateCalled (e : Event) : option string :=
  match e with CallGenerateStyledImage (Pool _) styleKey _ _ => Some styleKey | _ => None end.

Definition watermarkCalled (e : Event) : option string :=
  match e with CallAddWatermark (Pool _) styleKey _ => Some styleKey | _ => None end.

Definition isShowResults (e : Event) : bool :=
  match e with ShowResults => true | _ => false end.

(** The key a worker's job is working on. *)
Definition jobOf (w : Worker) : list string :=
  match w with Awaiting styleKey _ => [styleKey] | _ => [] end.

Definition awaited (ws : list Worker) : list string := ws ≫= jobOf.

(** The key of a job parked at generateStyledImage. *)
Definition generatingJobOf (w : Worker) : list string :=
  match w with Awaiting styleKey AtGenerate => [styleKey] | _ => [] end.

Definition atGenerate (ws : list Worker) : list string := ws ≫= generatingJobOf.

(** The work functions of the pool that are executing: entered, not finished. *)
Definition executing (a : App) : nat :=
  length (omap entered (trace a)) - length (omap settled (trace a)).

(** The keys with work queued or in flight, from the pool or from a re-run. *)
Definition inFlight (a : App) : list string :=
  stylesQueue a ++ awaited (workers a) ++ (regenerations a).*1.

Definition isTerminal (st : ImageStatus) : bool :=
  match st with Pending => false | Done | Error => true end.

(** ** Well-formed entries, and the status as a sum type *)

Definition wellFormed (g : GeneratedImage) : Prop :=
  match status g with
  | Pending => url g = None ∧ error g = None
  | Done => is_Some (url g) ∧ error g = None
  | Error => url g = None ∧ is_Some (error g)
  end.

(** The status the way the design notes word it: a sum type with a payload
    in the terminal variants only. *)
Inductive JobStatus :=
| JobPending
| JobDone (result : string)
| JobError (reason : string).

Definition ofJobStatus (j : JobStatus) : GeneratedImage :=
  match j with
  | JobPending => pendingImage
  | JobDone result => doneImage result
  | JobError reason => errorImage reason
  end.

Definition toJobStatus (g : GeneratedImage) : option JobStatus :=
  match status g, url g, error g with
  | Pending, None, None => Some JobPending
  | Done, Some result, None => Some (JobDone result)
  | Error, None, Some reason => Some (JobError reason)
  | _, _, _ => None
  end.

(** A value of the type that none of the three forms above is. *)
Definition pendingWithBoth : GeneratedImage :=
  {| status := Pending; url := Some "blob:result"; error := Some "quota exceeded" |}.

(** ** The transitions of one entry *)

(** [legal e]: the update [e] follows the transition relation.  A worker only
    takes a pending entry to a terminal one; an activation of
    handleRegenerateStyle takes a terminal entry to pending and later the
    pending entry to a terminal one; the initialisation puts every key of a
    mapping that was empty to pending. *)
Definition legal (e : Event) : Prop :=
  match e with
  | SetImage (Pool _) _ prev next =>
      (status <$> prev) = Some Pending ∧ isTerminal (status next) = true
  | SetImage Rerun _ prev next =>
      ((status <$> prev) = Some Pending ∧ isTerminal (status next) = true)
      ∨ ((∃ st, (status <$> prev) = Some st ∧ isTerminal st = true) ∧ status next = Pending)
  | SetInitialImages prev next =>
      prev = ∅ ∧ ∀ k g, next !! k = Some g → status g = Pending
  | _ => True
  end.

(** The entries an event writes. *)
Definition written (e : Event) : list GeneratedImage :=
  match e with
  | SetImage _ _ _ next => [next]
  | SetInitialImages _ next => (map_to_list next).*2
  | _ => []
  end.

(** ** handleDownloadAlbum *)

Inductive Effect :=
| SetIsDownloading (b : bool)
| AlertMessage (message : string)
| CallCreateAlbumPage (imageData : gmap string (option string))
| ClickDownloadLink (href download : string).

(** [image.status === 'done' && image.url] *)
Definition doneWithUrl (image : GeneratedImage) : bool :=
  match status image, url image with
  | Done, Some u => truthy u
  | _, _ => false
  end.

(** The callback of [reduce]; [inl] is the [TypeError] of reading [.name] of
    [undefined], which ends the reduction. *)
Definition addToAlbum (acc : Thrown + gmap string (option string))
    (entry : string * GeneratedImage) : Thrown + gmap string (option string) :=
  match acc with
  | inl err => inl err
  | inr acc =>
      match lookupStyle STYLES entry.1 with
      | None => inl (ErrorObject "Cannot read properties of undefined (reading 'name')")
      | Some st => inr (<[name st := url entry.2]> acc)
      end
  end.

Definition waitMessage : string :=
  "Please wait for all images to finish generating before downloading the album.".

Definition sorryMessage : string :=
  "Sorry, there was an error creating your album. Please try again.".

(** handleDownloadAlbum up to [await createAlbumPage(imageData)], or to its
    end when it does not get there: the effects in order. *)
Definition handleDownloadAlbum (generatedImages : gmap string GeneratedImage) : list Effect :=
  SetIsDownloading true ::
  match foldl addToAlbum (inr ∅)
          (filter (λ entry, doneWithUrl entry.2 = true) (map_to_list generatedImages)) with
  | inl _ => [AlertMessage sorryMessage; SetIsDownloading false]
  | inr imageData =>
      if bool_decide (size imageData < length STYLE_KEYS)
      then [AlertMessage waitMessage; SetIsDownloading false]
      else [CallCreateAlbumPage imageData]
  end.

(** handleDownloadAlbum after the promise of createAlbumPage settles. *)
Definition handleDownloadAlbumResume (r : Settled) : list Effect :=
  match r with
  | Fulfilled albumDataUrl =>
      [ClickDownloadLink albumDataUrl "pfp-perfect-album.jpg"; SetIsDownloading false]
  | RejectedWith _ => [AlertMessage sorryMessage; SetIsDownloading false]
  end.

(** The key of a style name in STYLES, if any. *)
Fixpoint lookupName (table : list (string * Style)) (styleName : string) : option string :=
  match table with
  | [] => None
  | (k, st) :: rest =>
      if String.eqb (name st) styleName then Some k else lookupName rest styleName
  end.

(** The names of the styles. *)
Definition STYLE_NAMES : list string := name <$> STYLES.*2.

(** A mapping in which every style is done. *)
Definition everyStyleDone : gmap string GeneratedImage :=
  list_to_map ((λ k, (k, doneImage ("wm:" +:+ k))) <$> STYLE_KEYS).

(** ** lib/imageUtils.ts *)

(** What the browser decides: whether an image source loads and with which
    natural size, whether a canvas of a given size yields a 2D context, and
    how a canvas is encoded. *)
Record HTMLImageElement := {
  src : string;
  naturalWidth : PrimInt63.int;
  naturalHeight : PrimInt63.int
}.

Record Context2D := {
  font : float * string;          (* `${fontSize}px 'Roboto', sans-serif` as size and families *)
  fillStyle : string;
  textAlign : string;
  textBaseline : string;
  shadowColor : string;
  shadowBlur : float;
  shadowOffsetX : float;
  shadowOffsetY : float
}.

Inductive Drawing :=
| DrawImage (img : HTMLImageElement) (dx dy : float)
| FillText (text : string) (x y : float) (ctx : Context2D).

Record Canvas := {
  width : PrimInt63.int;
  height : PrimInt63.int;
  drawings : list Drawing
}.

Record Browser := {
  decodeImage : string → option (PrimInt63.int * PrimInt63.int);
  hasContext2d : PrimInt63.int → PrimInt63.int → bool;
  toDataURL : Canvas → string → float → string
}.

(** [Math.max] on two numbers: NaN when either is NaN, the larger one
    otherwise, +0 being larger than -0. *)
Definition Math_max (x y : float) : float :=
  if PrimFloat.is_nan x || PrimFloat.is_nan y then PrimFloat.nan
  else if PrimFloat.ltb x y then y
  else if PrimFloat.ltb y x then x
  else if PrimFloat.get_sign x then y else x.

(** loadImage: the promise is fulfilled by [onload], rejected by [onerror]. *)
Definition loadImage (b : Browser) (src : string) : Thrown + HTMLImageElement :=
  match decodeImage b src with
  | Some (w, h) => inr {| src := src; naturalWidth := w; naturalHeight := h |}
  | None => inl (ErrorObject ("Failed to load image: " +:+ String.substring 0 50 src +:+ "..."))
  end.

Definition watermarkText : string := "psule.app".

Definition padding (canvasWidth : PrimInt63.int) : float :=
  Math_max 20 (PrimFloat.of_uint63 canvasWidth * 0.02)%float.

Definition fontSize (canvasWidth : PrimInt63.int) : float :=
  Math_max 18 (PrimFloat.of_uint63 canvasWidth * 0.03)%float.

Definition watermarkContext (canvasWidth : PrimInt63.int) : Context2D :=
  {| font := (fontSize canvasWidth, "'Roboto', sans-serif");
     fillStyle := "rgba(255, 255, 255, 0.6)";
     textAlign := "right";
     textBaseline := "bottom";
     shadowColor := "rgba(0, 0, 0, 0.5)";
     shadowBlur := 5;
     shadowOffsetX := 1;
     shadowOffsetY := 1 |}.

(** The canvas addWatermark has drawn when it calls toDataURL. *)
Definition watermarked (img : HTMLImageElement) : Canvas :=
  let w := naturalWidth img in
  let h := naturalHeight img in
  {| width := w;
     height := h;
     drawings :=
       [DrawImage img 0 0;
        FillText watermarkText
                 (PrimFloat.of_uint63 w - padding w)
                 (PrimFloat.of_uint63 h - padding w)
                 (watermarkContext w)] |}.

(** addWatermark: how the promise it returns settles. *)
Definition addWatermark (b : Browser) (imageUrl : string) : Settled :=
  match loadImage b imageUrl with
  | inl err => RejectedWith err
  | inr img =>
      if hasContext2d b (naturalWidth img) (naturalHeight img)
      then Fulfilled (toDataURL b (watermarked img) "image/jpeg" 0.9)
      else RejectedWith (ErrorObject "Could not get 2D canvas context")
  end.

(** Two browsers that load every source as a 1000 by 800 image; the first
    has no 2D context to give, the second has. *)
Definition browserWithoutContext : Browser :=
  {| decodeImage := λ _, Some (Uint63.of_Z 1000, Uint63.of_Z 800);
     hasContext2d := λ _ _, false;
     toDataURL := λ _ _ _, "data:image/jpeg;base64,/9j/" |}.

Definition browserWithContext : Browser :=
  {| decodeImage := λ _, Some (Uint63.of_Z 1000, Uint63.of_Z 800);
     hasContext2d := λ _ _, true;
     toDataURL := λ _ _ _, "data:image/jpeg;base64,/9j/" |}.

Definition validImageUrl : string := "data:image/png;base64,iVBORw0KGgo".

(** The prompt of a style key. *)
Definition promptOf (styleKey : string) : string :=
  match lookupStyle STYLES styleKey with Some st => prompt st | None => "" end.

(** ** The transitions by kind, and the invariants of a session *)

(** An entry a finished job writes. *)
Definition finalImage (g : GeneratedImage) : Prop :=
  (∃ watermarkedUrl, g = doneImage watermarkedUrl) ∨ (∃ message, g = errorImage message).

(** What a transition of the pool does in a state whose queue holds style
    keys. *)
Inductive PoolMove (image : string) (a : App) : App → Prop :=
| move_return i :
    workers a !! i = Some Resuming → stylesQueue a = [] →
    PoolMove image a (setWorker i Returned a)
| move_claim i k rest st :
    workers a !! i = Some Resuming → stylesQueue a = k :: rest →
    lookupStyle STYLES k = Some st →
    PoolMove image a
      (setWorker i (Awaiting k AtGenerate)
         (record (CallGenerateStyledImage (Pool i) k image (prompt st))
            (record (EnterProcessStyle i k) (setStylesQueue rest a))))
| move_watermark i k v :
    workers a !! i = Some (Awaiting k AtGenerate) →
    PoolMove image a
      (setWorker i (Awaiting k (AtWatermark v)) (record (CallAddWatermark (Pool i) k v) a))
| move_finish i k at_ g :
    workers a !! i = Some (Awaiting k at_) → finalImage g →
    PoolMove image a (setWorker i Resuming (putImage (Pool i) k g a))
| move_all :
    awaitingAll a = true → Forall (λ w, w = Returned) (workers a) →
    PoolMove image a (record ShowResults (setAppState results_shown (setAwaitingAll false a))).

(** What a click on a card's regenerate control, or the settling of a
    promise a re-run awaits, does. *)
Inductive RerunMove (image : string) (a : App) : App → Prop :=
| move_ignored :
    RerunMove image a a
| move_rerun k st :
    k ∈ STYLE_KEYS → isPending (generatedImages a !! k) = false →
    lookupStyle STYLES k = Some st →
    RerunMove image a
      (setRegenerations (regenerations a ++ [(k, AtGenerate)])
         (record (CallGenerateStyledImage Rerun k image (prompt st))
            (putImage Rerun k pendingImage a)))
| move_rerun_watermark j k v :
    regenerations a !! j = Some (k, AtGenerate) →
    RerunMove image a
      (setRegenerations (<[j := (k, AtWatermark v)]> (regenerations a))
         (record (CallAddWatermark Rerun k v) a))
| move_rerun_finish j k at_ g :
    regenerations a !! j = Some (k, at_) → finalImage g →
    RerunMove image a (setRegenerations (delete j (regenerations a)) (putImage Rerun k g a)).

Definition Move (image : string) (a a' : App) : Prop :=
  PoolMove image a a' ∨ RerunMove image a a'.

(** The pool: the queue is what is left of STYLE_KEYS, the jobs entered and
    not finished are those the workers await. *)
Record PoolInv (image : string) (a : App) : Prop := {
  pool_image : croppedImageForDisplay a = Some image;
  pool_size : length (workers a) = concurrencyLimit;
  pool_queue : omap entered (trace a) ++ stylesQueue a = STYLE_KEYS;
  pool_running : omap entered (trace a) ≡ₚ omap settled (trace a) ++ awaited (workers a);
  pool_generate : omap generateCalled (trace a) = omap entered (trace a);
  pool_watermark :
    omap watermarkCalled (trace a) ++ atGenerate (workers a) ⊆+ omap entered (trace a);
  pool_returned : Returned ∈ workers a → stylesQueue a = [];
  pool_cards : cardsShown a = true
}.

(** The mapping: its keys are STYLE_KEYS, its pending entries are exactly
    the keys with work queued or in flight, and no key has two jobs. *)
Record MapInv (a : App) : Prop := {
  map_keys : ∀ k, is_Some (generatedImages a !! k) ↔ k ∈ STYLE_KEYS;
  map_pending : ∀ k, isPending (generatedImages a !! k) = true ↔ k ∈ inFlight a;
  map_nodup : NoDup (inFlight a);
  map_wf : ∀ k g, generatedImages a !! k = Some g → wellFormed g
}.

(** The completion signal: absent while handleGenerateClick is parked, and
    once it has fired every key was settled before it. *)
Record ShownInv (a : App) : Prop := {
  shown_parked : awaitingAll a = true → appState a = generating ∧ (ShowResults ∉ trace a);
  shown_fired : awaitingAll a = false →
    appState a = results_shown ∧ Forall (λ w, w = Returned) (workers a)
    ∧ stylesQueue a = [] ∧ ShowResults ∈ trace a;
  shown_after : ∀ before after, trace a = before ++ ShowResults :: after →
    omap settled before ≡ₚ STYLE_KEYS ∧ (ShowResults ∉ before) ∧ (ShowResults ∉ after)
}.

(** The updates in the trace are legal and write well-formed entries. *)
Record TraceInv (a : App) : Prop := {
  trace_legal : Forall legal (trace a);
  trace_written : Forall (λ e, Forall wellFormed (written e)) (trace a)
}.

Record SessionInv (image : string) (a : App) : Prop := {
  session_pool : PoolInv image a;
  session_map : MapInv a;
  session_trace : TraceInv a;
  session_shown : ShownInv a
}.

(** The pool's work still to do, as a number no transition of the pool
    leaves unchanged. *)
Definition workerWeight (w : Worker) : nat :=
  match w with
  | Returned => 0
  | Resuming => 1
  | Awaiting _ (AtWatermark _) => 2
  | Awaiting _ AtGenerate => 3
  end.

Definition poolWork (a : App) : nat :=
  3 * length (stylesQueue a) + sum_list (workerWeight <$> workers a)
  + (if awaitingAll a then 1 else 0).

Definition isPoolAction (act : Action) : bool :=
  match act with
  | Resume _ | SettleWorker _ _ | AllSettled => true
  | ClickRegenerate _ | SettleRegeneration _ _ => false
  end.

(** ** The rest of the component: upload, crop, reset, and what is rendered *)

Definition setCroppedImageForDisplay (image : option string) (a : App) : App :=
  {| croppedImageForDisplay := image;
     generatedImages := generatedImages a;
     appState := appState a;
     stylesQueue := stylesQueue a;
     workers := workers a;
     awaitingAll := awaitingAll a;
     regenerations := regenerations a;
     trace := trace a |}.

(** The component: the state above with the two pieces of state the
    generation does not read. *)
Record Component := {
  core : App;
  uploadedImage : option string;
  isDownloading : bool
}.

(** The initial values of the [useState] calls; nothing is in flight. *)
Definition initialComponent : Component :=
  {| core :=
       {| croppedImageForDisplay := None;
          generatedImages := ∅;
          appState := idle;
          stylesQueue := [];
          workers := [];
          awaitingAll := false;
          regenerations := [];
          trace := [] |};
     uploadedImage := None;
     isDownloading := false |}.

(** [reader.onloadend] of handleImageUpload; [result] is [reader.result],
    [null] when the read failed. *)
Definition handleImageUpload_onloadend (result : option string) (c : Component) : Component :=
  {| core :=
       setCroppedImageForDisplay None
         (setGeneratedImages (λ _, ∅) (setAppState cropping (core c)));
     uploadedImage := result;
     isDownloading := isDownloading c |}.

Definition handleCropConfirm (croppedImageUrl : string) (c : Component) : Component :=
  {| core := setAppState image_uploaded (setCroppedImageForDisplay (Some croppedImageUrl) (core c));
     uploadedImage := uploadedImage c;
     isDownloading := isDownloading c |}.

Definition handleCropCancel (c : Component) : Component :=
  {| core := setAppState idle (core c);
     uploadedImage := None;
     isDownloading := isDownloading c |}.

Definition handleReset (c : Component) : Component :=
  {| core :=
       setAppState idle
         (setGeneratedImages (λ _, ∅) (setCroppedImageForDisplay None (core c)));
     uploadedImage := None;
     isDownloading := isDownloading c |}.

(** The controls the JSX renders, by the conditions that guard them. *)
Inductive Control :=
| FileInput                        (* onChange = handleImageUpload *)
| Cropper                          (* onConfirm = handleCropConfirm, onCancel = handleCropCancel *)
| DifferentPhotoButton             (* onClick = handleReset *)
| GenerateStylesButton             (* onClick = handleGenerateClick *)
| Card (styleKey : string)         (* onRegenerate, onDownload *)
| DownloadAlbumButton (disabled : bool)
| StartOverButton.                 (* onClick = handleReset *)

Definition truthyOption (o : option string) : bool :=
  match o with Some s => truthy s | None => false end.

Definition rendered (c : Component) : list Control :=
  match appState (core c) with
  | idle => [FileInput]
  | cropping => if truthyOption (uploadedImage c) then [Cropper] else []
  | image_uploaded =>
      if truthyOption (croppedImageForDisplay (core c))
      then [DifferentPhotoButton; GenerateStylesButton] else []
  | generating => Card <$> STYLE_KEYS
  | results_shown =>
      (Card <$> STYLE_KEYS) ++ [DownloadAlbumButton (isDownloading c); StartOverButton]
  end.

(** What can happen before the first generation: a file read ends (one was
    started from the file input), or a rendered control is used. *)
Inductive UiEvent :=
| LoadEnd (result : option string)
| ConfirmCrop (croppedImageUrl : string)
| CancelCrop
| ClickDifferentPhoto.

Definition isCropper (ctl : Control) : bool :=
  match ctl with Cropper => true | _ => false end.

Definition isDifferentPhotoButton (ctl : Control) : bool :=
  match ctl with DifferentPhotoButton => true | _ => false end.

Definition isGenerateStylesButton (ctl : Control) : bool :=
  match ctl with GenerateStylesButton => true | _ => false end.

Definition uiStep (ev : UiEvent) (c : Component) : option Component :=
  match ev with
  | LoadEnd result => Some (handleImageUpload_onloadend result c)
  | ConfirmCrop croppedImageUrl =>
      if existsb isCropper (rendered c) then Some (handleCropConfirm croppedImageUrl c)
      else None
  | CancelCrop =>
      if existsb isCropper (rendered c) then Some (handleCropCancel c) else None
  | ClickDifferentPhoto =>
      if existsb isDifferentPhotoButton (rendered c) then Some (handleReset c) else None
  end.

Fixpoint runUi (evs : list UiEvent) (c : Component) : option Component :=
  match evs with
  | [] => Some c
  | ev :: rest => match uiStep ev c with Some c' => runUi rest c' | None => None end
  end.

(** An upload that is cancelled, a second one whose crop is confirmed. *)
Definition exampleUi : list UiEvent :=
  [LoadEnd (Some "data:image/png;base64,AAAA"); CancelCrop;
   LoadEnd (Some "data:image/png;base64,BBBB"); ConfirmCrop exampleImage].

(** ** The whole of handleDownloadAlbum *)

(** The effects of a call, given how the promise of createAlbumPage settles
    if the call gets to it. *)
Definition albumRun (generatedImages : gmap string GeneratedImage) (r : Settled) : list Effect :=
  match handleDownloadAlbum generatedImages with
  | [SetIsDownloading true; CallCreateAlbumPage imageData] =>
      [SetIsDownloading true; CallCreateAlbumPage imageData] ++ handleDownloadAlbumResume r
  | effects => effects
  end.

Definition isFeedback (e : Effect) : bool :=
  match e with AlertMessage _ | ClickDownloadLink _ _ => true | _ => false end.

Definition isSetIsDownloading (e : Effect) : bool :=
  match e with SetIsDownloading _ => true | _ => false end.

(** ** Reading the calls *)

(** A call of generateStyledImage passes the session's image and the prompt
    of the style of its key. *)
Definition ownPrompt (image : string) (e : Event) : Prop :=
  match e with
  | CallGenerateStyledImage _ styleKey image' prompt' =>
      image' = image ∧ (prompt <$> lookupStyle STYLES styleKey) = Some prompt'
  | _ => True
  end.

(** An event of a re-run: an update or an external call by an activation of
    handleRegenerateStyle. *)
Definition byRerun (e : Event) : bool :=
  match e with
  | SetImage Rerun _ _ _ | CallGenerateStyledImage Rerun _ _ _ | CallAddWatermark Rerun _ _ => true
  | _ => false
  end.

(** A browser in which no source loads, and a source of 64 characters. *)
Definition browserThatFailsToLoad : Browser :=
  {| decodeImage := λ _, None;
     hasContext2d := λ _ _, true;
     toDataURL := λ _ _ _, "data:image/jpeg;base64,/9j/" |}.

Definition longImageUrl : string :=
  "data:image/png;base64,0123456789012345678901234567890123456789ABCD".

(** The component after the example session, with a re-run of "sketch"
    started and parked at addWatermark. *)
Definition exampleRerunning : Component :=
  {| core :=
       default exampleEnd
         (run [ClickRegenerate "sketch"; SettleRegeneration 0 (Fulfilled "gen:sketch-again")]
              exampleEnd);
     uploadedImage := Some "data:image/png;base64,AAAA";
     isDownloading := false |}.

(** Nothing is in flight, nothing was recorded, and the mapping is empty. *)
Definition quiet (a : App) : Prop :=
  generatedImages a = ∅ ∧ stylesQueue a = [] ∧ workers a = [] ∧ awaitingAll a = false
  ∧ regenerations a = [] ∧ trace a = [].


(** ** Services that answer the same call the same way *)

(** generateStyledImage and addWatermark as functions of their arguments. *)
Record Services := {
  generate : string → string → Settled;    (* generateStyledImage(image, prompt) *)
  watermark : string → Settled             (* addWatermark(resultUrl) *)
}.

(** How the promise a job of [styleKey] awaits at [at_] settles. *)
Definition expected (sv : Services) (image styleKey : string) (at_ : Suspension) : Settled :=
  match at_ with
  | AtGenerate => generate sv image (promptOf styleKey)
  | AtWatermark resultUrl => watermark sv resultUrl
  end.

(** The entry the work function ends with for [styleKey]. *)
Definition outcome (sv : Services) (image styleKey : string) : GeneratedImage :=
  match generate sv image (promptOf styleKey) with
  | RejectedWith err => errorImage (errorMessage err)
  | Fulfilled resultUrl =>
      match watermark sv resultUrl with
      | RejectedWith err => errorImage (errorMessage err)
      | Fulfilled watermarkedUrl => doneImage watermarkedUrl
      end
  end.

(** A settlement in a schedule is the one the services give. *)
Definition agrees (sv : Services) (image : string) (act : Action) (a : App) : Prop :=
  match act with
  | SettleWorker i r =>
      match workers a !! i with
      | Some (Awaiting styleKey at_) => r = expected sv image styleKey at_
      | _ => True
      end
  | SettleRegeneration j r =>
      match regenerations a !! j with
      | Some (styleKey, at_) => r = expected sv image styleKey at_
      | None => True
      end
  | _ => True
  end.

Fixpoint consistent (sv : Services) (image : string) (acts : list Action) (a : App) : Prop :=
  match acts with
  | [] => True
  | act :: rest =>
      agrees sv image act a
      ∧ match step act a with
        | Some a' => consistent sv image rest a'
        | None => True
        end
  end.

(** The transition worker [i] can take next, settling as the services say. *)
Definition nextOf (sv : Services) (image : string) (i : nat) (a : App) : list Action :=
  match workers a !! i with
  | Some Resuming => [Resume i]
  | Some (Awaiting styleKey at_) => [SettleWorker i (expected sv image styleKey at_)]
  | _ => []
  end.

(** The schedule that lets the workers move in the given order. *)
Fixpoint drive (sv : Services) (image : string) (order : list nat) (a : App) : list Action :=
  match order with
  | [] => []
  | i :: rest =>
      let acts := nextOf sv image i a in
      acts ++ drive sv image rest (default a (run acts a))
  end.

(** Services that reject the prompt of "watercolor" and whose watermark
    fails, with a value that is not an [Error], on the image generated for
    "anime". *)
Definition exampleServices : Services :=
  {| generate := λ _ prompt_,
       if String.eqb prompt_ (promptOf "watercolor")
       then RejectedWith (ErrorObject "quota exceeded")
       else if String.eqb prompt_ (promptOf "anime") then Fulfilled "gen:anime"
       else Fulfilled "gen:other";
     watermark := λ resultUrl,
       if String.eqb resultUrl "gen:anime" then RejectedWith OtherValue
       else Fulfilled ("wm:" +:+ resultUrl) |}.

(** Two orders in which the three workers can move until all have returned. *)
Definition roundRobin : list nat := mjoin (replicate 10 [0; 1; 2]).
Definition oneByOne : list nat := replicate 30 2 ++ replicate 30 0 ++ replicate 30 1.

Definition driven (order : list nat) : list Action :=
  drive exampleServices exampleImage order exampleStart ++ [AllSettled].

(** With such services, every entry that is not pending is the outcome of
    its key, and every job parked at addWatermark holds the image generated
    for its key. *)
Record Determined (sv : Services) (image : string) (a : App) : Prop := {
  det_entries : ∀ k g,
    generatedImages a !! k = Some g → isPending (Some g) = false → g = outcome sv image k;
  det_workers : ∀ i k v,
    workers a !! i = Some (Awaiting k (AtWatermark v)) →
    generate sv image (promptOf k) = Fulfilled v;
  det_reruns : ∀ j k v,
    regenerations a !! j = Some (k, AtWatermark v) →
    generate sv image (promptOf k) = Fulfilled v
}.

(** ** handleDownloadIndividualImage *)

(** The link the handler creates and clicks (it is appended to the body and
    removed again), when the entry is done and has a url. *)
Definition handleDownloadIndividualImage
    (generatedImages : gmap string GeneratedImage) (styleKey : string) : list Effect :=
  match generatedImages !! styleKey with
  | Some image =>
      match status image, url image with
      | Done, Some u =>
          if truthy u then [ClickDownloadLink u ("pfp-perfect-" +:+ styleKey +:+ ".jpg")]
          else []
      | _, _ => []
      end
  | None => []
  end.

(** ** The program: every handler, every activation of handleGenerateClick *)

(** An activation of handleGenerateClick: the image it tested, which its
    closures keep whatever the state becomes, and its locals [stylesQueue]
    and [workers]; [parked] while it is at [await Promise.all(workers)]. *)
Record Activation := {
  capturedImage : string;
  queueOf : list string;
  workersOf : list Worker;
  parked : bool
}.

(** The component with every activation of handleGenerateClick there has
    been, oldest first.  The locals of an activation live here and not in the
    component: the queue and the workers of [core] are only the place where
    the activation that is running is put. *)
Record Program := {
  component : Component;
  activations : list Activation
}.

Definition initialProgram : Program :=
  {| component := initialComponent; activations := [] |}.

(** The state as a continuation of activation [p] finds it: the component
    state of the moment, its own locals, the image of its closure. *)
Definition resumeActivation (p : Activation) (a : App) : App :=
  {| croppedImageForDisplay := Some (capturedImage p);
     generatedImages := generatedImages a;
     appState := appState a;
     stylesQueue := queueOf p;
     workers := workersOf p;
     awaitingAll := parked p;
     regenerations := regenerations a;
     trace := trace a |}.

(** The locals an activation is left with when its continuation has run. *)
Definition activationOf (image : string) (a : App) : Activation :=
  {| capturedImage := image;
     queueOf := stylesQueue a;
     workersOf := workers a;
     parked := awaitingAll a |}.

(** The component when the continuation has run: what the setters were given
    is there; [croppedImageForDisplay], which no continuation sets, is as it
    was. *)
Definition suspendActivation (before after : App) : App :=
  {| croppedImageForDisplay := croppedImageForDisplay before;
     generatedImages := generatedImages after;
     appState := appState after;
     stylesQueue := stylesQueue before;
     workers := workers before;
     awaitingAll := awaitingAll before;
     regenerations := regenerations after;
     trace := trace after |}.

Definition setCore (a : App) (c : Component) : Component :=
  {| core := a; uploadedImage := uploadedImage c; isDownloading := isDownloading c |}.

Definition isStartOverButton (ctl : Control) : bool :=
  match ctl with StartOverButton => true | _ => false end.

(** What can happen in the program: a file read ends or the cropper or the
    "Different Photo" button is used; a click on "Generate Styles"; a click
    on "Start Over"; a continuation of the [n]-th activation of
    handleGenerateClick runs (a worker resumes, a promise a worker awaits
    settles, Promise.all is fulfilled); a card's regenerate control is
    clicked or a promise a re-run awaits settles. *)
Inductive ProgramEvent :=
| Ui (ev : UiEvent)
| ClickGenerateStyles
| ClickStartOver
| OfActivation (n : nat) (act : Action)
| OfRerun (act : Action).

(** One transition of the program.  A control can be used when it is
    rendered.  Nothing cancels an activation or a re-run: handleReset and
    [reader.onloadend] set the state and leave them parked. *)
Definition programStep (ev : ProgramEvent) (P : Program) : option Program :=
  let c := component P in
  match ev with
  | Ui ev =>
      match uiStep ev c with
      | Some c' => Some {| component := c'; activations := activations P |}
      | None => None
      end
  | ClickGenerateStyles =>
      if existsb isGenerateStylesButton (rendered c) then
        match croppedImageForDisplay (core c) with
        | Some image =>
            if truthy image then
              let a' := handleGenerateClick (core c) in
              Some {| component := setCore (suspendActivation (core c) a') c;
                      activations := activations P ++ [activationOf image a'] |}
            else Some P
        | None => Some P
        end
      else None
  | ClickStartOver =>
      if existsb isStartOverButton (rendered c)
      then Some {| component := handleReset c; activations := activations P |}
      else None
  | OfActivation n act =>
      if isPoolAction act then
        match activations P !! n with
        | Some p =>
            match step act (resumeActivation p (core c)) with
            | Some a' =>
                Some {| component := setCore (suspendActivation (core c) a') c;
                        activations := <[n := activationOf (capturedImage p) a']> (activations P) |}
            | None => None
            end
        | None => None
        end
      else None
  | OfRerun act =>
      if isPoolAction act then None
      else
        match step act (core c) with
        | Some a' => Some {| component := setCore a' c; activations := activations P |}
        | None => None
        end
  end.

Fixpoint programRun (evs : list ProgramEvent) (P : Program) : option Program :=
  match evs with
  | [] => Some P
  | ev :: rest =>
      match programStep ev P with Some P' => programRun rest P' | None => None end
  end.

(** The transition of the program that a transition of the [n]-th activation
    or of a re-run is. *)
Definition ofAction (n : nat) (act : Action) : ProgramEvent :=
  if isPoolAction act then OfActivation n act else OfRerun act.

(** The handlers that empty the mapping: [reader.onloadend] and handleReset
    (behind "Different Photo" and "Start Over"). *)
Definition resets (ev : ProgramEvent) : bool :=
  match ev with
  | Ui (LoadEnd _) | Ui ClickDifferentPhoto | ClickStartOver => true
  | _ => false
  end.

(** No activation of handleGenerateClick is parked at Promise.all and no
    re-run is parked. *)
Definition nothingInFlight (P : Program) : bool :=
  forallb (λ p, negb (parked p)) (activations P)
  && match regenerations (core (component P)) with [] => true | _ => false end.

(** Along the run, the mapping is emptied only while nothing is in flight. *)
Fixpoint resetsWhenIdle (evs : list ProgramEvent) (P : Program) : bool :=
  match evs with
  | [] => true
  | ev :: rest =>
      (if resets ev then nothingInFlight P else true)
      && match programStep ev P with
         | Some P' => resetsWhenIdle rest P'
         | None => true
         end
  end.

(** The keys with work queued or in flight in the program. *)
Definition keysInFlight (P : Program) : list string :=
  (activations P ≫= λ p, queueOf p ++ awaited (workersOf p))
  ++ (regenerations (core (component P))).*1.

(** A settlement is the one the services give: for a job of an activation,
    on the image of its closure; for a re-run, on the image of the render it
    was clicked in, which between two resets is the image of the state. *)
Definition programAgrees (sv : Services) (ev : ProgramEvent) (P : Program) : Prop :=
  match ev with
  | OfActivation n act =>
      match activations P !! n with
      | Some p => agrees sv (capturedImage p) act (resumeActivation p (core (component P)))
      | None => True
      end
  | OfRerun act =>
      match croppedImageForDisplay (core (component P)) with
      | Some image => agrees sv image act (core (component P))
      | None => True
      end
  | _ => True
  end.

Fixpoint programConsistent (sv : Services) (evs : list ProgramEvent) (P : Program) : Prop :=
  match evs with
  | [] => True
  | ev :: rest =>
      programAgrees sv ev P
      ∧ match programStep ev P with
        | Some P' => programConsistent sv rest P'
        | None => True
        end
  end.

(** A generation, re-runs left in flight when "Start Over" is clicked, one
    of them settling after the reset; then a second upload, crop and
    generation, in which the other re-run of the first and a worker of the
    second both end their job on "sketch". *)
Definition exampleFirstGeneration : list ProgramEvent :=
  (Ui <$> exampleUi) ++ [ClickGenerateStyles] ++ (ofAction 0 <$> exampleSchedule).

Definition exampleStaleRun : list ProgramEvent :=
  exampleFirstGeneration
  ++ [OfRerun (ClickRegenerate "sketch");
      OfRerun (SettleRegeneration 0 (Fulfilled "gen:sketch-again"));
      OfRerun (ClickRegenerate "anime");
      ClickStartOver;
      OfRerun (SettleRegeneration 1 (RejectedWith (ErrorObject "quota exceeded")));
      Ui (LoadEnd (Some "data:image/png;base64,CCCC"));
      Ui (ConfirmCrop "data:image/jpeg;base64,/9j/4BBQ");
      ClickGenerateStyles;
      OfRerun (SettleRegeneration 0 (Fulfilled "wm:sketch-again"));
      OfActivation 1 (SettleWorker 2 (Fulfilled "gen:sketch"));
      OfActivation 1 (SettleWorker 2 (Fulfilled "wm:sketch"))].

(** Two generations with a reset between them while nothing is in flight;
    the second is cut while its pool and a re-run are at work. *)
Definition exampleSteadyRun : list ProgramEvent :=
  exampleFirstGeneration
  ++ [OfRerun (ClickRegenerate "sketch");
      OfRerun (SettleRegeneration 0 (Fulfilled "gen:sketch-again"));
      OfRerun (SettleRegeneration 0 (Fulfilled "wm:sketch-again"));
      ClickStartOver;
      Ui (LoadEnd (Some "data:image/png;base64,CCCC"));
      Ui (ConfirmCrop "data:image/jpeg;base64,/9j/4BBQ");
      ClickGenerateStyles;
      OfActivation 1 (SettleWorker 2 (Fulfilled "gen:sketch"));
      OfActivation 1 (SettleWorker 2 (Fulfilled "wm:sketch"));
      OfActivation 1 (Resume 2);
      OfRerun (ClickRegenerate "sketch")].

Definition exampleProgram (evs : list ProgramEvent) : Program :=
  default initialProgram (programRun evs initialProgram).

(** ** The states of a program whose resets come while nothing is in flight *)

(** The state [b] with the events [pre] recorded before its own. *)
Definition prefixed (pre : list Event) (b : App) : App :=
  {| croppedImageForDisplay := croppedImageForDisplay b;
     generatedImages := generatedImages b;
     appState := appState b;
     stylesQueue := stylesQueue b;
     workers := workers b;
     awaitingAll := awaitingAll b;
     regenerations := regenerations b;
     trace := pre ++ trace b |}.

(** An activation that has ended. *)
Definition inert (p : Activation) : Prop :=
  parked p = false ∧ queueOf p = [] ∧ Forall (λ w, w = Returned) (workersOf p).

(** Such a program is between two generations, with an empty mapping and
    every activation ended; or in a generation: the state its latest
    activation finds is a state of a session of the image in the state, after
    the events recorded before that session.  With services given, the
    promises of the session settled as the services say. *)
Inductive Steady (osv : option Services) (P : Program) : Prop :=
| steady_between :
    cardsShown (core (component P)) = false →
    generatedImages (core (component P)) = ∅ →
    regenerations (core (component P)) = [] →
    Forall inert (activations P) →
    Forall legal (trace (core (component P))) →
    Steady osv P
| steady_during image acts b earlier p pre :
    truthy image = true →
    session image acts = Some b →
    (∀ sv, osv = Some sv → consistent sv image acts (handleGenerateClick (afterCrop image))) →
    activations P = earlier ++ [p] →
    Forall inert earlier →
    capturedImage p = image →
    croppedImageForDisplay (core (component P)) = Some image →
    resumeActivation p (core (component P)) = prefixed pre b →
    Forall legal pre →
    Steady osv P.

(** A generation whose workers move in turn, a reset while nothing is in
    flight, and a generation on the same image whose workers move one after
    the other; every promise settles as the example services say. *)
Definition exampleDrivenRun : list ProgramEvent :=
  (Ui <$> exampleUi) ++ [ClickGenerateStyles] ++ (ofAction 0 <$> driven roundRobin)
  ++ [ClickStartOver;
      Ui (LoadEnd (Some "data:image/png;base64,BBBB"));
      Ui (ConfirmCrop exampleImage);
      ClickGenerateStyles]
  ++ (ofAction 1 <$> driven oneByOne).

(** * Facts about the table of styles *)

Lemma STYLE_KEYS_eq :
  STYLE_KEYS =
  ["digital-painting"; "watercolor"; "sketch"; "vaporwave"; "3d-render";
   "impressionism"; "pop-art"; "anime"; "comic-book"].
Proof. reflexivity. Qed.

Lemma STYLE_KEYS_NoDup : NoDup STYLE_KEYS.
Proof. apply (bool_decide_unpack _). vm_compute. exact I. Qed.

Lemma STYLE_KEYS_usable :
  Forall (λ k, truthy k = true ∧ is_Some (lookupStyle STYLES k)) STYLE_KEYS.
Proof. rewrite STYLE_KEYS_eq. repeat constructor; eexists; reflexivity. Qed.

Lemma STYLE_KEYS_truthy k : k ∈ STYLE_KEYS → truthy k = true.
Proof. intros Hk. exact (proj1 (proj1 (Forall_forall _ _) STYLE_KEYS_usable k Hk)). Qed.

Lemma STYLE_KEYS_known k : k ∈ STYLE_KEYS → is_Some (lookupStyle STYLES k).
Proof. intros Hk. exact (proj2 (proj1 (Forall_forall _ _) STYLE_KEYS_usable k Hk)). Qed.

Lemma lookupStyle_elem table k st : lookupStyle table k = Some st → (k, st) ∈ table.
Proof.
  induction table as [|[k' st'] rest IH]; simpl; [discriminate|].
  destruct (String.eqb k' k) eqn:E.
  - apply String.eqb_eq in E. intros [= ->]. subst. left.
  - intros H. right. auto.
Qed.

Lemma lookupStyle_complete table k st :
  NoDup table.*1 → (k, st) ∈ table → lookupStyle table k = Some st.
Proof.
  induction table as [|[k' st'] rest IH]; intros Hn Hin; [by apply elem_of_nil in Hin|].
  rewrite fmap_cons in Hn. apply NoDup_cons in Hn as [Hk' Hn]. cbn [lookupStyle].
  apply elem_of_cons in Hin as [[= -> ->]|Hin].
  - by rewrite String.eqb_refl.
  - destruct (String.eqb k' k) eqn:E; [|by apply IH].
    apply String.eqb_eq in E as ->. destruct Hk'.
    apply list_elem_of_fmap. by exists (k, st).
Qed.

Lemma lookupStyle_key k st : lookupStyle STYLES k = Some st → k ∈ STYLE_KEYS.
Proof.
  intros H%lookupStyle_elem. unfold STYLE_KEYS.
  apply list_elem_of_fmap. exists (k, st). auto.
Qed.

(** * The worker loop on a queue of style keys *)

Lemma workerLoop_nil i image a : workerLoop i image [] a = setWorker i Returned a.
Proof. reflexivity. Qed.

Lemma workerLoop_claim i image k rest a st :
  truthy k = true → lookupStyle STYLES k = Some st →
  workerLoop i image (k :: rest) a =
  setWorker i (Awaiting k AtGenerate)
    (record (CallGenerateStyledImage (Pool i) k image (prompt st))
       (record (EnterProcessStyle i k) (setStylesQueue rest a))).
Proof. intros Ht Hs. simpl. rewrite Ht. unfold tryFromStart. rewrite Hs. reflexivity. Qed.

Lemma runWorker_Move image a i :
  (∀ k, k ∈ stylesQueue a → k ∈ STYLE_KEYS) →
  workers a !! i = Some Resuming →
  PoolMove image a (runWorker i image a).
Proof.
  intros Hq Hw. unfold runWorker. destruct (stylesQueue a) as [|k rest] eqn:Eq.
  - rewrite workerLoop_nil. by apply move_return.
  - assert (Hk : k ∈ STYLE_KEYS) by (apply Hq; left).
    destruct (STYLE_KEYS_known k Hk) as [st Hst].
    rewrite (workerLoop_claim _ _ _ _ _ st); [|by apply STYLE_KEYS_truthy|done].
    by eapply move_claim.
Qed.

Lemma tryResume_final by_ k at_ r a a' :
  tryResume by_ k at_ r a = (a', None) →
  ∃ g, finalImage g ∧ a' = putImage by_ k g a.
Proof.
  destruct r as [v|err]; simpl.
  - destruct at_; intros [= <-]. exists (doneImage v). split; [left; eauto | done].
  - intros [= <-]. exists (errorImage (errorMessage err)). split; [right; eauto | done].
Qed.

Lemma tryResume_parked by_ k at_ r a a' at' :
  tryResume by_ k at_ r a = (a', Some at') →
  ∃ v, at_ = AtGenerate ∧ at' = AtWatermark v ∧ a' = record (CallAddWatermark by_ k v) a.
Proof.
  destruct r as [v|err]; simpl; [|discriminate].
  destruct at_; [|discriminate]. intros [= <- <-]. eauto.
Qed.

Lemma handleRegenerateStyle_Move image a k :
  truthy image = true → croppedImageForDisplay a = Some image → k ∈ STYLE_KEYS →
  RerunMove image a (handleRegenerateStyle k a).
Proof.
  intros Ht Hi Hk. unfold handleRegenerateStyle. rewrite Hi, Ht.
  destruct (isPending (generatedImages a !! k)) eqn:Hp; [apply move_ignored|].
  destruct (STYLE_KEYS_known k Hk) as [st Hst].
  unfold tryFromStart. rewrite Hst. simpl. by apply move_rerun.
Qed.

(** Every transition of the executable semantics is one of the kinds. *)
Lemma step_PoolMove image a act a' :
  croppedImageForDisplay a = Some image →
  (∀ k, k ∈ stylesQueue a → k ∈ STYLE_KEYS) →
  isPoolAction act = true →
  step act a = Some a' → PoolMove image a a'.
Proof.
  intros Hi Hq Hact Hstep. destruct act as [i|i r| |k|j r]; try discriminate; simpl in Hstep.
  - destruct (workers a !! i) as [[| |]|] eqn:Hw; try discriminate.
    rewrite Hi in Hstep. injection Hstep as <-. by apply runWorker_Move.
  - destruct (workers a !! i) as [[|k at_|]|] eqn:Hw; try discriminate.
    destruct (tryResume (Pool i) k at_ r a) as [a1 [at'|]] eqn:Hr; injection Hstep as <-.
    + apply tryResume_parked in Hr as (v & -> & -> & ->). by apply move_watermark.
    + apply tryResume_final in Hr as (g & Hg & ->). by eapply move_finish.
  - destruct (awaitingAll a) eqn:Ha; [|discriminate]. simpl in Hstep.
    destruct (forallb isReturned (workers a)) eqn:Hall; [|discriminate].
    injection Hstep as <-. apply move_all; [done|].
    apply Forall_forall. intros w Hw.
    rewrite forallb_forall in Hall. apply list_elem_of_In in Hw.
    specialize (Hall w Hw). by destruct w.
Qed.

Lemma step_RerunMove image a act a' :
  truthy image = true → croppedImageForDisplay a = Some image →
  isPoolAction act = false →
  step act a = Some a' → RerunMove image a a'.
Proof.
  intros Ht Hi Hact Hstep. destruct act as [i|i r| |k|j r]; try discriminate; simpl in Hstep.
  - destruct (cardsShown a); [|discriminate]. simpl in Hstep.
    case_bool_decide; [|discriminate]. injection Hstep as <-.
    by apply handleRegenerateStyle_Move.
  - destruct (regenerations a !! j) as [[k at_]|] eqn:Hj; [|discriminate].
    destruct (tryResume Rerun k at_ r a) as [a1 [at'|]] eqn:Hr; injection Hstep as <-.
    + apply tryResume_parked in Hr as (v & -> & -> & ->). simpl. by apply move_rerun_watermark.
    + apply tryResume_final in Hr as (g & Hg & ->). simpl. by eapply move_rerun_finish.
Qed.

Lemma step_Move image a act a' :
  truthy image = true → croppedImageForDisplay a = Some image →
  (∀ k, k ∈ stylesQueue a → k ∈ STYLE_KEYS) →
  step act a = Some a' → Move image a a'.
Proof.
  intros Ht Hi Hq Hstep. destruct (isPoolAction act) eqn:Hact.
  - left. by eapply step_PoolMove.
  - right. by eapply step_RerunMove.
Qed.

(** * Updating one slot of a list *)

Lemma slot_split {A} (l : list A) i x :
  l !! i = Some x → ∃ l1 l2, l = l1 ++ x :: l2 ∧ ∀ y, <[i:=y]> l = l1 ++ y :: l2.
Proof.
  intros H. exists (take i l), (drop (S i) l). split.
  - by rewrite take_drop_middle.
  - intros y. apply insert_take_drop. by eapply lookup_lt_Some.
Qed.

Lemma awaited_app ws1 ws2 : awaited (ws1 ++ ws2) = awaited ws1 ++ awaited ws2.
Proof. unfold awaited. apply bind_app. Qed.

Lemma awaited_cons w ws : awaited (w :: ws) = jobOf w ++ awaited ws.
Proof. reflexivity. Qed.

(** Replacing one element replaces its contribution to a bind. *)
Lemma bind_slot {A B} (f : A → list B) (l : list A) i x :
  l !! i = Some x →
  ∃ others, l ≫= f ≡ₚ f x ++ others ∧ ∀ y, <[i:=y]> l ≫= f ≡ₚ f y ++ others.
Proof.
  intros (l1 & l2 & -> & Hins)%slot_split. exists ((l1 ≫= f) ++ (l2 ≫= f)). split.
  - rewrite bind_app, bind_cons. apply Permutation_app_swap_app.
  - intros y. rewrite Hins, bind_app, bind_cons. apply Permutation_app_swap_app.
Qed.

(** Replacing a worker's state replaces its job among the awaited ones. *)
Lemma awaited_insert ws i w :
  ws !! i = Some w →
  ∃ others, awaited ws ≡ₚ jobOf w ++ others
            ∧ ∀ w', awaited (<[i:=w']> ws) ≡ₚ jobOf w' ++ others.
Proof. apply bind_slot. Qed.

Lemma atGenerate_insert ws i w :
  ws !! i = Some w →
  ∃ others, atGenerate ws ≡ₚ generatingJobOf w ++ others
            ∧ ∀ w', atGenerate (<[i:=w']> ws) ≡ₚ generatingJobOf w' ++ others.
Proof. apply bind_slot. Qed.

Lemma awaited_Returned ws : Forall (λ w, w = Returned) ws → awaited ws = [].
Proof. induction 1 as [|w ws -> _ IH]; [done|]. by rewrite awaited_cons, IH. Qed.

Lemma elem_of_insert_inv {A} (l : list A) i x y : y ∈ <[i:=x]> l → y = x ∨ y ∈ l.
Proof.
  destruct (l !! i) as [z|] eqn:E.
  - destruct (slot_split _ _ _ E) as (l1 & l2 & Hl & Hins). rewrite Hins, Hl.
    rewrite !elem_of_app, !elem_of_cons. tauto.
  - rewrite list_insert_ge; [tauto|]. by apply lookup_ge_None.
Qed.

(** * The pool invariant *)

Ltac trace_simpl :=
  simpl; rewrite ?omap_app; simpl; rewrite ?app_nil_r.

Lemma PoolInv_Move image a a' : PoolInv image a → Move image a a' → PoolInv image a'.
Proof.
  intros [Hi Hn Hq Hr Hg Hwm Hret Hc] Hm.
  destruct Hm as [[i Hw Hnil|i k rest st Hw Hcons Hst|i k v Hw|i k at_ g Hw Hfin|Hpark Hall]
                 |[|k st Hk Hp Hst|j k v Hj|j k at_ g Hj Hfin]].
  - destruct (awaited_insert _ _ _ Hw) as (others & Ho & Hins).
    destruct (atGenerate_insert _ _ _ Hw) as (gens & Hgo & Hgins).
    split; trace_simpl; auto.
    + by rewrite length_insert.
    + by rewrite Hr, Ho, (Hins Returned).
    + by rewrite (Hgins Returned), <- Hgo.
  - destruct (awaited_insert _ _ _ Hw) as (others & Ho & Hins).
    destruct (atGenerate_insert _ _ _ Hw) as (gens & Hgo & Hgins).
    split; trace_simpl; auto.
    + by rewrite length_insert.
    + rewrite <- Hq, Hcons. by rewrite <- app_assoc.
    + rewrite (Hins (Awaiting k AtGenerate)), Hr, Ho. simpl. solve_Permutation.
    + by rewrite Hg.
    + rewrite (Hgins (Awaiting k AtGenerate)). rewrite Hgo in Hwm. simpl in Hwm. simpl.
      rewrite <- Permutation_middle, <- (Permutation_cons_append (omap entered (trace a))).
      by constructor.
    + intros [Heq|Hin]%elem_of_insert_inv; [discriminate|].
      specialize (Hret Hin). congruence.
  - destruct (awaited_insert _ _ _ Hw) as (others & Ho & Hins).
    destruct (atGenerate_insert _ _ _ Hw) as (gens & Hgo & Hgins).
    split; trace_simpl; auto.
    + by rewrite length_insert.
    + by rewrite (Hins (Awaiting k (AtWatermark v))), Hr, Ho.
    + rewrite (Hgins (Awaiting k (AtWatermark v))). rewrite Hgo in Hwm. simpl in Hwm. simpl.
      by rewrite <- app_assoc.
    + intros [Heq|Hin]%elem_of_insert_inv; [discriminate|]. auto.
  - destruct (awaited_insert _ _ _ Hw) as (others & Ho & Hins).
    destruct (atGenerate_insert _ _ _ Hw) as (gens & Hgo & Hgins).
    split; trace_simpl; auto.
    + by rewrite length_insert.
    + rewrite (Hins Resuming), Hr, Ho. simpl. solve_Permutation.
    + rewrite (Hgins Resuming). rewrite Hgo in Hwm. simpl.
      etrans; [|exact Hwm]. apply submseteq_skips_l, submseteq_inserts_l. done.
    + intros [Heq|Hin]%elem_of_insert_inv; [discriminate|]. auto.
  - split; trace_simpl; auto.
  - by split.
  - split; trace_simpl; auto.
  - split; trace_simpl; auto.
  - split; trace_simpl; auto.
Qed.

(** * The mapping invariant *)

Lemma finalImage_wellFormed g : finalImage g → wellFormed g.
Proof. intros [[v ->]|[m ->]]; unfold wellFormed; simpl; eauto. Qed.

Lemma finalImage_terminal g : finalImage g → isTerminal (status g) = true.
Proof. by intros [[v ->]|[m ->]]. Qed.

Lemma finalImage_not_pending g : finalImage g → isPending (Some g) = false.
Proof. by intros [[v ->]|[m ->]]. Qed.

Lemma isPending_status entry : isPending entry = true ↔ (status <$> entry) = Some Pending.
Proof.
  destruct entry as [[[] u e]|]; simpl; split; intros H; try done; by inversion H.
Qed.

Lemma not_pending_terminal g :
  isPending (Some g) = false → isTerminal (status g) = true.
Proof. by destruct g as [[] u e]. Qed.

Lemma MapInv_same a a' :
  generatedImages a' = generatedImages a → inFlight a' ≡ₚ inFlight a →
  MapInv a → MapInv a'.
Proof.
  intros Hg Hf [Hk Hp Hn Hw]. split; rewrite ?Hg; auto.
  - intros k. by rewrite Hf.
  - by rewrite Hf.
Qed.

Lemma MapInv_finish a a' k g :
  generatedImages a' = <[k:=g]> (generatedImages a) → finalImage g →
  inFlight a ≡ₚ k :: inFlight a' →
  MapInv a → MapInv a'.
Proof.
  intros Hg Hfin Hf [Hk Hp Hn Hw].
  rewrite Hf in Hn. apply NoDup_cons in Hn as [Hnotin Hn].
  assert (Hkin : k ∈ STYLE_KEYS).
  { apply Hk. destruct (generatedImages a !! k) eqn:E; [eauto|].
    assert (isPending (generatedImages a !! k) = true) as Hpk
      by (apply Hp; rewrite Hf; left).
    by rewrite E in Hpk. }
  split; rewrite ?Hg; auto.
  - intros k'. destruct (decide (k = k')) as [<-|Hne].
    + rewrite lookup_insert_eq. split; eauto.
    + rewrite lookup_insert_ne by done. apply Hk.
  - intros k'. destruct (decide (k = k')) as [<-|Hne].
    + rewrite lookup_insert_eq, finalImage_not_pending by done. split; [done|tauto].
    + rewrite lookup_insert_ne by done. rewrite Hp, Hf, elem_of_cons.
      split; [intros [?|?]; [congruence|done] | auto].
  - intros k' g'. destruct (decide (k = k')) as [<-|Hne].
    + rewrite lookup_insert_eq. intros [= <-]. by apply finalImage_wellFormed.
    + rewrite lookup_insert_ne by done. apply Hw.
Qed.

Lemma MapInv_start a a' k :
  generatedImages a' = <[k:=pendingImage]> (generatedImages a) →
  k ∈ STYLE_KEYS → isPending (generatedImages a !! k) = false →
  inFlight a' ≡ₚ k :: inFlight a →
  MapInv a → MapInv a'.
Proof.
  intros Hg Hkin Hnp Hf [Hk Hp Hn Hw]. split; rewrite ?Hg.
  - intros k'. destruct (decide (k = k')) as [<-|Hne].
    + rewrite lookup_insert_eq. split; eauto.
    + rewrite lookup_insert_ne by done. apply Hk.
  - intros k'. rewrite Hf. destruct (decide (k = k')) as [<-|Hne].
    + rewrite lookup_insert_eq. simpl. split; [left|done].
    + rewrite lookup_insert_ne by done. rewrite Hp, elem_of_cons.
      split; [auto | intros [?|?]; [congruence|done]].
  - rewrite Hf. apply NoDup_cons. split; [|done].
    intros Hin%Hp. congruence.
  - intros k' g'. destruct (decide (k = k')) as [<-|Hne].
    + rewrite lookup_insert_eq. intros [= <-]. by unfold wellFormed.
    + rewrite lookup_insert_ne by done. apply Hw.
Qed.

Lemma MapInv_Move image a a' : MapInv a → Move image a a' → MapInv a'.
Proof.
  intros Hinv Hm.
  destruct Hm as [[i Hw Hnil|i k rest st Hw Hcons Hst|i k v Hw|i k at_ g Hw Hfin|Hpark Hall]
                 |[|k st Hk Hp Hst|j k v Hj|j k at_ g Hj Hfin]].
  - destruct (awaited_insert _ _ _ Hw) as (others & Ho & Hins).
    eapply MapInv_same; [| |done]; [done|].
    unfold inFlight; simpl. by rewrite (Hins Returned), Ho.
  - destruct (awaited_insert _ _ _ Hw) as (others & Ho & Hins).
    eapply MapInv_same; [| |done]; [done|].
    unfold inFlight; simpl. rewrite (Hins (Awaiting k AtGenerate)), Ho, Hcons. simpl.
    symmetry. apply Permutation_middle.
  - destruct (awaited_insert _ _ _ Hw) as (others & Ho & Hins).
    eapply MapInv_same; [| |done]; [done|].
    unfold inFlight; simpl. by rewrite (Hins (Awaiting k (AtWatermark v))), Ho.
  - destruct (awaited_insert _ _ _ Hw) as (others & Ho & Hins).
    eapply (MapInv_finish _ _ k g); [| | |done]; [done|done|].
    unfold inFlight; simpl. rewrite (Hins Resuming), Ho. simpl.
    symmetry. apply Permutation_middle.
  - eapply MapInv_same; [| |done]; [done|]. by unfold inFlight.
  - done.
  - eapply (MapInv_start _ _ k); [| | | |done]; [done|done|done|].
    unfold inFlight; simpl. rewrite fmap_app, !app_assoc. simpl.
    by rewrite <- Permutation_cons_append.
  - eapply MapInv_same; [| |done]; [done|].
    unfold inFlight; simpl. rewrite list_fmap_insert. simpl.
    rewrite (list_insert_id _ j k); [done|]. by rewrite list_lookup_fmap, Hj.
  - eapply (MapInv_finish _ _ k g); [| | |done]; [done|done|].
    unfold inFlight; simpl.
    pose proof (fmap_Permutation fst _ _ (delete_Permutation _ _ _ Hj)) as Hd.
    simpl in Hd. rewrite Hd, !app_assoc. symmetry. apply Permutation_middle.
Qed.

(** * The state handleGenerateClick leaves *)


Lemma handleGenerateClick_afterCrop image :
  truthy image = true →
  handleGenerateClick (afterCrop image) =
  {| croppedImageForDisplay := Some image;
     generatedImages := initialImages;
     appState := generating;
     stylesQueue := ["vaporwave"; "3d-render"; "impressionism"; "pop-art"; "anime"; "comic-book"];
     workers := [Awaiting "digital-painting" AtGenerate; Awaiting "watercolor" AtGenerate;
                 Awaiting "sketch" AtGenerate];
     awaitingAll := true;
     regenerations := [];
     trace :=
       [SetInitialImages ∅ initialImages;
        EnterProcessStyle 0 "digital-painting";
        CallGenerateStyledImage (Pool 0) "digital-painting" image (promptOf "digital-painting");
        EnterProcessStyle 1 "watercolor";
        CallGenerateStyledImage (Pool 1) "watercolor" image (promptOf "watercolor");
        EnterProcessStyle 2 "sketch";
        CallGenerateStyledImage (Pool 2) "sketch" image (promptOf "sketch")] |}.
Proof. intros Ht. unfold handleGenerateClick. simpl. rewrite Ht. reflexivity. Qed.

Lemma foldl_insert_lookup {V} (v : V) (keys : list string) (m : gmap string V) k :
  foldl (λ acc key, <[key := v]> acc) m keys !! k
  = if bool_decide (k ∈ keys) then Some v else m !! k.
Proof.
  revert m. induction keys as [|key keys IH]; intros m; cbn [foldl].
  - rewrite bool_decide_eq_false_2; [done|]. apply not_elem_of_nil.
  - rewrite IH. destruct (decide (k = key)) as [->|Hne].
    + rewrite lookup_insert_eq.
      rewrite (bool_decide_eq_true_2 (key ∈ key :: keys)) by left.
      by case_bool_decide.
    + rewrite lookup_insert_ne by done.
      case_bool_decide as H1.
      * rewrite bool_decide_eq_true_2; [done|]. by right.
      * rewrite bool_decide_eq_false_2; [done|].
        intros [?|?]%elem_of_cons; congruence.
Qed.

Lemma initialImages_lookup k :
  initialImages !! k = if bool_decide (k ∈ STYLE_KEYS) then Some pendingImage else None.
Proof. unfold initialImages. by rewrite foldl_insert_lookup, lookup_empty. Qed.

Lemma not_ShowResults_in (evs : list Event) :
  forallb (λ e, negb (isShowResults e)) evs = true → ShowResults ∉ evs.
Proof.
  intros H Hin. rewrite forallb_forall in H.
  apply list_elem_of_In in Hin. by specialize (H _ Hin).
Qed.

Lemma PoolInv_click image :
  truthy image = true → PoolInv image (handleGenerateClick (afterCrop image)).
Proof.
  intros Ht. rewrite handleGenerateClick_afterCrop by done. split; simpl; try done.
  rewrite !elem_of_cons, elem_of_nil. intros [?|[?|[?|[]]]]; discriminate.
Qed.

Lemma MapInv_click image :
  truthy image = true → MapInv (handleGenerateClick (afterCrop image)).
Proof.
  intros Ht. rewrite handleGenerateClick_afterCrop by done.
  assert (Hperm : inFlight
    {| croppedImageForDisplay := Some image;
       generatedImages := initialImages;
       appState := generating;
       stylesQueue := ["vaporwave"; "3d-render"; "impressionism"; "pop-art"; "anime"; "comic-book"];
       workers := [Awaiting "digital-painting" AtGenerate; Awaiting "watercolor" AtGenerate;
                   Awaiting "sketch" AtGenerate];
       awaitingAll := true;
       regenerations := [];
       trace :=
         [SetInitialImages ∅ initialImages;
          EnterProcessStyle 0 "digital-painting";
          CallGenerateStyledImage (Pool 0) "digital-painting" image (promptOf "digital-painting");
          EnterProcessStyle 1 "watercolor";
          CallGenerateStyledImage (Pool 1) "watercolor" image (promptOf "watercolor");
          EnterProcessStyle 2 "sketch";
          CallGenerateStyledImage (Pool 2) "sketch" image (promptOf "sketch")] |}
    ≡ₚ STYLE_KEYS).
  { unfold inFlight. simpl. rewrite STYLE_KEYS_eq.
    apply (Permutation_app_comm [_; _; _; _; _; _] [_; _; _]). }
  split.
  - intros k. simpl. rewrite initialImages_lookup. case_bool_decide; split; eauto.
    + by intros [? ?].
    + done.
  - intros k. rewrite Hperm. simpl. rewrite initialImages_lookup.
    case_bool_decide; simpl; split; done.
  - rewrite Hperm. apply STYLE_KEYS_NoDup.
  - intros k g. simpl. rewrite initialImages_lookup.
    case_bool_decide; [|done]. intros [= <-]. by unfold wellFormed.
Qed.

(** * The updates in the trace *)

Lemma awaited_elem ws i k at_ : ws !! i = Some (Awaiting k at_) → k ∈ awaited ws.
Proof.
  intros (l1 & l2 & -> & _)%slot_split.
  rewrite awaited_app, awaited_cons. simpl. rewrite elem_of_app. right. left.
Qed.

Lemma regenerations_elem (rs : list (string * Suspension)) j k at_ :
  rs !! j = Some (k, at_) → k ∈ rs.*1.
Proof.
  intros H. apply list_elem_of_fmap. exists (k, at_). split; [done|].
  by eapply list_elem_of_lookup_2.
Qed.


Lemma TraceInv_Move image a a' : MapInv a → TraceInv a → Move image a a' → TraceInv a'.
Proof.
  intros [Hk Hp Hn Hwf] [Hl Hw] Hm.
  destruct Hm as [[i Hwk Hnil|i k rest st Hwk Hcons Hst|i k v Hwk|i k at_ g Hwk Hfin|Hpark Hall]
                 |[|k st Hkin Hnp Hst|j k v Hj|j k at_ g Hj Hfin]];
    split; simpl; rewrite ?Forall_app, ?Forall_singleton; simpl; repeat split; auto.
  - apply isPending_status, Hp. unfold inFlight. rewrite !elem_of_app.
    right. left. by eapply awaited_elem.
  - by apply finalImage_terminal.
  - constructor; [|done]. by apply finalImage_wellFormed.
  - right. split; [|done]. destruct (proj2 (Hk k) Hkin) as [g Hg].
    exists (status g). rewrite Hg in Hnp |- *. split; [done|]. by apply not_pending_terminal.
  - constructor; [|done]. by unfold wellFormed.
  - left. split; [|by apply finalImage_terminal].
    apply isPending_status, Hp. unfold inFlight. rewrite !elem_of_app.
    right. right. by eapply regenerations_elem.
  - constructor; [|done]. by apply finalImage_wellFormed.
Qed.

Lemma TraceInv_click image :
  truthy image = true → TraceInv (handleGenerateClick (afterCrop image)).
Proof.
  intros Ht. rewrite handleGenerateClick_afterCrop by done. split; cbn [trace].
  - apply Forall_cons. split; [|by repeat constructor].
    split; [done|]. intros k g. rewrite initialImages_lookup.
    case_bool_decide; [|done]. by intros [= <-].
  - apply Forall_cons. split; [|by repeat constructor].
    cbn [written]. apply Forall_forall. intros g Hg.
    apply list_elem_of_fmap in Hg as ([k g'] & -> & Hg%elem_of_map_to_list).
    rewrite initialImages_lookup in Hg. case_bool_decide; [|done].
    injection Hg as <-. by unfold wellFormed.
Qed.

(** * The completion signal *)

Lemma split_before_suffix {A} (t evs before after : list A) x :
  t ++ evs = before ++ x :: after → x ∉ evs →
  ∃ after0, t = before ++ x :: after0 ∧ after = after0 ++ evs.
Proof.
  intros Heq Hx. apply app_eq_app in Heq as [l [[-> Hl]|[-> Hl]]].
  - destruct l as [|y l]; simpl in Hl.
    + subst evs. exfalso. apply Hx. left.
    + injection Hl as <- ->. eauto.
  - exfalso. apply Hx. rewrite Hl, elem_of_app. right. left.
Qed.

Lemma split_at_end {A} (t before after : list A) x :
  t ++ [x] = before ++ x :: after → x ∉ t → before = t ∧ after = [].
Proof.
  intros Heq Hx. apply app_eq_app in Heq as [l [[-> Hl]|[-> Hl]]].
  - destruct l as [|y l]; simpl in Hl.
    + injection Hl as ->. by rewrite app_nil_r.
    + injection Hl as <- Hl. exfalso. apply Hx. rewrite elem_of_app. right. left.
  - destruct l as [|y l]; simpl in Hl.
    + injection Hl as <-. by rewrite app_nil_r.
    + injection Hl as _ Hl. by destruct l.
Qed.

(** A transition other than the completion only extends the trace, and not
    by the completion event. *)
Lemma Move_trace image a a' :
  Move image a a' →
  (∃ evs, trace a' = trace a ++ evs ∧ (ShowResults ∉ evs)
          ∧ awaitingAll a' = awaitingAll a ∧ appState a' = appState a)
  ∨ (a' = record ShowResults (setAppState results_shown (setAwaitingAll false a))
     ∧ awaitingAll a = true ∧ Forall (λ w, w = Returned) (workers a)).
Proof.
  intros [[i Hwk Hnil|i k rest st Hwk Hcons Hst|i k v Hwk|i k at_ g Hwk Hfin|Hpark Hall]
         |[|k st Hkin Hnp Hst|j k v Hj|j k at_ g Hj Hfin]]; simpl.
  - left. exists []. rewrite app_nil_r. repeat split; by try apply not_elem_of_nil.
  - left. eexists [_; _]. rewrite <- app_assoc. repeat split. by apply not_ShowResults_in.
  - left. eexists [_]. repeat split. by apply not_ShowResults_in.
  - left. eexists [_]. repeat split. by apply not_ShowResults_in.
  - right. auto.
  - left. exists []. rewrite app_nil_r. repeat split; by try apply not_elem_of_nil.
  - left. eexists [_; _]. rewrite <- app_assoc. repeat split. by apply not_ShowResults_in.
  - left. eexists [_]. repeat split. by apply not_ShowResults_in.
  - left. eexists [_]. repeat split. by apply not_ShowResults_in.
Qed.

Lemma Move_shape image a a' :
  Move image a a' → awaitingAll a = false →
  Forall (λ w, w = Returned) (workers a) →
  workers a' = workers a ∧ stylesQueue a' = stylesQueue a.
Proof.
  intros Hm Hf Hall.
  assert (Hno : ∀ i w, workers a !! i = Some w → w = Returned).
  { intros i w Hw. by eapply (proj1 (Forall_lookup _ _) Hall). }
  destruct Hm as [[i Hwk Hnil|i k rest st Hwk Hcons Hst|i k v Hwk|i k at_ g Hwk Hfin|Hpark Hall']
                 |[|k st Hkin Hnp Hst|j k v Hj|j k at_ g Hj Hfin]]; simpl; auto;
    try (by apply Hno in Hwk); congruence.
Qed.

Lemma ShownInv_Move image a a' :
  PoolInv image a → ShownInv a → Move image a a' → ShownInv a'.
Proof.
  intros HP [Hpark Hfired Hafter] Hm.
  destruct (Move_trace _ _ _ Hm) as [(evs & Ht & Hno & Ha & Hs)|(-> & Ha & Hall)].
  - split.
    + rewrite Ha, Hs, Ht. intros [? ?]%Hpark. split; [done|].
      rewrite elem_of_app. tauto.
    + rewrite Ha, Hs. intros Hf. destruct (Hfired Hf) as (? & Hall & Hq & Hin).
      destruct (Move_shape _ _ _ Hm Hf Hall) as [-> ->]. repeat split; [done..|].
      rewrite Ht, elem_of_app. by left.
    + intros before after. rewrite Ht.
      intros (after0 & Heq & ->)%split_before_suffix; [|done].
      destruct (Hafter _ _ Heq) as (? & ? & ?). repeat split; [done..|].
      rewrite elem_of_app. tauto.
  - destruct (Hpark Ha) as [_ Hnotin].
    assert (Hq : stylesQueue a = []).
    { apply (pool_returned _ _ HP). pose proof (pool_size _ _ HP) as Hn.
      destruct (workers a) as [|w ws]; [done|].
      apply Forall_cons in Hall as [-> _]. left. }
    split; simpl.
    + discriminate.
    + intros _. repeat split; [done..|]. rewrite elem_of_app. right. left.
    + intros before after [-> ->]%split_at_end; [|done].
      repeat split; [|done|apply not_elem_of_nil].
      rewrite <- (pool_queue _ _ HP), Hq, app_nil_r.
      rewrite (pool_running _ _ HP), awaited_Returned by done. by rewrite app_nil_r.
Qed.

Lemma ShownInv_click image :
  truthy image = true → ShownInv (handleGenerateClick (afterCrop image)).
Proof.
  intros Ht. rewrite handleGenerateClick_afterCrop by done.
  assert (Hno : ShowResults ∉
    [SetInitialImages ∅ initialImages;
     EnterProcessStyle 0 "digital-painting";
     CallGenerateStyledImage (Pool 0) "digital-painting" image (promptOf "digital-painting");
     EnterProcessStyle 1 "watercolor";
     CallGenerateStyledImage (Pool 1) "watercolor" image (promptOf "watercolor");
     EnterProcessStyle 2 "sketch";
     CallGenerateStyledImage (Pool 2) "sketch" image (promptOf "sketch")])
    by by apply not_ShowResults_in.
  split; cbn [awaitingAll appState trace].
  - done.
  - discriminate.
  - intros before after Heq. exfalso. apply Hno. rewrite Heq, elem_of_app. right. left.
Qed.

(** * Every state of a session satisfies the invariants *)


Lemma PoolInv_queue_keys image a k : PoolInv image a → k ∈ stylesQueue a → k ∈ STYLE_KEYS.
Proof. intros HP Hk. rewrite <- (pool_queue _ _ HP), elem_of_app. by right. Qed.

Lemma SessionInv_step image a act a' :
  truthy image = true → SessionInv image a → step act a = Some a' → SessionInv image a'.
Proof.
  intros Ht [HP HM HT HS] Hstep.
  assert (Hm : Move image a a').
  { eapply step_Move; [done|apply HP| |done]. intros k. by apply (PoolInv_queue_keys image). }
  split.
  - exact (PoolInv_Move _ _ _ HP Hm).
  - exact (MapInv_Move _ _ _ HM Hm).
  - exact (TraceInv_Move _ _ _ HM HT Hm).
  - exact (ShownInv_Move _ _ _ HP HS Hm).
Qed.

Lemma reachable_SessionInv image a :
  truthy image = true → reachable image a → SessionInv image a.
Proof.
  intros Ht Hr. induction Hr as [|a act a' _ IH Hstep].
  - split; [by apply PoolInv_click|by apply MapInv_click
            |by apply TraceInv_click|by apply ShownInv_click].
  - by eapply SessionInv_step.
Qed.

(** * Progress of the pool *)

Lemma weight_insert ws i w w' :
  ws !! i = Some w →
  sum_list (workerWeight <$> <[i:=w']> ws) + workerWeight w
  = sum_list (workerWeight <$> ws) + workerWeight w'.
Proof.
  intros (l1 & l2 & -> & Hins)%slot_split. rewrite Hins.
  rewrite !fmap_app, !fmap_cons, !sum_list_with_app. simpl. lia.
Qed.

(** Every transition of the pool uses up some of its work. *)
Lemma poolWork_PoolMove image a a' : PoolMove image a a' → poolWork a' < poolWork a.
Proof.
  intros [i Hw Hnil|i k rest st Hw Hcons Hst|i k v Hw|i k at_ g Hw Hfin|Hpark Hall];
    unfold poolWork; simpl.
  - pose proof (weight_insert _ _ _ Returned Hw). simpl in *. lia.
  - pose proof (weight_insert _ _ _ (Awaiting k AtGenerate) Hw). rewrite Hcons. simpl in *. lia.
  - pose proof (weight_insert _ _ _ (Awaiting k (AtWatermark v)) Hw). simpl in *. lia.
  - pose proof (weight_insert _ _ _ Resuming Hw). destruct at_; simpl in *; lia.
  - rewrite Hpark. lia.
Qed.

(** The other transitions leave it alone. *)
Lemma poolWork_RerunMove image a a' : RerunMove image a a' → poolWork a' = poolWork a.
Proof. by intros [|k st Hkin Hnp Hst|j k v Hj|j k at_ g Hj Hfin]. Qed.

Lemma workers_cases ws :
  Forall (λ w, w = Returned) ws
  ∨ (∃ i, ws !! i = Some Resuming)
  ∨ (∃ i k at_, ws !! i = Some (Awaiting k at_)).
Proof.
  induction ws as [|w ws [IH|[[i IH]|(i & k & at_ & IH)]]].
  - by left.
  - destruct w as [|k at_|].
    + right. left. by exists 0.
    + right. right. by exists 0, k, at_.
    + left. by constructor.
  - right. left. by exists (S i).
  - right. right. by exists (S i), k, at_.
Qed.

Lemma Forall_Returned_forallb ws :
  Forall (λ w, w = Returned) ws → forallb isReturned ws = true.
Proof. induction 1 as [|w ws -> _ IH]; [done|]. simpl. done. Qed.

(** While handleGenerateClick is parked, some transition of the pool is
    enabled: a worker can continue, a promise a worker awaits can settle
    (either way), or Promise.all is fulfilled. *)
Lemma pool_progress image a :
  PoolInv image a → awaitingAll a = true →
  ∃ act a', isPoolAction act = true ∧ step act a = Some a'.
Proof.
  intros HP Hpark. destruct (workers_cases (workers a)) as [Hall|[[i Hw]|(i & k & at_ & Hw)]].
  - exists AllSettled. eexists. split; [done|]. simpl.
    by rewrite Hpark, Forall_Returned_forallb.
  - exists (Resume i). eexists. split; [done|]. simpl.
    by rewrite Hw, (pool_image _ _ HP).
  - exists (SettleWorker i (RejectedWith OtherValue)). eexists. split; [done|]. simpl.
    by rewrite Hw.
Qed.

(** A promise a worker awaits may settle in any way: the transition is
    enabled whatever the outcome. *)
Lemma settle_enabled a i k at_ r :
  workers a !! i = Some (Awaiting k at_) → is_Some (step (SettleWorker i r) a).
Proof.
  intros Hw. simpl. rewrite Hw.
  destruct (tryResume (Pool i) k at_ r a) as [a1 [at'|]]; eauto.
Qed.

(** Along any schedule, the transitions of the pool are bounded by the work
    the pool had at the start. *)
Lemma run_bound image acts : ∀ a a',
  truthy image = true → SessionInv image a → run acts a = Some a' →
  (poolWork a' + length (filter (λ act, isPoolAction act = true) acts) ≤ poolWork a)%nat.
Proof.
  induction acts as [|act acts IH]; intros a a' Ht Hinv Hrun; simpl in Hrun.
  - injection Hrun as <-. simpl. lia.
  - destruct (step act a) as [a1|] eqn:Hstep; [|discriminate].
    pose proof (SessionInv_step _ _ _ _ Ht Hinv Hstep) as Hinv1.
    specialize (IH _ _ Ht Hinv1 Hrun).
    pose proof (session_pool _ _ Hinv) as HP.
    destruct (isPoolAction act) eqn:Hact.
    + assert (poolWork a1 < poolWork a).
      { eapply poolWork_PoolMove, step_PoolMove; [apply HP| |done|done].
        intros k. by apply (PoolInv_queue_keys image). }
      rewrite filter_cons_True by done. simpl. lia.
    + assert (poolWork a1 = poolWork a).
      { eapply poolWork_RerunMove, step_RerunMove; [done|apply HP|done|done]. }
      rewrite filter_cons_False by congruence. lia.
Qed.

Lemma run_reachable image acts : ∀ a a',
  reachable image a → run acts a = Some a' → reachable image a'.
Proof.
  induction acts as [|act acts IH]; intros a a' Hr Hrun; simpl in Hrun.
  - by injection Hrun as <-.
  - destruct (step act a) as [a1|] eqn:Hstep; [|discriminate].
    eapply IH; [|done]. by eapply reachable_step.
Qed.

Lemma poolWork_click image :
  truthy image = true → poolWork (handleGenerateClick (afterCrop image)) = 28.
Proof. intros Ht. by rewrite handleGenerateClick_afterCrop. Qed.

Lemma weight_Returned ws :
  Forall (λ w, w = Returned) ws → sum_list (workerWeight <$> ws) = 0.
Proof. induction 1 as [|w ws -> _ IH]; [done|]. by rewrite fmap_cons. Qed.

(** Once the signal has fired the pool has no work left, and conversely. *)
Lemma poolWork_fired image a :
  SessionInv image a → (awaitingAll a = false ↔ poolWork a = 0).
Proof.
  intros [HP HM HT HS]. unfold poolWork. split.
  - intros Hf. destruct (shown_fired _ HS Hf) as (_ & Hall & -> & _).
    rewrite Hf, weight_Returned by done. done.
  - destruct (awaitingAll a); [intros; lia|done].
Qed.

(** * Sessions as schedules *)

Lemma session_reachable image acts a : session image acts = Some a → reachable image a.
Proof. apply run_reachable. constructor. Qed.

Lemma session_SessionInv image acts a :
  truthy image = true → session image acts = Some a → SessionInv image a.
Proof. intros Ht Hs. by eapply reachable_SessionInv, session_reachable. Qed.

Lemma length_awaited ws : length (awaited ws) ≤ length ws.
Proof.
  induction ws as [|w ws IH]; [done|].
  rewrite awaited_cons, length_app. destruct w; simpl; lia.
Qed.

Lemma entered_NoDup image a : PoolInv image a → NoDup (omap entered (trace a)).
Proof.
  intros HP. pose proof STYLE_KEYS_NoDup as Hn.
  rewrite <- (pool_queue _ _ HP) in Hn. by apply NoDup_app in Hn as [? _].
Qed.

Lemma settled_elem (l : list Event) k :
  k ∈ omap settled l → ∃ i prev next, SetImage (Pool i) k prev next ∈ l.
Proof.
  intros (e & He & Hk)%list_elem_of_omap.
  destruct e as [| | | |[i|] k' prev next|]; try discriminate.
  injection Hk as ->. eauto.
Qed.

(** * The claims about handleGenerateClick *)

(** C1.  In every interleaving of a call of handleGenerateClick, the keys
    leave the queue from its front in the order of STYLE_KEYS, each straight
    into processStyle; no key enters processStyle twice, whichever the
    workers; each entry calls generateStyledImage once, and addWatermark is
    called at most once per key and only for a key that entered; once the
    call is over the queue is empty and every key has entered, so none was
    skipped. *)
Theorem each_key_processed_once image acts a :
  truthy image = true → session image acts = Some a →
  omap entered (trace a) ++ stylesQueue a = STYLE_KEYS
  ∧ (∀ before after i k,
       trace a = before ++ EnterProcessStyle i k :: after →
       (k ∉ omap entered before) ∧ (k ∉ omap entered after) ∧ (k ∉ stylesQueue a))
  ∧ omap generateCalled (trace a) = omap entered (trace a)
  ∧ NoDup (omap watermarkCalled (trace a))
  ∧ omap watermarkCalled (trace a) ⊆ omap entered (trace a)
  ∧ (awaitingAll a = false → stylesQueue a = [] ∧ omap entered (trace a) = STYLE_KEYS).
Proof.
  intros Ht Hs. destruct (session_SessionInv _ _ _ Ht Hs) as [HP HM HT HS].
  assert (Hsub : omap watermarkCalled (trace a) ⊆+ omap entered (trace a)).
  { etrans; [|apply (pool_watermark _ _ HP)]. by apply submseteq_inserts_r. }
  pose proof (entered_NoDup _ _ HP) as Hnd.
  split; [apply HP|]. split; [|split; [apply HP|split; [|split]]].
  - intros before after i k Heq.
    pose proof STYLE_KEYS_NoDup as Hn. rewrite <- (pool_queue _ _ HP) in Hn.
    apply NoDup_app in Hn as (_ & Hq & _).
    rewrite Heq, omap_app in Hnd, Hq. simpl in Hnd, Hq.
    apply NoDup_app in Hnd as (_ & Hb & Ha). apply NoDup_cons in Ha as [Ha _].
    split; [|split; [done|]].
    + intros Hin. apply (Hb _ Hin). left.
    + apply Hq. rewrite elem_of_app. right. left.
  - destruct (submseteq_Permutation _ _ Hsub) as [rest Hrest].
    rewrite Hrest in Hnd. by apply NoDup_app in Hnd as [? _].
  - intros k Hk. by eapply elem_of_submseteq.
  - intros Hf. destruct (shown_fired _ HS Hf) as (_ & _ & Hq & _). split; [done|].
    pose proof (pool_queue _ _ HP) as Hk. by rewrite Hq, app_nil_r in Hk.
Qed.

Lemma exampleEnd_session : session exampleImage exampleSchedule = Some exampleEnd.
Proof. vm_compute. reflexivity. Qed.

Lemma exampleMiddle_session :
  session exampleImage (take 21 exampleSchedule) = Some exampleMiddle.
Proof. vm_compute. reflexivity. Qed.

Lemma each_key_processed_once_witness :
  session exampleImage exampleSchedule = Some exampleEnd
  ∧ awaitingAll exampleEnd = false
  ∧ stylesQueue exampleEnd = []
  ∧ omap entered (trace exampleEnd) = STYLE_KEYS
  ∧ omap generateCalled (trace exampleEnd) = STYLE_KEYS
  ∧ NoDup (omap watermarkCalled (trace exampleEnd)).
Proof.
  destruct (each_key_processed_once exampleImage exampleSchedule exampleEnd)
    as (_ & _ & Hg & Hw & _ & Hend); [reflexivity|vm_compute; reflexivity|].
  destruct Hend as [Hq He]; [vm_compute; reflexivity|].
  split; [vm_compute; reflexivity|]. split; [vm_compute; reflexivity|].
  split; [exact Hq|]. split; [exact He|]. split; [|exact Hw].
  rewrite Hg. exact He.
Defined.

(** C2.  In every interleaving, the work functions of the pool that have
    been entered and have not finished are those the workers await, at most
    one per worker, so never more than the concurrency limit, which is 3. *)
Theorem at_most_three_executing image acts a :
  truthy image = true → session image acts = Some a →
  executing a = length (awaited (workers a))
  ∧ executing a ≤ concurrencyLimit
  ∧ concurrencyLimit = 3.
Proof.
  intros Ht Hs. destruct (session_SessionInv _ _ _ Ht Hs) as [HP HM HT HS].
  assert (He : executing a = length (awaited (workers a))).
  { unfold executing. rewrite (pool_running _ _ HP), length_app. lia. }
  split; [done|]. split; [|done].
  rewrite He, <- (pool_size _ _ HP). apply length_awaited.
Qed.

Lemma at_most_three_executing_witness :
  session exampleImage (take 21 exampleSchedule) = Some exampleMiddle
  ∧ executing exampleMiddle = 3
  ∧ executing exampleMiddle ≤ concurrencyLimit.
Proof.
  destruct (at_most_three_executing exampleImage (take 21 exampleSchedule) exampleMiddle)
    as (_ & Hle & _); [reflexivity|vm_compute; reflexivity|].
  split; [vm_compute; reflexivity|]. split; [vm_compute; reflexivity|exact Hle].
Defined.

Lemma weight_idle ws : awaited ws = [] → sum_list (workerWeight <$> ws) ≤ length ws.
Proof.
  induction ws as [|w ws IH]; [done|].
  rewrite awaited_cons, fmap_cons. intros [Hw Hws]%app_eq_nil. specialize (IH Hws).
  destruct w; simpl in *; try discriminate; lia.
Qed.

Lemma all_settled_idle image a :
  PoolInv image a → omap settled (trace a) ≡ₚ STYLE_KEYS →
  awaited (workers a) = [] ∧ stylesQueue a = [].
Proof.
  intros HP Hall.
  pose proof (f_equal length (pool_queue _ _ HP)) as Hq.
  pose proof (Permutation_length (pool_running _ _ HP)) as Hr.
  pose proof (Permutation_length Hall) as Hs.
  rewrite length_app in Hq, Hr.
  split; apply length_zero_iff_nil; lia.
Qed.

(** C3.  In every interleaving of a call of handleGenerateClick: the
    completion (the code after [await Promise.all(workers)], which sets
    appState to 'results-shown') occurs at most once; when it occurs, every
    key of STYLE_KEYS has before it an update by a worker of the pool to a
    terminal status; it has occurred exactly when appState is 'results-shown';
    from then on every entry of the mapping is terminal unless a re-run of
    its key is in flight.  It does occur: until it has, a transition of the
    pool is enabled, the pool's transitions in the schedule and the work left
    are bounded by the work at the start (28), no work is left exactly when
    it has occurred, and once every key is settled at most four transitions
    remain, none of which waits for an external promise. *)
Theorem completion_after_all_terminal image acts a :
  truthy image = true → session image acts = Some a →
  (∀ before after, trace a = before ++ ShowResults :: after →
     (ShowResults ∉ before) ∧ (ShowResults ∉ after)
     ∧ ∀ k, k ∈ STYLE_KEYS →
         ∃ i prev next, SetImage (Pool i) k prev next ∈ before
                        ∧ isTerminal (status next) = true)
  ∧ (ShowResults ∈ trace a ↔ appState a = results_shown)
  ∧ (ShowResults ∈ trace a ↔ awaitingAll a = false)
  ∧ (awaitingAll a = false →
       ∀ k, k ∈ STYLE_KEYS →
         ∃ g, generatedImages a !! k = Some g
              ∧ (isTerminal (status g) = true ∨ k ∈ (regenerations a).*1))
  ∧ (awaitingAll a = true → ∃ act a', isPoolAction act = true ∧ step act a = Some a')
  ∧ poolWork a + length (filter (λ act, isPoolAction act = true) acts) ≤ 28
  ∧ (poolWork a = 0 ↔ awaitingAll a = false)
  ∧ (omap settled (trace a) ≡ₚ STYLE_KEYS →
       poolWork a ≤ 4 ∧ awaited (workers a) = [] ∧ stylesQueue a = []).
Proof.
  intros Ht Hs. pose proof (session_SessionInv _ _ _ Ht Hs) as Hinv.
  destruct Hinv as [HP HM HT HS].
  assert (Hfired : ShowResults ∈ trace a ↔ awaitingAll a = false).
  { split.
    - intros Hin. destruct (awaitingAll a) eqn:Hp; [|done].
      by destruct (shown_parked _ HS Hp) as [_ Hno].
    - intros Hf. by destruct (shown_fired _ HS Hf) as (_ & _ & _ & ?). }
  split; [|split; [|split; [done|split; [|split; [|split; [|split]]]]]].
  - intros before after Heq. destruct (shown_after _ HS _ _ Heq) as (Hall & Hb & Ha).
    split; [done|]. split; [done|]. intros k Hk. rewrite <- Hall in Hk.
    destruct (settled_elem _ _ Hk) as (i & prev & next & Hin).
    exists i, prev, next. split; [done|].
    assert (Hl : legal (SetImage (Pool i) k prev next)).
    { apply (proj1 (Forall_forall _ _) (trace_legal _ HT)).
      rewrite Heq, elem_of_app. by left. }
    apply Hl.
  - rewrite Hfired. split.
    + intros Hf. by destruct (shown_fired _ HS Hf) as (? & _).
    + intros Hst. destruct (awaitingAll a) eqn:Hp; [|done].
      destruct (shown_parked _ HS Hp) as [Hg _]. congruence.
  - intros Hf k Hk. destruct (shown_fired _ HS Hf) as (_ & Hall & Hq & _).
    destruct (proj2 (map_keys _ HM k) Hk) as [g Hg]. exists g. split; [done|].
    destruct (isPending (generatedImages a !! k)) eqn:Hp.
    + right. apply (map_pending _ HM) in Hp. unfold inFlight in Hp.
      rewrite Hq, awaited_Returned in Hp by done. done.
    + left. rewrite Hg in Hp. by apply not_pending_terminal.
  - by apply (pool_progress image).
  - rewrite <- (poolWork_click image Ht). eapply run_bound; [done| |exact Hs].
    apply reachable_SessionInv; [done|constructor].
  - symmetry. by apply (poolWork_fired image).
  - intros Hall. destruct (all_settled_idle _ _ HP Hall) as [Ha Hq].
    split; [|done]. unfold poolWork. rewrite Hq. simpl.
    pose proof (weight_idle _ Ha). pose proof (pool_size _ _ HP) as Hn.
    unfold concurrencyLimit in Hn. destruct (awaitingAll a); lia.
Qed.

Lemma completion_after_all_terminal_witness :
  session exampleImage exampleSchedule = Some exampleEnd
  ∧ appState exampleEnd = results_shown
  ∧ ShowResults ∈ trace exampleEnd
  ∧ poolWork exampleEnd = 0
  ∧ ∀ k, k ∈ STYLE_KEYS →
      ∃ g, generatedImages exampleEnd !! k = Some g
           ∧ (isTerminal (status g) = true ∨ k ∈ (regenerations exampleEnd).*1).
Proof.
  destruct (completion_after_all_terminal exampleImage exampleSchedule exampleEnd)
    as (_ & Hshown & Hfired & Hmap & _ & _ & Hwork & _);
    [reflexivity|vm_compute; reflexivity|].
  split; [vm_compute; reflexivity|].
  split; [apply Hshown, Hfired; vm_compute; reflexivity|].
  split; [apply Hfired; vm_compute; reflexivity|].
  split; [apply Hwork; vm_compute; reflexivity|].
  apply Hmap. vm_compute. reflexivity.
Defined.

Lemma run_app acts1 acts2 a :
  run (acts1 ++ acts2) a = run acts1 a ≫= run acts2.
Proof.
  revert a. induction acts1 as [|act acts1 IH]; intros a; simpl; [done|].
  destruct (step act a); [apply IH|done].
Qed.





(** * The claims about handleRegenerateStyle and the entries *)

(** C5.  handleRegenerateStyle on a key whose entry is pending returns at its
    guard: the whole state is unchanged, so the entry stays pending, no other
    entry changes, no activation is added, and the trace gets no call of
    generateStyledImage or addWatermark; the same holds of the click as a
    transition. *)
Theorem regenerate_pending_is_noop (a : App) (styleKey : string) :
  isPending (generatedImages a !! styleKey) = true →
  handleRegenerateStyle styleKey a = a
  ∧ isPending (generatedImages (handleRegenerateStyle styleKey a) !! styleKey) = true
  ∧ generatedImages (handleRegenerateStyle styleKey a) = generatedImages a
  ∧ regenerations (handleRegenerateStyle styleKey a) = regenerations a
  ∧ trace (handleRegenerateStyle styleKey a) = trace a
  ∧ ∀ a', step (ClickRegenerate styleKey) a = Some a' → a' = a.
Proof.
  intros Hp.
  assert (Heq : handleRegenerateStyle styleKey a = a).
  { unfold handleRegenerateStyle. rewrite Hp.
    destruct (croppedImageForDisplay a) as [image|]; [|done]. by destruct (truthy image). }
  rewrite Heq. repeat split; try done.
  intros a'. simpl. rewrite Heq. destruct (_ && _); congruence.
Qed.

Lemma regenerate_pending_is_noop_witness :
  isPending (generatedImages exampleMiddle !! "anime") = true
  ∧ handleRegenerateStyle "anime" exampleMiddle = exampleMiddle.
Proof.
  split; [vm_compute; reflexivity|].
  destruct (regenerate_pending_is_noop exampleMiddle "anime") as [Hsame _];
    [vm_compute; reflexivity|exact Hsame].
Defined.

Lemma step_rerun_settles a j k at_ r :
  regenerations a !! j = Some (k, at_) →
  step (SettleRegeneration j r) a
  = Some match tryResume Rerun k at_ r a with
         | (a1, Some at') => setRegenerations (<[j := (k, at')]> (regenerations a1)) a1
         | (a1, None) => setRegenerations (delete j (regenerations a1)) a1
         end.
Proof.
  intros Hj. simpl. rewrite Hj. by destruct (tryResume Rerun k at_ r a) as [a1 [at'|]].
Qed.

Lemma rerun_key_once a j k at_ :
  MapInv a → regenerations a !! j = Some (k, at_) → k ∉ (delete j (regenerations a)).*1.
Proof.
  intros HM Hj. pose proof (map_nodup _ HM) as Hn. unfold inFlight in Hn.
  apply NoDup_app in Hn as (_ & _ & Hn). apply NoDup_app in Hn as (_ & _ & Hn).
  pose proof (fmap_Permutation fst _ _ (delete_Permutation _ _ _ Hj)) as Hd.
  rewrite Hd in Hn. simpl in Hn. by apply NoDup_cons in Hn as [? _].
Qed.

Lemma wellFormed_clauses g :
  wellFormed g →
  (status g = Done → is_Some (url g))
  ∧ (status g = Error → is_Some (error g))
  ∧ (status g = Pending → url g = None ∧ error g = None)
  ∧ ¬ (is_Some (url g) ∧ is_Some (error g)).
Proof.
  unfold wellFormed. destruct g as [[] u e]; simpl; intros [H1 H2]; subst;
    repeat split; try done; intros [[? ?] [? ?]]; discriminate.
Qed.

(** C10.  In every interleaving, every entry written into the mapping, by
    the initialisation, by a worker or by handleRegenerateStyle, and every
    entry the mapping holds, has a url when its status is done, an error
    reason when its status is error, neither when it is pending, and never
    both. *)
Theorem written_entries_are_well_formed image acts a :
  truthy image = true → session image acts = Some a →
  (∀ e g, e ∈ trace a → g ∈ written e →
     (status g = Done → is_Some (url g))
     ∧ (status g = Error → is_Some (error g))
     ∧ (status g = Pending → url g = None ∧ error g = None)
     ∧ ¬ (is_Some (url g) ∧ is_Some (error g)))
  ∧ (∀ k g, generatedImages a !! k = Some g →
       (status g = Done → is_Some (url g))
       ∧ (status g = Error → is_Some (error g))
       ∧ (status g = Pending → url g = None ∧ error g = None)
       ∧ ¬ (is_Some (url g) ∧ is_Some (error g))).
Proof.
  intros Ht Hs. destruct (session_SessionInv _ _ _ Ht Hs) as [HP HM HT HS]. split.
  - intros e g He Hg. apply wellFormed_clauses.
    pose proof (proj1 (Forall_forall _ _) (trace_written _ HT) _ He) as Hw.
    exact (proj1 (Forall_forall _ _) Hw _ Hg).
  - intros k g Hg. apply wellFormed_clauses. by eapply (map_wf _ HM).
Qed.

Lemma written_entries_are_well_formed_witness :
  session exampleImage exampleSchedule = Some exampleEnd
  ∧ generatedImages exampleEnd !! "anime" = Some (errorImage "An unknown error occurred.")
  ∧ ∀ k g, generatedImages exampleEnd !! k = Some g →
      (status g = Done → is_Some (url g))
      ∧ (status g = Error → is_Some (error g))
      ∧ (status g = Pending → url g = None ∧ error g = None)
      ∧ ¬ (is_Some (url g) ∧ is_Some (error g)).
Proof.
  split; [vm_compute; reflexivity|]. split; [vm_compute; reflexivity|].
  apply (written_entries_are_well_formed exampleImage exampleSchedule exampleEnd);
    [reflexivity|vm_compute; reflexivity].
Defined.

(** * handleDownloadAlbum *)

Lemma lookupName_spec : Forall (λ p, lookupName STYLES (name p.2) = Some p.1) STYLES.
Proof. repeat (constructor; [reflexivity|]). constructor. Qed.

(** Two keys with the same style name are the same key. *)
Lemma name_inj k k' st st' :
  lookupStyle STYLES k = Some st → lookupStyle STYLES k' = Some st' →
  name st = name st' → k = k'.
Proof.
  intros H%lookupStyle_elem H'%lookupStyle_elem Hn.
  pose proof (proj1 (Forall_forall _ _) lookupName_spec _ H) as E.
  pose proof (proj1 (Forall_forall _ _) lookupName_spec _ H') as E'.
  cbn [fst snd] in E, E'. rewrite Hn in E. congruence.
Qed.

Lemma lookupStyle_name k st : lookupStyle STYLES k = Some st → name st ∈ STYLE_NAMES.
Proof.
  intros H%lookupStyle_elem. unfold STYLE_NAMES.
  apply list_elem_of_fmap. exists st. split; [done|].
  apply list_elem_of_fmap. by exists (k, st).
Qed.

Lemma foldl_addToAlbum_thrown entries err :
  foldl addToAlbum (inl err) entries = inl err.
Proof. induction entries as [|entry entries IH]; [done|]. simpl. apply IH. Qed.

Lemma addToAlbum_entry acc k g :
  addToAlbum (inr acc) (k, g)
  = match lookupStyle STYLES k with
    | None => inl (ErrorObject "Cannot read properties of undefined (reading 'name')")
    | Some st => inr (<[name st := url g]> acc)
    end.
Proof. reflexivity. Qed.

(** Every key of the reduced object is the name of the style of an entry. *)
Lemma foldl_addToAlbum_keys entries : ∀ acc imageData n,
  foldl addToAlbum (inr acc) entries = inr imageData → is_Some (imageData !! n) →
  is_Some (acc !! n)
  ∨ ∃ k g st, (k, g) ∈ entries ∧ lookupStyle STYLES k = Some st ∧ name st = n.
Proof.
  induction entries as [|[k g] entries IH]; intros acc imageData n Hfold Hn;
    cbn [foldl] in Hfold.
  - injection Hfold as <-. by left.
  - rewrite addToAlbum_entry in Hfold.
    destruct (lookupStyle STYLES k) as [st|] eqn:Hst.
    + destruct (IH _ _ _ Hfold Hn) as [Hacc|(k' & g' & st' & Hin & Hst' & Hname)].
      * destruct (decide (name st = n)) as [<-|Hne].
        -- right. exists k, g, st. split; [left|done].
        -- left. by rewrite lookup_insert_ne in Hacc.
      * right. exists k', g', st'. split; [by right|done].
    + by rewrite foldl_addToAlbum_thrown in Hfold.
Qed.

Lemma STYLE_NAMES_size : size (list_to_set STYLE_NAMES : gset string) = length STYLE_KEYS.
Proof. vm_compute. reflexivity. Qed.

(** If the reduction ends with as many keys as there are styles, every style
    key has an entry that passed the filter. *)
Lemma album_complete (gi : gmap string GeneratedImage) imageData :
  foldl addToAlbum (inr ∅)
    (filter (λ entry, doneWithUrl entry.2 = true) (map_to_list gi)) = inr imageData →
  ¬ size imageData < length STYLE_KEYS →
  ∀ k, k ∈ STYLE_KEYS → ∃ g, gi !! k = Some g ∧ doneWithUrl g = true.
Proof.
  intros Hfold Hsize k Hk.
  assert (Hsub : dom imageData ⊆ (list_to_set STYLE_NAMES : gset string)).
  { intros n Hn%elem_of_dom.
    destruct (foldl_addToAlbum_keys _ _ _ _ Hfold Hn) as [He|(k' & g & st & _ & Hst & <-)].
    - rewrite lookup_empty in He. by destruct He.
    - apply elem_of_list_to_set. by eapply lookupStyle_name. }
  assert (Heq : dom imageData = list_to_set STYLE_NAMES).
  { apply set_subseteq_size_eq; [done|]. rewrite STYLE_NAMES_size, size_dom. lia. }
  destruct (STYLE_KEYS_known k Hk) as [st Hst].
  assert (Hn : is_Some (imageData !! name st)).
  { apply elem_of_dom. rewrite Heq. apply elem_of_list_to_set. by eapply lookupStyle_name. }
  destruct (foldl_addToAlbum_keys _ _ _ _ Hfold Hn) as [He|(k' & g & st' & Hin & Hst' & Hname)].
  - rewrite lookup_empty in He. by destruct He.
  - assert (k' = k) as -> by by eapply name_inj.
    apply list_elem_of_filter in Hin as [Hdone Hin]. simpl in Hdone.
    apply elem_of_map_to_list in Hin. eauto.
Qed.

(** Every entry that passes the filter leaves the name of its style in the
    reduced object. *)
Lemma foldl_addToAlbum_has entries : ∀ acc imageData n,
  foldl addToAlbum (inr acc) entries = inr imageData →
  is_Some (acc !! n)
  ∨ (∃ k g st, (k, g) ∈ entries ∧ lookupStyle STYLES k = Some st ∧ name st = n) →
  is_Some (imageData !! n).
Proof.
  induction entries as [|[k g] entries IH]; intros acc imageData n Hfold Hn;
    cbn [foldl] in Hfold.
  - injection Hfold as <-. destruct Hn as [?|(k & g & st & Hin & _)]; [done|].
    by apply elem_of_nil in Hin.
  - rewrite addToAlbum_entry in Hfold.
    destruct (lookupStyle STYLES k) as [st|] eqn:Hst;
      [|by rewrite foldl_addToAlbum_thrown in Hfold].
    apply (IH _ _ _ Hfold).
    destruct Hn as [Hacc|(k' & g' & st' & Hin & Hst' & Hname)].
    + left. destruct (decide (name st = n)) as [->|Hne].
      * rewrite lookup_insert_eq. eauto.
      * by rewrite lookup_insert_ne.
    + apply elem_of_cons in Hin as [[= -> ->]|Hin].
      * left. assert (st' = st) as -> by congruence. rewrite Hname, lookup_insert_eq. eauto.
      * right. eauto 10.
Qed.

(** On a mapping whose keys are style keys the reduction does not throw. *)
Lemma foldl_addToAlbum_returns entries : ∀ acc,
  (∀ k g, (k, g) ∈ entries → k ∈ STYLE_KEYS) →
  ∃ imageData, foldl addToAlbum (inr acc) entries = inr imageData.
Proof.
  induction entries as [|[k g] entries IH]; intros acc Hin; cbn [foldl]; [eauto|].
  rewrite addToAlbum_entry.
  destruct (STYLE_KEYS_known k) as [st ->]; [apply (Hin k g); left|].
  apply IH. intros k' g' ?. apply (Hin k' g'). by right.
Qed.

Lemma album_reduction (gi : gmap string GeneratedImage) :
  dom gi ⊆ list_to_set STYLE_KEYS →
  ∃ imageData,
    foldl addToAlbum (inr ∅)
      (filter (λ entry, doneWithUrl entry.2 = true) (map_to_list gi)) = inr imageData.
Proof.
  intros Hkeys. apply foldl_addToAlbum_returns.
  intros k g [_ Hin%elem_of_map_to_list]%list_elem_of_filter.
  apply (elem_of_list_to_set (C := gset string)), Hkeys, elem_of_dom. eauto.
Qed.

(** The mapping of a session has the style keys as its keys. *)
Lemma session_keys image acts a :
  truthy image = true → session image acts = Some a →
  dom (generatedImages a) = list_to_set STYLE_KEYS.
Proof.
  intros Ht Hs. destruct (session_SessionInv _ _ _ Ht Hs) as [_ HM _ _].
  apply set_eq. intros k. rewrite elem_of_dom, elem_of_list_to_set. apply (map_keys _ HM).
Qed.

(** C7.  On a mapping whose keys are style keys, as the handlers keep it: if
    some style key has no entry, or an entry that is not done with a
    non-empty url, handleDownloadAlbum shows the alert asking to wait and
    stops; its effects are that alert between the two updates of
    isDownloading, and createAlbumPage is not called. *)
Theorem album_refused_unless_every_style_done (gi : gmap string GeneratedImage) k :
  dom gi ⊆ list_to_set STYLE_KEYS →
  k ∈ STYLE_KEYS → from_option doneWithUrl false (gi !! k) = false →
  handleDownloadAlbum gi
  = [SetIsDownloading true; AlertMessage waitMessage; SetIsDownloading false]
  ∧ ∀ imageData, CallCreateAlbumPage imageData ∉ handleDownloadAlbum gi.
Proof.
  intros Hkeys Hk Hnot. destruct (album_reduction gi Hkeys) as [imageData Hfold].
  assert (Hlt : size imageData < length STYLE_KEYS).
  { destruct (decide (size imageData < length STYLE_KEYS)) as [|Hge]; [done|].
    destruct (album_complete _ _ Hfold Hge k Hk) as (g & Hg & Hdone).
    rewrite Hg in Hnot. simpl in Hnot. congruence. }
  unfold handleDownloadAlbum. rewrite Hfold, bool_decide_eq_true_2 by done.
  split; [done|].
  intros d. rewrite !elem_of_cons, elem_of_nil. intros [?|[?|[?|[]]]]; discriminate.
Qed.

Lemma album_refused_unless_every_style_done_witness :
  generatedImages exampleEnd !! "anime" = Some (errorImage "An unknown error occurred.")
  ∧ handleDownloadAlbum (generatedImages exampleEnd)
    = [SetIsDownloading true; AlertMessage waitMessage; SetIsDownloading false]
  ∧ ∀ imageData,
      CallCreateAlbumPage imageData ∉ handleDownloadAlbum (generatedImages exampleEnd).
Proof.
  split; [vm_compute; reflexivity|].
  apply (album_refused_unless_every_style_done (generatedImages exampleEnd) "anime").
  - apply (bool_decide_unpack _). vm_compute. exact I.
  - apply (bool_decide_unpack _). vm_compute. exact I.
  - vm_compute. reflexivity.
Defined.

(** Conversely, when every style key is done with a non-empty url the album
    is composed, from an object that has every style name. *)
Lemma album_composed_when_every_style_done (gi : gmap string GeneratedImage) :
  dom gi ⊆ list_to_set STYLE_KEYS →
  (∀ k, k ∈ STYLE_KEYS → from_option doneWithUrl false (gi !! k) = true) →
  ∃ imageData,
    handleDownloadAlbum gi = [SetIsDownloading true; CallCreateAlbumPage imageData]
    ∧ ∀ k st, lookupStyle STYLES k = Some st → is_Some (imageData !! name st).
Proof.
  intros Hkeys Hall. destruct (album_reduction gi Hkeys) as [imageData Hfold].
  assert (Hhas : ∀ k st, lookupStyle STYLES k = Some st → is_Some (imageData !! name st)).
  { intros k st Hst. apply (foldl_addToAlbum_has _ _ _ _ Hfold). right.
    specialize (Hall k (lookupStyle_key _ _ Hst)).
    destruct (gi !! k) as [g|] eqn:Hg; [|done]. simpl in Hall.
    exists k, g, st. split; [|done].
    apply list_elem_of_filter. split; [done|]. by apply elem_of_map_to_list. }
  exists imageData. split; [|done].
  unfold handleDownloadAlbum. rewrite Hfold.
  rewrite bool_decide_eq_false_2; [done|].
  assert (Hsub : (list_to_set STYLE_NAMES : gset string) ⊆ dom imageData).
  { intros n Hn%elem_of_list_to_set. apply elem_of_dom. unfold STYLE_NAMES in Hn.
    apply list_elem_of_fmap in Hn as (st & -> & Hst).
    apply list_elem_of_fmap in Hst as ([k st'] & -> & Hin). simpl.
    apply (Hhas k). by apply lookupStyle_complete; [apply STYLE_KEYS_NoDup|]. }
  apply subseteq_size in Hsub. rewrite STYLE_NAMES_size, size_dom in Hsub. lia.
Qed.

Example album_of_every_style :
  ∃ imageData,
    handleDownloadAlbum everyStyleDone = [SetIsDownloading true; CallCreateAlbumPage imageData]
    ∧ size imageData = 9
    ∧ imageData !! "Pastel Pop" = Some (Some "wm:vaporwave").
Proof. eexists. split; [vm_compute; reflexivity|]. split; vm_compute; reflexivity. Qed.

(** * The representation of an entry *)

(** C8, as stated, fails: GeneratedImage is a record of a status and two
    optional fields, and a pending value holding both a url and an error
    reason is a value of the type. *)
Lemma GeneratedImage_admits_illegal_state :
  status pendingWithBoth = Pending
  ∧ url pendingWithBoth = Some "blob:result"
  ∧ error pendingWithBoth = Some "quota exceeded"
  ∧ toJobStatus pendingWithBoth = None
  ∧ (wellFormed pendingWithBoth → False).
Proof.
  repeat split; try reflexivity. unfold wellFormed. simpl. intros [? _]. discriminate.
Qed.

(** C8, amended.  The type is the record; the sum type with a payload in the
    terminal variants only corresponds one to one to the well-formed records,
    and the three forms of entry the handlers build are its images. *)
Theorem well_formed_entries_are_the_sum_type :
  (∀ j, wellFormed (ofJobStatus j) ∧ toJobStatus (ofJobStatus j) = Some j)
  ∧ (∀ g j, toJobStatus g = Some j → g = ofJobStatus j)
  ∧ (∀ g, wellFormed g ↔ ∃ j, g = ofJobStatus j)
  ∧ pendingImage = ofJobStatus JobPending
  ∧ (∀ watermarkedUrl, doneImage watermarkedUrl = ofJobStatus (JobDone watermarkedUrl))
  ∧ (∀ message, errorImage message = ofJobStatus (JobError message)).
Proof.
  split; [|split; [|split]].
  - intros [|result|reason]; unfold wellFormed; simpl; eauto.
  - intros [[] [u|] [e|]] j; simpl; intros [= <-]; reflexivity.
  - intros g. split.
    + unfold wellFormed. destruct g as [[] u e]; simpl.
      * intros [-> ->]. by exists JobPending.
      * intros [[v ->] ->]. by exists (JobDone v).
      * intros [-> [m ->]]. by exists (JobError m).
    + intros [[|result|reason] ->]; unfold wellFormed; simpl; eauto.
  - done.
Qed.

(** * addWatermark *)

(** C9, as stated, fails: the image loads, and addWatermark rejects, because
    the canvas gives no 2D context. *)
Lemma addWatermark_rejects_valid_image :
  loadImage browserWithoutContext validImageUrl
  = inr {| src := validImageUrl;
           naturalWidth := Uint63.of_Z 1000;
           naturalHeight := Uint63.of_Z 800 |}
  ∧ addWatermark browserWithoutContext validImageUrl
    = RejectedWith (ErrorObject "Could not get 2D canvas context").
Proof. split; reflexivity. Qed.

(** C9, amended.  For an image that loads, addWatermark is fulfilled exactly
    when the canvas gives a 2D context, and rejected with "Could not get 2D
    canvas context" otherwise.  When fulfilled, its value is the JPEG export,
    at quality 0.9, of a canvas of the image's natural size on which the image
    was drawn at the origin and then the text 'psule.app', aligned right and
    bottom, at [padding] from the right and bottom edges, where [padding] is
    the larger of 20 and 2% of the width. *)
Theorem addWatermark_on_valid_image (b : Browser) (imageUrl : string) w h :
  decodeImage b imageUrl = Some (w, h) →
  let img := {| src := imageUrl; naturalWidth := w; naturalHeight := h |} in
  (hasContext2d b w h = true →
     addWatermark b imageUrl
     = Fulfilled
         (toDataURL b
            {| width := w;
               height := h;
               drawings :=
                 [DrawImage img 0 0;
                  FillText "psule.app"
                    (PrimFloat.of_uint63 w - padding w)
                    (PrimFloat.of_uint63 h - padding w)
                    (watermarkContext w)] |}
            "image/jpeg" 0.9))
  ∧ (hasContext2d b w h = false →
       addWatermark b imageUrl
       = RejectedWith (ErrorObject "Could not get 2D canvas context"))
  ∧ textAlign (watermarkContext w) = "right"
  ∧ textBaseline (watermarkContext w) = "bottom"
  ∧ padding w = Math_max 20 (PrimFloat.of_uint63 w * 0.02).
Proof.
  intros Hload img. unfold addWatermark, loadImage. rewrite Hload. simpl.
  repeat split; by intros ->.
Qed.

Lemma addWatermark_on_valid_image_witness :
  decodeImage browserWithContext validImageUrl = Some (Uint63.of_Z 1000, Uint63.of_Z 800)
  ∧ hasContext2d browserWithContext (Uint63.of_Z 1000) (Uint63.of_Z 800) = true
  ∧ addWatermark browserWithContext validImageUrl = Fulfilled "data:image/jpeg;base64,/9j/"
  ∧ drawings
      (watermarked {| src := validImageUrl;
                      naturalWidth := Uint63.of_Z 1000;
                      naturalHeight := Uint63.of_Z 800 |})
    = [DrawImage {| src := validImageUrl;
                    naturalWidth := Uint63.of_Z 1000;
                    naturalHeight := Uint63.of_Z 800 |} 0 0;
       FillText "psule.app" 980 780 (watermarkContext (Uint63.of_Z 1000))].
Proof.
  destruct (addWatermark_on_valid_image browserWithContext validImageUrl
              (Uint63.of_Z 1000) (Uint63.of_Z 800))
    as (Hok & _); [reflexivity|].
  split; [reflexivity|]. split; [reflexivity|].
  split; [rewrite Hok by reflexivity; reflexivity|].
  vm_compute. reflexivity.
Defined.

(** An image that does not load: the promise of loadImage is rejected, and
    so is that of addWatermark. *)
Lemma addWatermark_on_broken_image (b : Browser) (imageUrl : string) :
  decodeImage b imageUrl = None →
  addWatermark b imageUrl
  = RejectedWith
      (ErrorObject ("Failed to load image: " +:+ String.substring 0 50 imageUrl +:+ "...")).
Proof. intros Hload. unfold addWatermark, loadImage. by rewrite Hload. Qed.

(** * What the claims leave out *)

(** ** The calls of generateStyledImage *)

Lemma STYLE_KEYS_prompts :
  Forall (λ k, (prompt <$> lookupStyle STYLES k) = Some (promptOf k)) STYLE_KEYS.
Proof. rewrite STYLE_KEYS_eq. repeat (constructor; [reflexivity|]). constructor. Qed.

Lemma ownPrompt_Move image a a' :
  Forall (ownPrompt image) (trace a) → Move image a a' → Forall (ownPrompt image) (trace a').
Proof.
  intros Ht Hm.
  destruct Hm as [[i Hwk Hnil|i k rest st Hwk Hcons Hst|i k v Hwk|i k at_ g Hwk Hfin|Hpark Hall]
                 |[|k st Hkin Hnp Hst|j k v Hj|j k at_ g Hj Hfin]];
    cbn [trace setWorker setWorkers record putImage setGeneratedImages setStylesQueue
         setAppState setAwaitingAll setRegenerations];
    rewrite ?Forall_app, ?Forall_singleton; cbn [ownPrompt]; repeat split; auto;
    by rewrite Hst.
Qed.

Lemma ownPrompt_click image :
  truthy image = true → Forall (ownPrompt image) (trace (handleGenerateClick (afterCrop image))).
Proof.
  intros Ht. rewrite handleGenerateClick_afterCrop by done. cbn [trace].
  pose proof STYLE_KEYS_prompts as Hp. rewrite STYLE_KEYS_eq in Hp.
  apply Forall_cons in Hp as [H1 Hp]. apply Forall_cons in Hp as [H2 Hp].
  apply Forall_cons in Hp as [H3 _].
  repeat (apply Forall_cons; split); try apply Forall_nil; cbn [ownPrompt]; auto.
Qed.

Lemma session_ownPrompt image acts : ∀ a,
  truthy image = true → session image acts = Some a → Forall (ownPrompt image) (trace a).
Proof.
  intros a Ht Hs. apply session_reachable in Hs.
  induction Hs as [|a act a' Hr IH Hstep]; [by apply ownPrompt_click|].
  pose proof (reachable_SessionInv _ _ Ht Hr) as Hinv.
  eapply ownPrompt_Move; [exact IH|].
  eapply step_Move; [done|apply Hinv| |done].
  intros k. apply (PoolInv_queue_keys image). apply Hinv.
Qed.

(** X1.  In every interleaving of a session, whoever calls
    generateStyledImage, a worker or a re-run, passes the cropped image the
    session started with and the prompt STYLES holds for the key the call is
    for, which is a style key. *)
Theorem generate_calls_pass_own_prompt image acts a :
  truthy image = true → session image acts = Some a →
  ∀ by_ styleKey image' prompt',
    CallGenerateStyledImage by_ styleKey image' prompt' ∈ trace a →
    image' = image
    ∧ (prompt <$> lookupStyle STYLES styleKey) = Some prompt'
    ∧ styleKey ∈ STYLE_KEYS.
Proof.
  intros Ht Hs by_ k image' prompt' Hin.
  pose proof (proj1 (Forall_forall _ _) (session_ownPrompt _ _ _ Ht Hs) _ Hin) as [Hi Hp].
  split; [done|]. split; [done|].
  destruct (lookupStyle STYLES k) as [st|] eqn:Hst; [|done]. by eapply lookupStyle_key.
Qed.

Lemma generate_calls_pass_own_prompt_witness :
  CallGenerateStyledImage Rerun "watercolor" exampleImage (promptOf "watercolor")
    ∈ trace exampleEnd
  ∧ ∀ by_ styleKey image' prompt',
      CallGenerateStyledImage by_ styleKey image' prompt' ∈ trace exampleEnd →
      image' = exampleImage
      ∧ (prompt <$> lookupStyle STYLES styleKey) = Some prompt'
      ∧ styleKey ∈ STYLE_KEYS.
Proof.
  split; [vm_compute; repeat first [left|right]|].
  apply (generate_calls_pass_own_prompt exampleImage exampleSchedule exampleEnd);
    [reflexivity|vm_compute; reflexivity].
Defined.

(** ** Re-runs and the pool *)

(** A transition of a re-run changes the entry of one key at most, extends
    the trace by events of re-runs only, and leaves the image, the queue, the
    workers, appState and the parked handleGenerateClick alone. *)
Lemma RerunMove_frame image a a' :
  RerunMove image a a' →
  (∃ evs, trace a' = trace a ++ evs ∧ forallb byRerun evs = true)
  ∧ (∃ k, ∀ k', k' ≠ k → generatedImages a' !! k' = generatedImages a !! k')
  ∧ croppedImageForDisplay a' = croppedImageForDisplay a
  ∧ stylesQueue a' = stylesQueue a
  ∧ workers a' = workers a
  ∧ awaitingAll a' = awaitingAll a
  ∧ appState a' = appState a.
Proof.
  intros [|k st Hkin Hnp Hst|j k v Hj|j k at_ g Hj Hfin]; simpl.
  - split; [exists []; by rewrite app_nil_r|]. split; [by exists ""|done].
  - split; [eexists [_; _]; by rewrite <- app_assoc|].
    split; [|done]. exists k. intros k' Hne. by rewrite lookup_insert_ne.
  - split; [by eexists [_]|]. split; [by exists k|done].
  - split; [by eexists [_]|]. split; [|done].
    exists k. intros k' Hne. by rewrite lookup_insert_ne.
Qed.

(** X3.  In every interleaving of a session, a click on a card's regenerate
    control and the settling of a promise a re-run awaits change the entry of
    one key at most, add only events of re-runs to the trace, and leave the
    queue, the workers, appState and the work left to the pool unchanged: a
    re-run neither disturbs nor delays the pool. *)
Theorem rerun_leaves_pool_alone image acts a act a' :
  truthy image = true → session image acts = Some a →
  isPoolAction act = false → step act a = Some a' →
  (∃ evs, trace a' = trace a ++ evs ∧ forallb byRerun evs = true)
  ∧ (∃ k, ∀ k', k' ≠ k → generatedImages a' !! k' = generatedImages a !! k')
  ∧ stylesQueue a' = stylesQueue a
  ∧ workers a' = workers a
  ∧ awaitingAll a' = awaitingAll a
  ∧ appState a' = appState a
  ∧ poolWork a' = poolWork a.
Proof.
  intros Ht Hs Hact Hstep. pose proof (session_SessionInv _ _ _ Ht Hs) as Hinv.
  assert (Hm : RerunMove image a a').
  { eapply step_RerunMove; [done|apply Hinv|done|done]. }
  destruct (RerunMove_frame _ _ _ Hm) as (He & Hk & _ & Hq & Hw & Ha & Hst).
  repeat split; try done. by eapply poolWork_RerunMove.
Qed.

Lemma rerun_leaves_pool_alone_witness :
  ∃ a', step (ClickRegenerate "digital-painting") exampleMiddle = Some a'
    ∧ isPending (generatedImages a' !! "digital-painting") = true
    ∧ workers a' = workers exampleMiddle
    ∧ poolWork a' = poolWork exampleMiddle.
Proof.
  eexists. split; [vm_compute; reflexivity|]. split; [vm_compute; reflexivity|].
  destruct (rerun_leaves_pool_alone exampleImage (take 21 exampleSchedule) exampleMiddle
              (ClickRegenerate "digital-painting")
              (default exampleMiddle (step (ClickRegenerate "digital-painting") exampleMiddle)))
    as (_ & _ & _ & Hw & _ & _ & Hwork);
    [reflexivity|vm_compute; reflexivity|reflexivity|vm_compute; reflexivity|].
  split; [exact Hw|exact Hwork].
Defined.

Lemma pool_disabled a :
  awaitingAll a = false → Forall (λ w, w = Returned) (workers a) →
  ∀ act, isPoolAction act = true → step act a = None.
Proof.
  intros Hf Hall act Hact.
  assert (Hno : ∀ i w, workers a !! i = Some w → w = Returned).
  { intros i w Hw. by eapply (proj1 (Forall_lookup _ _) Hall). }
  destruct act as [i|i r| |k|j r]; try discriminate; simpl.
  - destruct (workers a !! i) as [w|] eqn:Hw; [|done]. by rewrite (Hno _ _ Hw).
  - destruct (workers a !! i) as [w|] eqn:Hw; [|done]. by rewrite (Hno _ _ Hw).
  - by rewrite Hf.
Qed.

(** X4.  Once the completion has occurred, in any interleaving: no
    transition of the pool is enabled any more, and whatever follows, appState
    stays 'results-shown', the workers stay returned, the queue stays empty,
    and the trace grows by events of re-runs only, so the mapping changes by
    re-runs only. *)
Theorem pool_is_inert_after_completion image acts a :
  truthy image = true → session image acts = Some a → awaitingAll a = false →
  (∀ act, isPoolAction act = true → step act a = None)
  ∧ ∀ acts' b, run acts' a = Some b →
      awaitingAll b = false
      ∧ appState b = results_shown
      ∧ Forall (λ w, w = Returned) (workers b)
      ∧ stylesQueue b = []
      ∧ ∃ evs, trace b = trace a ++ evs ∧ forallb byRerun evs = true.
Proof.
  intros Ht Hs Hf. pose proof (session_SessionInv _ _ _ Ht Hs) as Hinv.
  split.
  { destruct (shown_fired _ (session_shown _ _ Hinv) Hf) as (_ & Hall & _).
    by apply pool_disabled. }
  intros acts'. clear Hs. revert a Hinv Hf.
  induction acts' as [|act acts' IH]; intros a Hinv Hf b Hrun; simpl in Hrun.
  - injection Hrun as <-.
    destruct (shown_fired _ (session_shown _ _ Hinv) Hf) as (Hst & Hall & Hq & _).
    repeat split; try done. exists []. by rewrite app_nil_r.
  - destruct (step act a) as [a1|] eqn:Hstep; [|discriminate].
    destruct (shown_fired _ (session_shown _ _ Hinv) Hf) as (_ & Hall & _).
    destruct (isPoolAction act) eqn:Hact.
    { by rewrite (pool_disabled a Hf Hall act Hact) in Hstep. }
    assert (Hm : RerunMove image a a1).
    { eapply step_RerunMove; [done|apply Hinv|done|done]. }
    destruct (RerunMove_frame _ _ _ Hm) as ((evs & He & Hby) & _ & _ & _ & _ & Ha & _).
    pose proof (SessionInv_step _ _ _ _ Ht Hinv Hstep) as Hinv1.
    destruct (IH a1 Hinv1 ltac:(congruence) b Hrun) as (? & ? & ? & ? & evs' & He' & Hby').
    repeat split; try done. exists (evs ++ evs').
    rewrite He', He, app_assoc. split; [done|].
    rewrite forallb_app, Hby, Hby'. done.
Qed.

Lemma pool_is_inert_after_completion_witness :
  awaitingAll exampleEnd = false
  ∧ step (Resume 0) exampleEnd = None
  ∧ step AllSettled exampleEnd = None
  ∧ ∀ acts' b, run acts' exampleEnd = Some b → appState b = results_shown.
Proof.
  destruct (pool_is_inert_after_completion exampleImage exampleSchedule exampleEnd)
    as [Hnone Hlater]; [reflexivity|vm_compute; reflexivity|vm_compute; reflexivity|].
  split; [vm_compute; reflexivity|].
  split; [by apply Hnone|]. split; [by apply Hnone|].
  intros acts' b Hrun. by destruct (Hlater acts' b Hrun) as (_ & ? & _).
Defined.

(** ** The worker loop on any queue *)

Lemma workerLoop_queue_irrelevant i image k rest q a :
  workerLoop i image (k :: rest) (setStylesQueue q a) = workerLoop i image (k :: rest) a.
Proof. reflexivity. Qed.

(** X5.  The test [if (styleKey)] of the worker loop: keys that are the
    empty string are shifted off the queue and dropped, without entering
    processStyle, without an update and without a call.  The worker goes on
    with the first key that is not empty; if there is none it returns, leaving
    the queue empty. *)
Theorem workerLoop_drops_empty_keys i image skipped a :
  Forall (λ k, k = "") skipped →
  (∀ k rest,
     workerLoop i image (skipped ++ k :: rest) a = workerLoop i image (k :: rest) a)
  ∧ (skipped ≠ [] →
     workerLoop i image skipped a = setWorker i Returned (setStylesQueue [] a))
  ∧ trace (workerLoop i image skipped a) = trace a
  ∧ generatedImages (workerLoop i image skipped a) = generatedImages a.
Proof.
  intros Hall. revert a. induction Hall as [|k0 skipped -> Hall IH]; intros a.
  - repeat split; try done.
  - destruct (IH (setStylesQueue skipped a)) as (Hgo & Hret & Htr & Hmap).
    cbn [workerLoop app]. change (truthy "") with false. cbn iota.
    split; [|split; [|split]].
    + intros k rest.
      destruct skipped as [|k1 skipped'].
      * reflexivity.
      * specialize (IH (setStylesQueue (k1 :: skipped' ++ k :: rest) a)).
        destruct IH as (Hgo' & _). rewrite Hgo'. reflexivity.
    + intros _. destruct skipped as [|k1 skipped']; [reflexivity|].
      rewrite Hret by done. reflexivity.
    + exact Htr.
    + exact Hmap.
Qed.

Lemma workerLoop_drops_empty_keys_witness :
  workerLoop 1 exampleImage [""; ""; "anime"; "comic-book"] exampleStart
  = workerLoop 1 exampleImage ["anime"; "comic-book"] exampleStart
  ∧ trace (workerLoop 1 exampleImage [""; ""] exampleStart) = trace exampleStart.
Proof.
  destruct (workerLoop_drops_empty_keys 1 exampleImage [""; ""] exampleStart)
    as (Hgo & _ & Htr & _); [repeat constructor|].
  split; [exact (Hgo "anime" ["comic-book"])|exact Htr].
Defined.

(** ** The album that is composed *)

(** Every value of the reduced object is the url of an entry, under the name
    of the style of its key. *)
Lemma foldl_addToAlbum_values entries : ∀ acc imageData n v,
  foldl addToAlbum (inr acc) entries = inr imageData → imageData !! n = Some v →
  acc !! n = Some v
  ∨ ∃ k g st, (k, g) ∈ entries ∧ lookupStyle STYLES k = Some st ∧ name st = n ∧ v = url g.
Proof.
  induction entries as [|[k g] entries IH]; intros acc imageData n v Hfold Hn;
    cbn [foldl] in Hfold.
  - injection Hfold as <-. by left.
  - rewrite addToAlbum_entry in Hfold.
    destruct (lookupStyle STYLES k) as [st|] eqn:Hst;
      [|by rewrite foldl_addToAlbum_thrown in Hfold].
    destruct (IH _ _ _ _ Hfold Hn) as [Hacc|(k' & g' & st' & Hin & Hst' & Hname & Hv)].
    + destruct (decide (name st = n)) as [<-|Hne].
      * rewrite lookup_insert_eq in Hacc. injection Hacc as <-.
        right. exists k, g, st. split; [left|done].
      * left. by rewrite lookup_insert_ne in Hacc.
    + right. exists k', g', st'. split; [by right|done].
Qed.

(** X6.  On a mapping whose keys are style keys and in which every style
    key is done with a non-empty url, handleDownloadAlbum calls
    createAlbumPage, once, with an object of as many keys as there are styles
    that maps the display name of each style to the url of that style's
    entry. *)
Theorem album_maps_names_to_urls (gi : gmap string GeneratedImage) :
  dom gi ⊆ list_to_set STYLE_KEYS →
  (∀ k, k ∈ STYLE_KEYS → from_option doneWithUrl false (gi !! k) = true) →
  ∃ imageData,
    handleDownloadAlbum gi = [SetIsDownloading true; CallCreateAlbumPage imageData]
    ∧ size imageData = length STYLE_KEYS
    ∧ (∀ k st g, lookupStyle STYLES k = Some st → gi !! k = Some g →
         imageData !! name st = Some (url g))
    ∧ (∀ n, is_Some (imageData !! n) → n ∈ STYLE_NAMES).
Proof.
  intros Hkeys Hall.
  destruct (album_composed_when_every_style_done gi Hkeys Hall) as (imageData & Heq & Hhas).
  destruct (album_reduction gi Hkeys) as [imageData' Hfold].
  assert (imageData' = imageData) as ->.
  { unfold handleDownloadAlbum in Heq. rewrite Hfold in Heq.
    case_bool_decide; [discriminate|]. by injection Heq. }
  assert (Hnames : ∀ n, is_Some (imageData !! n) → n ∈ STYLE_NAMES).
  { intros n Hn.
    destruct (foldl_addToAlbum_keys _ _ _ _ Hfold Hn) as [He|(k' & g & st & _ & Hst & <-)].
    - rewrite lookup_empty in He. by destruct He.
    - by eapply lookupStyle_name. }
  exists imageData. split; [done|]. split; [|split; [|done]].
  - apply Nat.le_antisymm.
    + rewrite <- STYLE_NAMES_size, <- size_dom. apply subseteq_size.
      intros n Hn%elem_of_dom. apply elem_of_list_to_set. by apply Hnames.
    + unfold handleDownloadAlbum in Heq. rewrite Hfold in Heq.
      case_bool_decide; [discriminate|]. lia.
  - intros k st g Hst Hg. destruct (Hhas k st Hst) as [v Hv]. rewrite Hv. f_equal.
    destruct (foldl_addToAlbum_values _ _ _ _ _ Hfold Hv)
      as [He|(k' & g' & st' & Hin & Hst' & Hname & ->)].
    + by rewrite lookup_empty in He.
    + assert (k' = k) as -> by by eapply name_inj.
      apply list_elem_of_filter in Hin as [_ Hin%elem_of_map_to_list]. congruence.
Qed.

Lemma album_maps_names_to_urls_witness :
  ∃ imageData,
    handleDownloadAlbum everyStyleDone = [SetIsDownloading true; CallCreateAlbumPage imageData]
    ∧ size imageData = 9
    ∧ imageData !! "3D Render" = Some (Some "wm:3d-render").
Proof.
  destruct (album_maps_names_to_urls everyStyleDone) as (imageData & Heq & Hsize & Hval & _).
  - apply (bool_decide_unpack _). vm_compute. exact I.
  - intros k Hk. rewrite STYLE_KEYS_eq in Hk.
    repeat (apply elem_of_cons in Hk as [->|Hk]; [vm_compute; reflexivity|]).
    by apply elem_of_nil in Hk.
  - exists imageData. split; [exact Heq|]. split; [exact Hsize|].
    apply (Hval "3d-render" {| name := "3D Render"; prompt := promptOf "3d-render" |}
                (doneImage "wm:3d-render")); vm_compute; reflexivity.
Defined.

(** ** The flag isDownloading and the feedback of handleDownloadAlbum *)

Lemma handleDownloadAlbum_shape (gi : gmap string GeneratedImage) :
  (∃ message,
     handleDownloadAlbum gi
     = [SetIsDownloading true; AlertMessage message; SetIsDownloading false])
  ∨ (∃ imageData,
       handleDownloadAlbum gi = [SetIsDownloading true; CallCreateAlbumPage imageData]).
Proof.
  unfold handleDownloadAlbum.
  destruct (foldl addToAlbum _ _) as [err|imageData]; [left; eauto|].
  case_bool_decide; [left|right]; eauto.
Qed.

(** X7.  Whatever the mapping and however the promise of createAlbumPage
    settles, a call of handleDownloadAlbum sets isDownloading to true first
    and to false last, touches it nowhere in between, and gives the user one
    feedback exactly: an alert, or the download of the album. *)
Theorem album_call_brackets_isDownloading (gi : gmap string GeneratedImage) (r : Settled) :
  ∃ middle,
    albumRun gi r = SetIsDownloading true :: middle ++ [SetIsDownloading false]
    ∧ forallb (λ e, negb (isSetIsDownloading e)) middle = true
    ∧ length (filter (λ e, isFeedback e = true) middle) = 1.
Proof.
  unfold albumRun.
  destruct (handleDownloadAlbum_shape gi) as [[message ->]|[imageData ->]].
  - by exists [AlertMessage message].
  - destruct r as [albumDataUrl|err]; simpl.
    + by exists [CallCreateAlbumPage imageData;
                 ClickDownloadLink albumDataUrl "pfp-perfect-album.jpg"].
    + by exists [CallCreateAlbumPage imageData; AlertMessage sorryMessage].
Qed.

(** ** The sizes addWatermark draws with *)

Lemma float_ltb_leb x y : PrimFloat.ltb x y = true → PrimFloat.leb x y = true.
Proof.
  rewrite ltb_spec, leb_spec. unfold SFltb, SFleb.
  destruct (SFcompare (Prim2SF x) (Prim2SF y)) as [[]|]; congruence.
Qed.

(** Shifting a mantissa that is not negative leaves it so. *)
Lemma shr_1_nonneg mrs : (0 ≤ shr_m mrs)%Z → (0 ≤ shr_m (shr_1 mrs))%Z.
Proof. destruct mrs as [[|[p|p|]|p] r s]; simpl; lia. Qed.

Lemma iter_pos_shr_1_nonneg n : ∀ mrs,
  (0 ≤ shr_m mrs)%Z → (0 ≤ shr_m (iter_pos shr_1 n mrs))%Z.
Proof.
  induction n as [n IH|n IH|]; intros mrs H; simpl.
  - apply IH, IH. by apply shr_1_nonneg.
  - by apply IH, IH.
  - by apply shr_1_nonneg.
Qed.

Lemma shr_fexp_nonneg m e l :
  (0 ≤ m)%Z → (0 ≤ shr_m (shr_fexp prec emax m e l).1)%Z.
Proof.
  intros H. unfold shr_fexp, shr.
  assert (H0 : (0 ≤ shr_m (shr_record_of_loc m l))%Z) by by destruct l as [|[]].
  destruct (_ - e)%Z; simpl; [done| |done]. by apply iter_pos_shr_1_nonneg.
Qed.

Lemma round_nearest_even_nonneg m l : (0 ≤ m)%Z → (0 ≤ round_nearest_even m l)%Z.
Proof. intros H. destruct l as [|[]]; simpl; [done| |done|lia]. destruct (Z.even m); lia. Qed.

(** Rounding a mantissa that is not negative never gives NaN. *)
Lemma binary_round_aux_number sx mx ex lx :
  (0 ≤ mx)%Z → binary_round_aux prec emax sx mx ex lx ≠ S754_nan.
Proof.
  intros H. unfold binary_round_aux.
  pose proof (shr_fexp_nonneg mx ex lx H) as H1.
  destruct (shr_fexp prec emax mx ex lx) as [mrs' e'] eqn:E1. simpl in H1.
  pose proof (shr_fexp_nonneg _ e' loc_Exact
                (round_nearest_even_nonneg _ (loc_of_shr_record mrs') H1)) as H2.
  destruct (shr_fexp prec emax (round_nearest_even _ _) e' loc_Exact) as [mrs'' e''].
  simpl in H2. destruct (shr_m mrs'') as [|m|m]; [done| |lia].
  by destruct (_ <=? _)%Z.
Qed.

Lemma of_uint63_number n : Prim2SF (PrimFloat.of_uint63 n) ≠ S754_nan.
Proof.
  rewrite of_uint63_spec. unfold binary_normalize.
  destruct (Uint63Axioms.to_Z n) as [|m|m]; [done| |];
    unfold binary_round; destruct (shl_align _ _ _) as [mz ez];
    by apply binary_round_aux_number.
Qed.

(** The product of a number and a finite number other than zero is a number. *)
Lemma mul_number x y s m e :
  Prim2SF x ≠ S754_nan → Prim2SF y = S754_finite s m e → Prim2SF (x * y) ≠ S754_nan.
Proof.
  intros Hx Hy. rewrite mul_spec, Hy. unfold SF64mul.
  destruct (Prim2SF x) as [sx|sx| |sx mx ex]; simpl; try done.
  by apply binary_round_aux_number.
Qed.

Lemma SFcompare_refl x : x ≠ S754_nan → SFcompare x x = Some Eq.
Proof.
  destruct x as [s|[]| |[] m e]; simpl; try done; intros _;
    rewrite Z.compare_refl, Pos.compare_cont_refl; done.
Qed.

Lemma is_nan_number x : Prim2SF x ≠ S754_nan → PrimFloat.is_nan x = false.
Proof.
  intros H. unfold PrimFloat.is_nan. rewrite eqb_spec. unfold SFeqb.
  by rewrite SFcompare_refl.
Qed.

Lemma leb_number x : Prim2SF x ≠ S754_nan → PrimFloat.leb x x = true.
Proof. intros H. rewrite leb_spec. unfold SFleb. by rewrite SFcompare_refl. Qed.

(** With a floor that is a positive number, [Math.max] of the floor and a
    number is a number not below the floor: the floor or the other one. *)
Lemma Math_max_floor x y :
  PrimFloat.is_nan x = false → PrimFloat.get_sign x = false →
  PrimFloat.leb x x = true → Prim2SF y ≠ S754_nan →
  PrimFloat.is_nan (Math_max x y) = false
  ∧ PrimFloat.leb x (Math_max x y) = true
  ∧ (Math_max x y = x ∨ Math_max x y = y).
Proof.
  intros Hx Hs Hxx Hy. unfold Math_max. rewrite Hx, (is_nan_number y Hy). simpl.
  destruct (PrimFloat.ltb x y) eqn:E.
  - split; [by apply is_nan_number|]. split; [by apply float_ltb_leb|by right].
  - destruct (PrimFloat.ltb y x); [by auto|]. rewrite Hs. by auto.
Qed.

(** X8.  Whatever the width of the canvas, 2% and 3% of it are numbers, so
    the padding and the font size of the watermark are numbers too (neither
    is NaN): the padding is not below 20 and the font size not below 18, and
    each is either that floor or the share of the width. *)
Theorem watermark_sizes_have_floors (canvasWidth : PrimInt63.int) :
  PrimFloat.is_nan (padding canvasWidth) = false
  ∧ PrimFloat.is_nan (fontSize canvasWidth) = false
  ∧ PrimFloat.leb 20 (padding canvasWidth) = true
  ∧ PrimFloat.leb 18 (fontSize canvasWidth) = true
  ∧ (padding canvasWidth = 20%float
     ∨ padding canvasWidth = (PrimFloat.of_uint63 canvasWidth * 0.02)%float)
  ∧ (fontSize canvasWidth = 18%float
     ∨ fontSize canvasWidth = (PrimFloat.of_uint63 canvasWidth * 0.03)%float).
Proof.
  assert (H2 : Prim2SF (PrimFloat.of_uint63 canvasWidth * 0.02) ≠ S754_nan).
  { eapply mul_number; [apply of_uint63_number|]. vm_compute. reflexivity. }
  assert (H3 : Prim2SF (PrimFloat.of_uint63 canvasWidth * 0.03) ≠ S754_nan).
  { eapply mul_number; [apply of_uint63_number|]. vm_compute. reflexivity. }
  destruct (Math_max_floor 20 _ eq_refl eq_refl eq_refl H2) as (? & ? & ?).
  destruct (Math_max_floor 18 _ eq_refl eq_refl eq_refl H3) as (? & ? & ?).
  unfold padding, fontSize. done.
Qed.

(** ** The message of a failed load *)

Lemma substring_length m : ∀ s, String.length (String.substring 0 m s) ≤ m.
Proof.
  induction m as [|m IH]; intros [|c s]; simpl; try lia. specialize (IH s). lia.
Qed.

Lemma substring_whole m : ∀ s, String.length s ≤ m → String.substring 0 m s = s.
Proof.
  induction m as [|m IH]; intros [|c s]; simpl; try done; try lia.
  intros Hle. f_equal. apply IH. lia.
Qed.

Lemma substring_prefix m : ∀ s, String.prefix (String.substring 0 m s) s = true.
Proof.
  induction m as [|m IH]; intros [|c s]; simpl; try done.
  destruct (Ascii.ascii_dec c c); [apply IH|done].
Qed.

Lemma append_length s1 s2 : String.length (s1 +:+ s2) = String.length s1 + String.length s2.
Proof. induction s1 as [|c s1 IH]; simpl; [done|]. by rewrite IH. Qed.

(** X9.  For a source that does not load, loadImage and with it addWatermark
    reject with an [Error] whose message is "Failed to load image: ", then
    the first 50 characters of the source (the whole source when it has no
    more), then "...": the message never has more than 76 characters,
    however long the data URL. *)
Theorem failed_load_message_is_short (b : Browser) (imageUrl : string) :
  decodeImage b imageUrl = None →
  ∃ quoted,
    loadImage b imageUrl = inl (ErrorObject ("Failed to load image: " +:+ quoted +:+ "..."))
    ∧ addWatermark b imageUrl
      = RejectedWith (ErrorObject ("Failed to load image: " +:+ quoted +:+ "..."))
    ∧ String.prefix quoted imageUrl = true
    ∧ String.length quoted ≤ 50
    ∧ (String.length imageUrl ≤ 50 → quoted = imageUrl)
    ∧ String.length ("Failed to load image: " +:+ quoted +:+ "...") ≤ 76.
Proof.
  intros Hload. exists (String.substring 0 50 imageUrl).
  pose proof (substring_length 50 imageUrl) as Hlen.
  unfold addWatermark, loadImage. rewrite Hload.
  split; [done|]. split; [done|]. split; [apply substring_prefix|].
  split; [done|]. split; [apply substring_whole|].
  rewrite !append_length. simpl. lia.
Qed.

Lemma failed_load_message_is_short_witness :
  String.length longImageUrl = 66
  ∧ loadImage browserThatFailsToLoad longImageUrl
    = inl (ErrorObject
             "Failed to load image: data:image/png;base64,0123456789012345678901234567...")
  ∧ ∃ quoted,
      addWatermark browserThatFailsToLoad longImageUrl
      = RejectedWith (ErrorObject ("Failed to load image: " +:+ quoted +:+ "..."))
      ∧ String.length quoted ≤ 50.
Proof.
  destruct (failed_load_message_is_short browserThatFailsToLoad longImageUrl)
    as (quoted & _ & Hadd & _ & Hlen & _); [reflexivity|].
  split; [reflexivity|]. split; [reflexivity|]. exists quoted. split; [exact Hadd|exact Hlen].
Defined.

(** ** handleReset and the jobs in flight *)

(** X10.  handleReset empties the mapping and goes back to 'idle', and
    cancels nothing: a re-run in flight stays parked, the promise it awaits
    can still settle, and when its job ends its entry is written into the
    emptied mapping, as the only entry, while appState is 'idle'. *)
Theorem reset_does_not_cancel_reruns (c : Component) j k at_ (r : Settled) :
  regenerations (core c) !! j = Some (k, at_) →
  generatedImages (core (handleReset c)) = ∅
  ∧ appState (core (handleReset c)) = idle
  ∧ croppedImageForDisplay (core (handleReset c)) = None
  ∧ uploadedImage (handleReset c) = None
  ∧ regenerations (core (handleReset c)) = regenerations (core c)
  ∧ ∃ b, step (SettleRegeneration j r) (core (handleReset c)) = Some b
      ∧ appState b = idle
      ∧ match r, at_ with
        | RejectedWith err, _ => generatedImages b = {[k := errorImage (errorMessage err)]}
        | Fulfilled watermarkedUrl, AtWatermark _ =>
            generatedImages b = {[k := doneImage watermarkedUrl]}
        | Fulfilled resultUrl, AtGenerate =>
            generatedImages b = ∅ ∧ regenerations b !! j = Some (k, AtWatermark resultUrl)
        end.
Proof.
  intros Hj. repeat (split; [done|]).
  eexists. split; [by apply step_rerun_settles|].
  destruct r as [v|err]; [destruct at_|]; simpl.
  - split; [done|]. split; [done|]. apply list_lookup_insert_eq. by eapply lookup_lt_Some.
  - split; [done|]. by rewrite insert_empty.
  - split; [done|]. by rewrite insert_empty.
Qed.

Lemma reset_does_not_cancel_reruns_witness :
  regenerations (core exampleRerunning) = [("sketch", AtWatermark "gen:sketch-again")]
  ∧ existsb (λ ctl, match ctl with StartOverButton => true | _ => false end)
      (rendered exampleRerunning) = true
  ∧ ∃ b, step (SettleRegeneration 0 (Fulfilled "wm:sketch-again"))
           (core (handleReset exampleRerunning)) = Some b
      ∧ appState b = idle
      ∧ generatedImages b = {[ "sketch" := doneImage "wm:sketch-again" ]}.
Proof.
  destruct (reset_does_not_cancel_reruns exampleRerunning 0 "sketch"
              (AtWatermark "gen:sketch-again") (Fulfilled "wm:sketch-again"))
    as (_ & _ & _ & _ & _ & b & Hstep & Hidle & Hmap); [vm_compute; reflexivity|].
  split; [vm_compute; reflexivity|]. split; [vm_compute; reflexivity|].
  exists b. split; [exact Hstep|]. split; [exact Hidle|exact Hmap].
Defined.

(** What handleGenerateClick leaves, from any state with a cropped image. *)
Lemma handleGenerateClick_pool a image :
  croppedImageForDisplay a = Some image → truthy image = true →
  generatedImages (handleGenerateClick a) = initialImages
  ∧ stylesQueue (handleGenerateClick a)
    = ["vaporwave"; "3d-render"; "impressionism"; "pop-art"; "anime"; "comic-book"]
  ∧ workers (handleGenerateClick a)
    = [Awaiting "digital-painting" AtGenerate; Awaiting "watercolor" AtGenerate;
       Awaiting "sketch" AtGenerate]
  ∧ regenerations (handleGenerateClick a) = regenerations a
  ∧ appState (handleGenerateClick a) = generating.
Proof.
  intros Hi Ht. unfold handleGenerateClick. rewrite Hi, Ht. repeat split; reflexivity.
Qed.

(** X11.  A re-run left in flight by handleReset outlives the reset: after
    a new upload and crop, handleGenerateClick starts the pool beside it, and
    when the old job ends it writes its entry over the pending entry of the
    new generation, while the pool's own job for that key is still queued or
    awaited; the url it writes was made from the image of the session
    before. *)
Theorem stale_rerun_writes_into_next_generation
    (c : Component) j k resultUrl watermarkedUrl file image :
  regenerations (core c) !! j = Some (k, AtWatermark resultUrl) →
  k ∈ STYLE_KEYS → truthy image = true →
  let c' := handleCropConfirm image (handleImageUpload_onloadend (Some file) (handleReset c)) in
  existsb isGenerateStylesButton (rendered c') = true
  ∧ generatedImages (handleGenerateClick (core c')) !! k = Some pendingImage
  ∧ ∃ b, step (SettleRegeneration j (Fulfilled watermarkedUrl)) (handleGenerateClick (core c'))
         = Some b
      ∧ generatedImages b !! k = Some (doneImage watermarkedUrl)
      ∧ k ∈ stylesQueue b ++ awaited (workers b)
      ∧ appState b = generating.
Proof.
  intros Hj Hk Ht c'.
  assert (Hi : croppedImageForDisplay (core c') = Some image) by done.
  destruct (handleGenerateClick_pool (core c') image Hi Ht) as (Hmap & Hq & Hw & Hr & Hst).
  assert (Hj' : regenerations (handleGenerateClick (core c')) !! j
                = Some (k, AtWatermark resultUrl)) by by rewrite Hr.
  split; [unfold rendered; simpl; by rewrite Ht|].
  split.
  { rewrite Hmap, initialImages_lookup. by rewrite bool_decide_eq_true_2. }
  assert (Hin : k ∈ stylesQueue (handleGenerateClick (core c'))
                     ++ awaited (workers (handleGenerateClick (core c')))).
  { rewrite Hq, Hw. rewrite STYLE_KEYS_eq in Hk. simpl.
    rewrite !elem_of_cons in Hk |- *. tauto. }
  eexists. split; [by apply step_rerun_settles|].
  cbn [tryResume]. split; [apply lookup_insert_eq|]. split; [exact Hin|exact Hst].
Qed.

Lemma stale_rerun_writes_into_next_generation_witness :
  ∃ b, step (SettleRegeneration 0 (Fulfilled "wm:sketch-again"))
         (handleGenerateClick
            (core (handleCropConfirm "data:image/jpeg;base64,NEW"
                     (handleImageUpload_onloadend (Some "data:image/png;base64,NEW")
                        (handleReset exampleRerunning))))) = Some b
    ∧ generatedImages b !! "sketch" = Some (doneImage "wm:sketch-again")
    ∧ workers b !! 2 = Some (Awaiting "sketch" AtGenerate).
Proof.
  destruct (stale_rerun_writes_into_next_generation exampleRerunning 0 "sketch"
              "gen:sketch-again" "wm:sketch-again" "data:image/png;base64,NEW"
              "data:image/jpeg;base64,NEW")
    as (_ & _ & b & Hstep & Hmap & _);
    [vm_compute; reflexivity|vm_compute; repeat first [left|right]|reflexivity|].
  exists b. split; [exact Hstep|]. split; [exact Hmap|].
  vm_compute in Hstep. injection Hstep as <-. vm_compute. reflexivity.
Defined.

(** ** Before the first generation *)

Lemma quiet_uiStep ev c c' : quiet (core c) → uiStep ev c = Some c' → quiet (core c').
Proof.
  intros (Hm & Hq & Hw & Ha & Hr & Ht) Hstep. destruct ev; simpl in Hstep.
  - injection Hstep as <-. by repeat split.
  - destruct (existsb _ _); [|discriminate]. injection Hstep as <-. by repeat split.
  - destruct (existsb _ _); [|discriminate]. injection Hstep as <-. by repeat split.
  - destruct (existsb _ _); [|discriminate]. injection Hstep as <-. by repeat split.
Qed.

Lemma quiet_runUi evs : ∀ c c', quiet (core c) → runUi evs c = Some c' → quiet (core c').
Proof.
  induction evs as [|ev evs IH]; intros c c' Hq Hrun; simpl in Hrun.
  - by injection Hrun as <-.
  - destruct (uiStep ev c) as [c1|] eqn:Hstep; [|discriminate].
    eapply IH; [|done]. by eapply quiet_uiStep.
Qed.

(** X12.  Before the first generation, whatever files were read, crops
    confirmed or cancelled and resets clicked: whenever the "Generate Styles"
    button is rendered, a non-empty cropped image is present, nothing is in
    flight and the mapping is empty, so handleGenerateClick does not return at
    its guard and starts the session from exactly the state [afterCrop]. *)
Theorem generate_button_means_after_crop evs c :
  runUi evs initialComponent = Some c →
  existsb isGenerateStylesButton (rendered c) = true →
  ∃ image,
    truthy image = true
    ∧ core c = afterCrop image
    ∧ handleGenerateClick (core c) = handleGenerateClick (afterCrop image)
    ∧ appState (handleGenerateClick (core c)) = generating.
Proof.
  intros Hrun Hbutton.
  assert (Hq : quiet (core c)) by (eapply quiet_runUi; [|done]; by repeat split).
  destruct Hq as (Hm & Hq & Hw & Ha & Hr & Htr).
  unfold rendered in Hbutton. destruct c as [[cropped gi st q ws aw rs tr] up dl].
  simpl in *. subst.
  destruct st; try discriminate.
  - destruct (truthyOption up); discriminate.
  - destruct cropped as [image|]; [|discriminate]. simpl in Hbutton.
    destruct (truthy image) eqn:Ht; [|discriminate].
    exists image. split; [done|]. split; [done|]. split; [done|].
    by apply (handleGenerateClick_pool _ image).
Qed.

Lemma generate_button_means_after_crop_witness :
  ∃ c, runUi exampleUi initialComponent = Some c
    ∧ rendered c = [DifferentPhotoButton; GenerateStylesButton]
    ∧ core c = afterCrop exampleImage.
Proof.
  eexists. split; [vm_compute; reflexivity|]. split; [vm_compute; reflexivity|].
  destruct (generate_button_means_after_crop exampleUi
              {| core := afterCrop exampleImage;
                 uploadedImage := Some "data:image/png;base64,BBBB";
                 isDownloading := false |})
    as (image & _ & Hcore & _); [vm_compute; reflexivity|vm_compute; reflexivity|].
  vm_compute. reflexivity.
Defined.

(** ** Results do not depend on the interleaving *)

Lemma outcome_generate_rejected sv image k err :
  generate sv image (promptOf k) = RejectedWith err →
  outcome sv image k = errorImage (errorMessage err).
Proof. intros H. unfold outcome. by rewrite H. Qed.

Lemma outcome_watermark sv image k v r :
  generate sv image (promptOf k) = Fulfilled v → watermark sv v = r →
  outcome sv image k
  = match r with
    | RejectedWith err => errorImage (errorMessage err)
    | Fulfilled w => doneImage w
    end.
Proof. intros Hg Hw. unfold outcome. by rewrite Hg, Hw. Qed.

(** The entry a job ends with, when the promise it awaits settles as the
    services say, is the outcome of its key. *)
Lemma tryResume_outcome sv image by_ k at_ a a' :
  (∀ v, at_ = AtWatermark v → generate sv image (promptOf k) = Fulfilled v) →
  tryResume by_ k at_ (expected sv image k at_) a = (a', None) →
  a' = putImage by_ k (outcome sv image k) a
  ∧ isPending (Some (outcome sv image k)) = false.
Proof.
  intros Hat. destruct at_ as [|v]; simpl.
  - destruct (generate sv image (promptOf k)) as [v|err] eqn:Hg; simpl; [discriminate|].
    intros [= <-]. rewrite (outcome_generate_rejected _ _ _ _ Hg). done.
  - specialize (Hat v eq_refl).
    destruct (watermark sv v) as [w|err] eqn:Hw; simpl; intros [= <-];
      rewrite (outcome_watermark _ _ _ _ _ Hat Hw); done.
Qed.

Lemma tryResume_next sv image by_ k at_ a a' at' :
  tryResume by_ k at_ (expected sv image k at_) a = (a', Some at') →
  regenerations a' = regenerations a ∧ workers a' = workers a
  ∧ generatedImages a' = generatedImages a
  ∧ ∃ v, at' = AtWatermark v ∧ generate sv image (promptOf k) = Fulfilled v.
Proof.
  destruct at_ as [|v0]; simpl.
  - destruct (generate sv image (promptOf k)) as [v|err] eqn:Hg; simpl; [|discriminate].
    intros [= <- <-]. repeat split; eauto.
  - destruct (watermark sv v0); simpl; discriminate.
Qed.

Lemma Determined_entries_insert sv image a k (m : gmap string GeneratedImage) :
  Determined sv image a → m = <[k := outcome sv image k]> (generatedImages a) →
  ∀ k' g, m !! k' = Some g → isPending (Some g) = false → g = outcome sv image k'.
Proof.
  intros HD -> k' g. destruct (decide (k = k')) as [<-|Hne].
  - rewrite lookup_insert_eq. by intros [= <-].
  - rewrite lookup_insert_ne by done. apply HD.
Qed.

Lemma Determined_step sv image a act a' :
  truthy image = true → SessionInv image a → Determined sv image a →
  agrees sv image act a → step act a = Some a' → Determined sv image a'.
Proof.
  intros Ht Hinv HD Hagree Hstep. pose proof HD as [He Hw Hr].
  pose proof (session_pool _ _ Hinv) as HP.
  destruct act as [i|i r| |k|j r]; simpl in Hstep, Hagree.
  - destruct (workers a !! i) as [[| |]|] eqn:Hwi; try discriminate.
    rewrite (pool_image _ _ HP) in Hstep. injection Hstep as <-.
    unfold runWorker. destruct (stylesQueue a) as [|k rest] eqn:Hq.
    + rewrite workerLoop_nil. split; simpl; [done| |done].
      intros i' k' v [(_ & ? & _)|[_ ?]]%list_lookup_insert_Some; [done|eauto].
    + assert (Hk : k ∈ STYLE_KEYS).
      { apply (PoolInv_queue_keys image a); [done|]. rewrite Hq. left. }
      destruct (STYLE_KEYS_known k Hk) as [st Hst].
      rewrite (workerLoop_claim _ _ _ _ _ st); [|by apply STYLE_KEYS_truthy|done].
      split; simpl; [done| |done].
      intros i' k' v [(_ & ? & _)|[_ ?]]%list_lookup_insert_Some; [done|eauto].
  - destruct (workers a !! i) as [[|k at_|]|] eqn:Hwi; try discriminate. subst r.
    destruct (tryResume (Pool i) k at_ (expected sv image k at_) a) as [a1 [at'|]] eqn:Hres;
      injection Hstep as <-.
    + destruct (tryResume_next _ _ _ _ _ _ _ _ Hres) as (Hrs & Hws & Hmap & v & -> & Hg).
      split; simpl; rewrite ?Hmap, ?Hrs, ?Hws; [done| |done].
      intros i' k' v' [(_ & [= <- <-] & _)|[_ ?]]%list_lookup_insert_Some; [done|eauto].
    + destruct (tryResume_outcome sv image _ _ _ _ _ (λ v Hv, Hw i k v
                  ltac:(by rewrite Hwi, Hv)) Hres) as [-> Hnp].
      split; simpl; [by eapply Determined_entries_insert| |done].
      intros i' k' v' [(_ & ? & _)|[_ ?]]%list_lookup_insert_Some; [done|eauto].
  - destruct (_ && _); [|discriminate]. injection Hstep as <-. by split.
  - destruct (cardsShown a); [|discriminate]. simpl in Hstep.
    case_bool_decide as Hk; [|discriminate]. injection Hstep as <-.
    unfold handleRegenerateStyle. rewrite (pool_image _ _ HP), Ht.
    destruct (isPending (generatedImages a !! k)) eqn:Hp; [done|].
    destruct (STYLE_KEYS_known k Hk) as [st Hst].
    unfold tryFromStart. rewrite Hst. split; simpl; [|done|].
    + intros k' g. destruct (decide (k = k')) as [<-|Hne].
      * rewrite lookup_insert_eq. by intros [= <-].
      * rewrite lookup_insert_ne by done. apply He.
    + intros j k' v [?|[_ Hnew]]%lookup_app_Some; [eauto|].
      by apply list_lookup_singleton_Some in Hnew as [_ ?].
  - destruct (regenerations a !! j) as [[k at_]|] eqn:Hj; [|discriminate]. subst r.
    destruct (tryResume Rerun k at_ (expected sv image k at_) a) as [a1 [at'|]] eqn:Hres;
      injection Hstep as <-.
    + destruct (tryResume_next _ _ _ _ _ _ _ _ Hres) as (Hrs & Hws & Hmap & v & -> & Hg).
      split; simpl; rewrite ?Hmap, ?Hrs, ?Hws; [done|done|].
      intros j' k' v' [(_ & [= <- <-] & _)|[_ ?]]%list_lookup_insert_Some; [done|eauto].
    + destruct (tryResume_outcome sv image _ _ _ _ _ (λ v Hv, Hr j k v
                  ltac:(by rewrite Hj, Hv)) Hres) as [-> Hnp].
      split; simpl; [by eapply Determined_entries_insert|done|].
      intros j' k' v'. destruct (decide (j' < j)) as [Hlt|Hge].
      * rewrite list_lookup_delete_lt by done. apply Hr.
      * rewrite list_lookup_delete_ge by lia. apply Hr.
Qed.

Lemma Determined_click sv image :
  truthy image = true → Determined sv image (handleGenerateClick (afterCrop image)).
Proof.
  intros Ht. rewrite handleGenerateClick_afterCrop by done. split; cbn [generatedImages workers regenerations].
  - intros k g. rewrite initialImages_lookup. case_bool_decide; [|done]. by intros [= <-].
  - intros [|[|[|i]]] k v; simpl; intros; simplify_eq.
  - intros j k v. by rewrite lookup_nil.
Qed.

Lemma Determined_run sv image acts : ∀ a a',
  truthy image = true → SessionInv image a → Determined sv image a →
  consistent sv image acts a → run acts a = Some a' → Determined sv image a'.
Proof.
  induction acts as [|act acts IH]; intros a a' Ht Hinv HD Hc Hrun; simpl in Hrun, Hc.
  - by injection Hrun as <-.
  - destruct Hc as [Hagree Hc]. destruct (step act a) as [a1|] eqn:Hstep; [|discriminate].
    eapply (IH a1); [done| | |done|done].
    + by eapply SessionInv_step.
    + by eapply Determined_step.
Qed.

Lemma consistent_app sv image acts1 acts2 a :
  consistent sv image acts1 a →
  match run acts1 a with Some a' => consistent sv image acts2 a' | None => True end →
  consistent sv image (acts1 ++ acts2) a.
Proof.
  revert a. induction acts1 as [|act acts1 IH]; intros a H1 H2; simpl in *; [done|].
  destruct H1 as [Hagree H1]. split; [done|].
  destruct (step act a) as [a1|]; [by apply IH|done].
Qed.

(** A schedule made by [drive] settles every promise as the services say. *)
Lemma drive_consistent sv image order : ∀ a, consistent sv image (drive sv image order a) a.
Proof.
  induction order as [|i order IH]; intros a; simpl; [done|].
  apply consistent_app.
  - unfold nextOf. destruct (workers a !! i) as [[|k at_|]|] eqn:Hw; simpl; try done.
    + repeat split. by destruct (_ : option App).
    + rewrite Hw. split; [done|]. by destruct (match _ with (_, _) => _ end).
  - destruct (run (nextOf sv image i a) a) as [a1|]; [apply IH|done].
Qed.

(** ** The names of the downloaded files *)

Lemma append_inj_l s : ∀ t1 t2, s +:+ t1 = s +:+ t2 → t1 = t2.
Proof. induction s as [|c s IH]; simpl; intros t1 t2; [done|]. intros [= H]. by apply IH. Qed.

Lemma append_inj_r t : ∀ s1 s2, s1 +:+ t = s2 +:+ t → s1 = s2.
Proof.
  induction s1 as [|c s1 IH]; intros [|d s2] H.
  - done.
  - apply (f_equal String.length) in H. rewrite !append_length in H. simpl in H. lia.
  - apply (f_equal String.length) in H. rewrite !append_length in H. simpl in H. lia.
  - simpl in H. injection H as -> H. f_equal. by apply IH.
Qed.

(** ** The call comes to its end *)

Lemma pool_progress_agreeing sv image a :
  PoolInv image a → awaitingAll a = true →
  ∃ act a', isPoolAction act = true ∧ agrees sv image act a ∧ step act a = Some a'.
Proof.
  intros HP Hpark. destruct (workers_cases (workers a)) as [Hall|[[i Hw]|(i & k & at_ & Hw)]].
  - exists AllSettled. eexists. split; [done|]. split; [done|]. simpl.
    by rewrite Hpark, Forall_Returned_forallb.
  - exists (Resume i). eexists. split; [done|]. split; [done|]. simpl.
    by rewrite Hw, (pool_image _ _ HP).
  - exists (SettleWorker i (expected sv image k at_)).
    destruct (settle_enabled a i k at_ (expected sv image k at_) Hw) as [a' Ha'].
    exists a'. split; [done|]. split; [|done]. simpl. by rewrite Hw.
Qed.

Lemma PoolMove_regenerations image a a' :
  PoolMove image a a' → regenerations a' = regenerations a.
Proof. by intros [i Hw Hnil|i k rest st Hw Hcons Hst|i k v Hw|i k at_ g Hw Hfin|Hpark Hall]. Qed.

(** From any state of a session the pool can be run to the completion,
    every promise settling as the services say. *)
Lemma complete_from sv image n : ∀ a,
  truthy image = true → SessionInv image a → poolWork a ≤ n →
  ∃ acts b, run acts a = Some b ∧ consistent sv image acts a
            ∧ awaitingAll b = false ∧ regenerations b = regenerations a.
Proof.
  induction n as [|n IH]; intros a Ht Hinv Hwork.
  - exists [], a. repeat split; try done. apply (poolWork_fired image); [done|lia].
  - destruct (awaitingAll a) eqn:Hpark; [|by exists [], a].
    pose proof (session_pool _ _ Hinv) as HP.
    destruct (pool_progress_agreeing sv image a HP Hpark) as (act & a1 & Hact & Hagree & Hstep).
    assert (Hm : PoolMove image a a1).
    { eapply step_PoolMove; [apply HP| |done|done].
      intros k. by apply (PoolInv_queue_keys image). }
    pose proof (poolWork_PoolMove _ _ _ Hm) as Hless.
    pose proof (SessionInv_step _ _ _ _ Ht Hinv Hstep) as Hinv1.
    destruct (IH a1 Ht Hinv1 ltac:(lia)) as (acts & b & Hrun & Hc & Hf & Hr).
    exists (act :: acts), b. simpl. rewrite Hstep. repeat split; try done.
    by rewrite Hr, (PoolMove_regenerations _ _ _ Hm).
Qed.

(** X15.  Whatever generateStyledImage and addWatermark answer, as long as
    they answer: a call of handleGenerateClick can be run to its end, and at
    its end appState is 'results-shown' and the mapping holds, for each style
    key and for nothing else, the outcome of the work function for that
    key. *)
Theorem generation_ends_with_every_outcome (sv : Services) image :
  truthy image = true →
  ∃ acts a,
    session image acts = Some a
    ∧ consistent sv image acts (handleGenerateClick (afterCrop image))
    ∧ awaitingAll a = false
    ∧ appState a = results_shown
    ∧ ∀ k, generatedImages a !! k
           = if bool_decide (k ∈ STYLE_KEYS) then Some (outcome sv image k) else None.
Proof.
  intros Ht.
  assert (Hinv0 : SessionInv image (handleGenerateClick (afterCrop image)))
    by (apply reachable_SessionInv; [done|constructor]).
  destruct (complete_from sv image 28 _ Ht Hinv0) as (acts & a & Hrun & Hc & Hf & Hr).
  { by rewrite poolWork_click. }
  exists acts, a. split; [done|]. split; [done|]. split; [done|].
  pose proof (session_SessionInv image acts a Ht Hrun) as [HP HM HT HS].
  destruct (shown_fired _ HS Hf) as (Hst & Hall & Hq & _). split; [done|].
  assert (HD : Determined sv image a).
  { eapply Determined_run; [done|exact Hinv0|by apply Determined_click|exact Hc|exact Hrun]. }
  assert (Hnone : regenerations a = []).
  { rewrite Hr. by rewrite handleGenerateClick_afterCrop. }
  intros k. case_bool_decide as Hk.
  - destruct (proj2 (map_keys _ HM k) Hk) as [g Hg]. rewrite Hg. f_equal.
    apply (det_entries _ _ _ HD k g Hg).
    destruct (isPending (Some g)) eqn:Hp; [|done]. rewrite <- Hg in Hp.
    apply (map_pending _ HM) in Hp. unfold inFlight in Hp.
    rewrite Hq, awaited_Returned, Hnone in Hp by done. by apply elem_of_nil in Hp.
  - destruct (generatedImages a !! k) as [g|] eqn:Hg; [|done].
    destruct Hk. apply (map_keys _ HM). eauto.
Qed.

Lemma generation_ends_with_every_outcome_witness :
  ∃ acts a,
    session exampleImage acts = Some a
    ∧ appState a = results_shown
    ∧ generatedImages a !! "watercolor" = Some (errorImage "quota exceeded")
    ∧ generatedImages a !! "pop-art" = Some (doneImage "wm:gen:other").
Proof.
  destruct (generation_ends_with_every_outcome exampleServices exampleImage)
    as (acts & a & Hs & _ & _ & Hst & Hmap); [reflexivity|].
  exists acts, a. split; [exact Hs|]. split; [exact Hst|].
  split; rewrite Hmap; vm_compute; reflexivity.
Defined.

(** * The program: resets, and the jobs they leave in flight *)

Lemma record_prefixed pre e b : record e (prefixed pre b) = prefixed pre (record e b).
Proof. unfold record, prefixed. simpl. by rewrite <- app_assoc. Qed.

Lemma putImage_prefixed pre by_ k g b :
  putImage by_ k g (prefixed pre b) = prefixed pre (putImage by_ k g b).
Proof. unfold putImage, record, setGeneratedImages, prefixed. simpl. by rewrite <- app_assoc. Qed.

Lemma tryFromStart_prefixed pre by_ image k b :
  tryFromStart by_ image k (prefixed pre b)
  = prod_map (prefixed pre) id (tryFromStart by_ image k b).
Proof.
  unfold tryFromStart, catchBlock. destruct (lookupStyle STYLES k); unfold prod_map; simpl.
  - by rewrite record_prefixed.
  - by rewrite putImage_prefixed.
Qed.

Lemma tryResume_prefixed pre by_ k at_ r b :
  tryResume by_ k at_ r (prefixed pre b)
  = prod_map (prefixed pre) id (tryResume by_ k at_ r b).
Proof.
  unfold tryResume, catchBlock, prod_map. destruct r as [v|err]; [destruct at_|]; simpl;
    by rewrite ?record_prefixed, ?putImage_prefixed.
Qed.

Lemma workerLoop_prefixed pre i image queue : ∀ b,
  workerLoop i image queue (prefixed pre b) = prefixed pre (workerLoop i image queue b).
Proof.
  induction queue as [|k rest IH]; intros b; cbn [workerLoop]; [done|].
  change (setStylesQueue rest (prefixed pre b)) with (prefixed pre (setStylesQueue rest b)).
  destruct (truthy k); [|apply IH].
  rewrite record_prefixed, tryFromStart_prefixed.
  by destruct (tryFromStart _ _ _ _) as [a1 [at_|]].
Qed.

Lemma handleRegenerateStyle_prefixed pre k b :
  handleRegenerateStyle k (prefixed pre b) = prefixed pre (handleRegenerateStyle k b).
Proof.
  unfold handleRegenerateStyle. cbn [croppedImageForDisplay generatedImages prefixed].
  destruct (croppedImageForDisplay b) as [image|]; [|done].
  destruct (truthy image); [|done].
  destruct (isPending _); [done|].
  rewrite putImage_prefixed, tryFromStart_prefixed.
  by destruct (tryFromStart _ _ _ _) as [a1 [at_|]].
Qed.

(** The transitions do not read the trace. *)
Lemma step_prefixed pre act b : step act (prefixed pre b) = prefixed pre <$> step act b.
Proof.
  destruct act as [i|i r| |k|j r]; cbn [step].
  - cbn [workers croppedImageForDisplay prefixed].
    destruct (workers b !! i) as [[| |]|]; try done.
    destruct (croppedImageForDisplay b) as [image|]; [|done].
    unfold runWorker. cbn [stylesQueue prefixed]. simpl. by rewrite <- workerLoop_prefixed.
  - cbn [workers prefixed].
    destruct (workers b !! i) as [[|k at_|]|]; try done.
    rewrite tryResume_prefixed. by destruct (tryResume _ _ _ _ _) as [a1 [at'|]].
  - cbn [awaitingAll workers prefixed]. destruct (_ && _); [|done].
    simpl. unfold record, prefixed. simpl. by rewrite <- app_assoc.
  - change (cardsShown (prefixed pre b)) with (cardsShown b).
    destruct (_ && _); [|done]. simpl. by rewrite handleRegenerateStyle_prefixed.
  - cbn [regenerations prefixed].
    destruct (regenerations b !! j) as [[k at_]|]; [|done].
    rewrite tryResume_prefixed. by destruct (tryResume _ _ _ _ _) as [a1 [at'|]].
Qed.

(** A transition of a re-run reads and writes the component, and no
    activation of handleGenerateClick. *)
Lemma rerun_step_resume p act a :
  isPoolAction act = false → croppedImageForDisplay a = Some (capturedImage p) →
  step act (resumeActivation p a) = resumeActivation p <$> step act a.
Proof.
  intros Hact Hc. destruct act as [i|i r| |k|j r]; try discriminate; cbn [step].
  - change (cardsShown (resumeActivation p a)) with (cardsShown a).
    destruct (_ && _); [|done]. simpl. f_equal.
    unfold handleRegenerateStyle. cbn [croppedImageForDisplay generatedImages resumeActivation].
    rewrite Hc. destruct (truthy (capturedImage p)); [|done].
    destruct (isPending _); [done|].
    unfold tryFromStart, catchBlock. by destruct (lookupStyle STYLES k).
  - cbn [regenerations resumeActivation].
    destruct (regenerations a !! j) as [[k at_]|]; [|done].
    unfold tryResume, catchBlock. by destruct r as [v|err]; [destruct at_|].
Qed.

Lemma agrees_same sv image act a a' :
  workers a' = workers a → regenerations a' = regenerations a →
  agrees sv image act a → agrees sv image act a'.
Proof. intros Hw Hr. destruct act; simpl; by rewrite ?Hw, ?Hr. Qed.

(** handleGenerateClick on an empty mapping with no re-run in flight: what
    it does on the state after cropping, after the events recorded so far. *)
Lemma handleGenerateClick_prefixed a image :
  croppedImageForDisplay a = Some image → truthy image = true →
  generatedImages a = ∅ → regenerations a = [] →
  handleGenerateClick a = prefixed (trace a) (handleGenerateClick (afterCrop image)).
Proof.
  intros Hi Ht Hg Hr. rewrite (handleGenerateClick_afterCrop image Ht).
  destruct a as [c g s q w p r t]. simpl in *. subst.
  unfold handleGenerateClick. simpl. rewrite Ht.
  cbv -[app initialImages]. rewrite <- !app_assoc. reflexivity.
Qed.

Lemma resume_fields p a pre b :
  resumeActivation p a = prefixed pre b →
  croppedImageForDisplay b = Some (capturedImage p)
  ∧ generatedImages a = generatedImages b
  ∧ appState a = appState b
  ∧ queueOf p = stylesQueue b
  ∧ workersOf p = workers b
  ∧ parked p = awaitingAll b
  ∧ regenerations a = regenerations b
  ∧ trace a = pre ++ trace b.
Proof. unfold resumeActivation, prefixed. intros [= -> -> -> -> -> -> -> ->]. done. Qed.

Lemma cards_rendered c :
  cardsShown (core c) = true →
  existsb isCropper (rendered c) = false
  ∧ existsb isDifferentPhotoButton (rendered c) = false
  ∧ existsb isGenerateStylesButton (rendered c) = false.
Proof.
  unfold cardsShown, rendered. by destruct (appState (core c)).
Qed.

Lemma no_cards_rendered c :
  cardsShown (core c) = false → existsb isStartOverButton (rendered c) = false.
Proof.
  unfold cardsShown, rendered.
  destruct (appState (core c)); try done; by destruct (truthyOption _).
Qed.

Lemma generate_button_rendered c :
  existsb isGenerateStylesButton (rendered c) = true →
  cardsShown (core c) = false
  ∧ ∃ image, croppedImageForDisplay (core c) = Some image ∧ truthy image = true.
Proof.
  unfold cardsShown, rendered. destruct (appState (core c)); try done.
  - by destruct (truthyOption _).
  - unfold truthyOption. destruct (croppedImageForDisplay (core c)) as [image|]; [|done].
    destruct (truthy image) eqn:Ht; [|done]. eauto.
Qed.

Lemma inert_disabled p a act :
  inert p → isPoolAction act = true → step act (resumeActivation p a) = None.
Proof. intros (Hp & _ & Hw) Hact. by apply pool_disabled. Qed.

Lemma nothingInFlight_spec P :
  nothingInFlight P = true →
  Forall (λ p, parked p = false) (activations P)
  ∧ regenerations (core (component P)) = [].
Proof.
  unfold nothingInFlight. intros [Ha Hr]%andb_prop. split.
  - apply Forall_forall. intros p Hp.
    rewrite forallb_forall in Ha. specialize (Ha p). rewrite <- list_elem_of_In in Ha.
    by apply negb_true_iff, Ha.
  - by destruct (regenerations _).
Qed.

(** A reset while nothing is in flight leaves the program between two
    generations. *)
Lemma Steady_reset osv P c' :
  Steady osv P → nothingInFlight P = true →
  cardsShown (core c') = false →
  generatedImages (core c') = ∅ →
  regenerations (core c') = regenerations (core (component P)) →
  trace (core c') = trace (core (component P)) →
  Steady osv {| component := c'; activations := activations P |}.
Proof.
  intros HS [Hpark Hregs]%nothingInFlight_spec Hcards Hgi Hr Ht.
  destruct HS as [_ _ _ Hinert Hlegal|image acts b earlier p pre Himg Hses _ Hact Hearlier <- Hc Hres Hpre].
  - apply steady_between; simpl; rewrite ?Hr, ?Ht; done.
  - destruct (resume_fields _ _ _ _ Hres) as (_ & _ & _ & Hq & Hw & Hp & _ & Htr).
    pose proof (session_SessionInv _ _ _ Himg Hses) as Hinv.
    rewrite Hact, Forall_app, Forall_singleton in Hpark. destruct Hpark as [_ Hpark].
    rewrite Hp in Hpark.
    destruct (shown_fired _ (session_shown _ _ Hinv) Hpark) as (_ & Hret & Hqueue & _).
    apply steady_between; simpl; rewrite ?Hr, ?Ht; try done.
    + rewrite Hact. apply Forall_app. split; [done|]. apply Forall_singleton.
      unfold inert. by rewrite Hq, Hw, Hp.
    + rewrite Htr. apply Forall_app. split; [done|].
      apply (trace_legal _ (session_trace _ _ Hinv)).
Qed.

Lemma Steady_step osv ev P P' :
  Steady osv P →
  (resets ev = true → nothingInFlight P = true) →
  (∀ sv, osv = Some sv → programAgrees sv ev P) →
  programStep ev P = Some P' → Steady osv P'.
Proof.
  intros HS Hidle Hag Hstep.
  destruct ev as [ev| | |n act|act]; cbn [programStep] in Hstep.
  - (* the cropper, the file reader, "Different Photo" *)
    destruct (uiStep ev (component P)) as [c'|] eqn:Hui; [|discriminate].
    injection Hstep as <-.
    destruct ev as [result|croppedImageUrl| |]; cbn [uiStep] in Hui.
    + injection Hui as <-. by apply Steady_reset; [|apply Hidle|..].
    + destruct (existsb isCropper _) eqn:Hctl; [|discriminate]. injection Hui as <-.
      destruct HS as [Hcards Hgi Hregs Hinert Hlegal|image acts b earlier p pre Himg Hses _ Hact Hearlier <- Hc Hres Hpre].
      * apply steady_between; try done.
      * exfalso. destruct (resume_fields _ _ _ _ Hres) as (_ & _ & Hst & _).
        pose proof (pool_cards _ _ (session_pool _ _ (session_SessionInv _ _ _ Himg Hses))) as Hcards.
        unfold cardsShown in Hcards. rewrite <- Hst in Hcards.
        destruct (cards_rendered (component P) Hcards) as (Hno & _). congruence.
    + destruct (existsb isCropper _) eqn:Hctl; [|discriminate]. injection Hui as <-.
      destruct HS as [Hcards Hgi Hregs Hinert Hlegal|image acts b earlier p pre Himg Hses _ Hact Hearlier <- Hc Hres Hpre].
      * apply steady_between; try done.
      * exfalso. destruct (resume_fields _ _ _ _ Hres) as (_ & _ & Hst & _).
        pose proof (pool_cards _ _ (session_pool _ _ (session_SessionInv _ _ _ Himg Hses))) as Hcards.
        unfold cardsShown in Hcards. rewrite <- Hst in Hcards.
        destruct (cards_rendered (component P) Hcards) as (Hno & _). congruence.
    + destruct (existsb isDifferentPhotoButton _); [|discriminate]. injection Hui as <-.
      by apply Steady_reset; [|apply Hidle|..].
  - (* "Generate Styles" *)
    destruct (existsb isGenerateStylesButton _) eqn:Hctl; [|discriminate].
    destruct (generate_button_rendered _ Hctl) as (Hcards & image & Hc & Himg).
    rewrite Hc, Himg in Hstep. injection Hstep as <-.
    destruct HS as [_ Hgi Hregs Hinert Hlegal|image' acts b earlier p pre Himg' Hses _ Hact Hearlier <- Hc' Hres Hpre].
    + rewrite (handleGenerateClick_prefixed _ image Hc Himg Hgi Hregs).
      eapply (steady_during osv _ image [] (handleGenerateClick (afterCrop image))
                (activations P) _ (trace (core (component P)))); try done.
      rewrite (handleGenerateClick_afterCrop image Himg). reflexivity.
    + exfalso. destruct (resume_fields _ _ _ _ Hres) as (_ & _ & Hst & _).
      pose proof (pool_cards _ _ (session_pool _ _ (session_SessionInv _ _ _ Himg' Hses))) as Hcards'.
      unfold cardsShown in Hcards, Hcards'. rewrite <- Hst in Hcards'. congruence.
  - (* "Start Over" *)
    destruct (existsb isStartOverButton _); [|discriminate]. injection Hstep as <-.
    by apply Steady_reset; [|apply Hidle|..].
  - (* a continuation of an activation *)
    destruct (isPoolAction act) eqn:Hpool; [|discriminate].
    destruct (activations P !! n) as [p0|] eqn:Hn; [|discriminate].
    destruct (step act _) as [a'|] eqn:Hact'; [|discriminate]. injection Hstep as <-.
    specialize (λ sv H, Hag sv H). cbn [programAgrees] in Hag. rewrite Hn in Hag.
    destruct HS as [_ _ _ Hinert _|image acts b earlier p pre Himg Hses Hcons Hact Hearlier <- Hc Hres Hpre].
    + exfalso. rewrite inert_disabled in Hact'; [done| |done].
      by eapply (proj1 (Forall_lookup _ _) Hinert).
    + rewrite Hact in Hn. apply lookup_app_Some in Hn as [Hn|[Hlen Hn]].
      { exfalso. rewrite inert_disabled in Hact'; [done| |done].
        by eapply (proj1 (Forall_lookup _ _) Hearlier). }
      apply list_lookup_singleton_Some in Hn as [Hn <-].
      rewrite Hres, step_prefixed in Hact'.
      destruct (step act b) as [b'|] eqn:Hb; [|discriminate]. injection Hact' as <-.
      assert (Hses' : session (capturedImage p) (acts ++ [act]) = Some b').
      { unfold session in *. rewrite run_app, Hses. simpl. by rewrite Hb. }
      pose proof (session_SessionInv _ _ _ Himg Hses') as Hinv'.
      eapply (steady_during osv _ (capturedImage p) (acts ++ [act]) b' earlier
                (activationOf (capturedImage p) (prefixed pre b')) pre); try done.
      * intros sv Hsv. apply consistent_app; [by apply Hcons|].
        fold (session (capturedImage p) acts). rewrite Hses. simpl. split; [|by rewrite Hb].
        eapply agrees_same; [| |apply (Hag sv Hsv)]; by rewrite Hres.
      * simpl. rewrite Hact.
        replace n with (length earlier + 0) by lia.
        by rewrite insert_app_r.
      * unfold resumeActivation, activationOf, suspendActivation, prefixed. simpl.
        by rewrite <- (pool_image _ _ (session_pool _ _ Hinv')).
  - (* a re-run *)
    destruct (isPoolAction act) eqn:Hpool; [discriminate|].
    destruct (step act _) as [a'|] eqn:Hact'; [|discriminate]. injection Hstep as <-.
    specialize (λ sv H, Hag sv H). cbn [programAgrees] in Hag.
    destruct HS as [Hcards _ Hregs _ _|image acts b earlier p pre Himg Hses Hcons Hact Hearlier <- Hc Hres Hpre].
    + exfalso. destruct act as [i|i r| |k|j r]; try discriminate; simpl in Hact'.
      * by rewrite Hcards in Hact'.
      * by rewrite Hregs in Hact'.
    + rewrite Hc in Hag.
      pose proof (rerun_step_resume p act _ Hpool Hc) as Hframe.
      rewrite Hact', Hres, step_prefixed in Hframe.
      destruct (step act b) as [b'|] eqn:Hb; [|discriminate].
      simpl in Hframe. apply (inj Some) in Hframe. symmetry in Hframe.
      assert (Hses' : session (capturedImage p) (acts ++ [act]) = Some b').
      { unfold session in *. rewrite run_app, Hses. simpl. by rewrite Hb. }
      eapply (steady_during osv _ (capturedImage p) (acts ++ [act]) b' earlier p pre);
        try done.
      * intros sv Hsv. apply consistent_app; [by apply Hcons|].
        fold (session (capturedImage p) acts). rewrite Hses. simpl. split; [|by rewrite Hb].
        destruct (resume_fields _ _ _ _ Hres) as (_ & _ & _ & _ & Hw & _ & Hr & _).
        destruct act as [i|i r| |k|j r]; try discriminate; simpl; [done|].
        specialize (Hag sv Hsv). simpl in Hag. by rewrite <- Hr.
      * simpl.
        pose proof (step_RerunMove _ _ _ _ Himg Hc Hpool Hact') as Hm.
        destruct (RerunMove_frame _ _ _ Hm) as (_ & _ & Hc' & _). by rewrite Hc'.
Qed.

Lemma Steady_initial osv : Steady osv initialProgram.
Proof. by apply steady_between. Qed.

Lemma Steady_run osv evs : ∀ P P',
  Steady osv P → resetsWhenIdle evs P = true →
  (∀ sv, osv = Some sv → programConsistent sv evs P) →
  programRun evs P = Some P' → Steady osv P'.
Proof.
  induction evs as [|ev evs IH]; intros P P' HS Hidle Hcons Hrun; simpl in *.
  - by injection Hrun as <-.
  - destruct (programStep ev P) as [P1|] eqn:Hstep; [|discriminate].
    apply andb_prop in Hidle as [Hnow Hidle].
    apply (IH P1); [|done| |done].
    + eapply Steady_step; [done| | |done].
      * intros Hr. by rewrite Hr in Hnow.
      * intros sv Hsv. apply (Hcons sv Hsv).
    + intros sv Hsv. apply (Hcons sv Hsv).
Qed.

Lemma inert_keys (ps : list Activation) :
  Forall inert ps → ps ≫= (λ p, queueOf p ++ awaited (workersOf p)) = [].
Proof.
  induction 1 as [|p ps (_ & Hq & Hw) _ IH]; [done|].
  rewrite bind_cons, IH, Hq, awaited_Returned by done. done.
Qed.

(** What [Steady] says of the component: between two generations the
    mapping is empty and nothing is in flight; in a generation the mapping,
    the re-runs and the keys in flight are those of a state of a session of
    the image in the state. *)
Lemma Steady_cases osv P :
  Steady osv P →
  (cardsShown (core (component P)) = false
   ∧ generatedImages (core (component P)) = ∅
   ∧ regenerations (core (component P)) = []
   ∧ keysInFlight P = []
   ∧ Forall legal (trace (core (component P))))
  ∨ (∃ image acts b pre,
       truthy image = true
       ∧ session image acts = Some b
       ∧ (∀ sv, osv = Some sv →
            consistent sv image acts (handleGenerateClick (afterCrop image)))
       ∧ croppedImageForDisplay (core (component P)) = Some image
       ∧ generatedImages (core (component P)) = generatedImages b
       ∧ regenerations (core (component P)) = regenerations b
       ∧ appState (core (component P)) = appState b
       ∧ keysInFlight P = inFlight b
       ∧ (nothingInFlight P = true → awaitingAll b = false ∧ regenerations b = [])
       ∧ trace (core (component P)) = pre ++ trace b
       ∧ Forall legal pre).
Proof.
  intros [Hcards Hgi Hregs Hinert Hlegal|image acts b earlier p pre Himg Hses Hcons Hact Hearlier <- Hc Hres Hpre].
  - left. repeat split; try done. unfold keysInFlight.
    rewrite inert_keys by done. rewrite Hregs. reflexivity.
  - right. exists (capturedImage p), acts, b, pre.
    destruct (resume_fields _ _ _ _ Hres) as (_ & Hgi & Hst & Hq & Hw & Hp & Hr & Htr).
    repeat split; try done.
    + unfold keysInFlight, inFlight.
      rewrite Hact, bind_app, inert_keys, bind_singleton, Hq, Hw, Hr by done.
      simpl. by rewrite <- app_assoc.
    + apply nothingInFlight_spec in H as [Hpark _].
      rewrite Hact, Forall_app, Forall_singleton in Hpark. destruct Hpark as [_ Hpark].
      by rewrite <- Hp.
    + apply nothingInFlight_spec in H as [_ Hnone]. by rewrite <- Hr.
Qed.

Lemma programRun_Steady osv evs P :
  programRun evs initialProgram = Some P → resetsWhenIdle evs initialProgram = true →
  (∀ sv, osv = Some sv → programConsistent sv evs initialProgram) →
  Steady osv P.
Proof.
  intros Hrun Hidle Hcons.
  eapply (Steady_run osv evs initialProgram); [apply Steady_initial|done..].
Qed.

(** C6, as stated, fails.  In this run of the program "Start Over" is
    clicked while two re-runs are in flight.  The job of "anime" ends after
    the reset and writes its error into the emptied mapping: the entry goes
    from absent to error.  The job of "sketch" ends in the next generation,
    and after it the worker of that generation ends its own job on "sketch":
    the entry goes from done to done.  Neither update is a transition from
    pending to a terminal status or from a terminal status to pending. *)
Lemma stale_updates_are_no_transitions :
  programRun exampleStaleRun initialProgram = Some (exampleProgram exampleStaleRun)
  ∧ SetImage Rerun "anime" None (errorImage "quota exceeded")
    ∈ trace (core (component (exampleProgram exampleStaleRun)))
  ∧ SetImage (Pool 2) "sketch" (Some (doneImage "wm:sketch-again")) (doneImage "wm:sketch")
    ∈ trace (core (component (exampleProgram exampleStaleRun)))
  ∧ ¬ legal (SetImage Rerun "anime" None (errorImage "quota exceeded"))
  ∧ ¬ legal (SetImage (Pool 2) "sketch" (Some (doneImage "wm:sketch-again"))
               (doneImage "wm:sketch")).
Proof.
  split; [vm_compute; reflexivity|].
  split; [apply (list_elem_of_lookup_2 _ 46); vm_compute; reflexivity|].
  split; [apply (list_elem_of_lookup_2 _ 56); vm_compute; reflexivity|].
  split.
  - intros [[? _]|[[st [? _]] _]]; discriminate.
  - intros [? _]; discriminate.
Qed.

(** C6, amended.  In every run of the program in which the mapping is
    emptied (by handleReset or by [reader.onloadend]) only while no
    activation of handleGenerateClick and no re-run is in flight, every
    update of an entry is a transition of the relation: a worker of the pool
    only takes a pending entry to a terminal one; handleRegenerateStyle takes
    a terminal entry to pending or, when its job ends, the pending entry to a
    terminal one; the initialisation fills an empty mapping with pending
    entries.  The entry of a re-run in flight is pending, the promise it
    awaits may settle either way, and when its job ends the entry is the
    terminal one of that outcome. *)
Theorem updates_follow_transitions evs P :
  programRun evs initialProgram = Some P → resetsWhenIdle evs initialProgram = true →
  (∀ by_ k prev next, SetImage by_ k prev next ∈ trace (core (component P)) →
     ((status <$> prev) = Some Pending ∧ isTerminal (status next) = true)
     ∨ (by_ = Rerun
        ∧ (∃ st, (status <$> prev) = Some st ∧ isTerminal st = true)
        ∧ status next = Pending))
  ∧ (∀ prev next, SetInitialImages prev next ∈ trace (core (component P)) →
       prev = ∅ ∧ ∀ k g, next !! k = Some g → status g = Pending)
  ∧ (∀ j k at_, regenerations (core (component P)) !! j = Some (k, at_) →
       (status <$> generatedImages (core (component P)) !! k) = Some Pending
       ∧ ∀ r, ∃ P', programStep (OfRerun (SettleRegeneration j r)) P = Some P'
           ∧ match r, at_ with
             | RejectedWith err, _ =>
                 generatedImages (core (component P')) !! k
                 = Some (errorImage (errorMessage err))
                 ∧ k ∉ (regenerations (core (component P'))).*1
             | Fulfilled watermarkedUrl, AtWatermark _ =>
                 generatedImages (core (component P')) !! k = Some (doneImage watermarkedUrl)
                 ∧ k ∉ (regenerations (core (component P'))).*1
             | Fulfilled resultUrl, AtGenerate =>
                 generatedImages (core (component P')) = generatedImages (core (component P))
                 ∧ regenerations (core (component P')) !! j = Some (k, AtWatermark resultUrl)
             end).
Proof.
  intros Hrun Hidle.
  pose proof (programRun_Steady None evs P Hrun Hidle ltac:(done)) as HS.
  assert (Hlegal : ∀ e, e ∈ trace (core (component P)) → legal e).
  { apply Forall_forall.
    destruct (Steady_cases _ _ HS) as [(_ & _ & _ & _ & Hl)|(image & acts & b & pre & Himg & Hses & _ & _ & _ & _ & _ & _ & _ & Htr & Hpre)]; [done|].
    rewrite Htr. apply Forall_app. split; [done|].
    apply (trace_legal _ (session_trace _ _ (session_SessionInv _ _ _ Himg Hses))). }
  split; [|split].
  - intros by_ k prev next Hin. specialize (Hlegal _ Hin). destruct by_ as [i|].
    + by left.
    + destruct Hlegal as [?|[? ?]]; [by left|by right].
  - intros prev next Hin. exact (Hlegal _ Hin).
  - intros j k at_ Hj.
    destruct (Steady_cases _ _ HS) as [(_ & _ & Hnone & _)|(image & acts & b & pre & Himg & Hses & _ & _ & Hgi & Hr & _)].
    { by rewrite Hnone in Hj. }
    pose proof (session_map _ _ (session_SessionInv _ _ _ Himg Hses)) as HM.
    split.
    + rewrite Hgi. apply isPending_status, (map_pending _ HM). unfold inFlight.
      rewrite !elem_of_app. right. right. rewrite <- Hr. by eapply regenerations_elem.
    + intros r. cbn [programStep isPoolAction].
      rewrite (step_rerun_settles _ _ _ _ r Hj). eexists. split; [reflexivity|].
      pose proof (rerun_key_once b j k at_ HM ltac:(by rewrite <- Hr)) as Hout.
      rewrite <- Hr in Hout.
      destruct r as [v|err]; [destruct at_|]; simpl.
      * split; [done|]. apply list_lookup_insert_eq. by eapply lookup_lt_Some.
      * split; [apply lookup_insert_eq|done].
      * split; [apply lookup_insert_eq|done].
Qed.

Lemma updates_follow_transitions_witness :
  programRun exampleSteadyRun initialProgram = Some (exampleProgram exampleSteadyRun)
  ∧ resetsWhenIdle exampleSteadyRun initialProgram = true
  ∧ length (activations (exampleProgram exampleSteadyRun)) = 2
  ∧ SetImage Rerun "watercolor" (Some (errorImage "quota exceeded")) pendingImage
    ∈ trace (core (component (exampleProgram exampleSteadyRun)))
  ∧ SetImage Rerun "watercolor" (Some pendingImage) (doneImage "wm:watercolor")
    ∈ trace (core (component (exampleProgram exampleSteadyRun)))
  ∧ ∀ by_ k prev next,
      SetImage by_ k prev next ∈ trace (core (component (exampleProgram exampleSteadyRun))) →
      ((status <$> prev) = Some Pending ∧ isTerminal (status next) = true)
      ∨ (by_ = Rerun
         ∧ (∃ st, (status <$> prev) = Some st ∧ isTerminal st = true)
         ∧ status next = Pending).
Proof.
  split; [vm_compute; reflexivity|].
  split; [vm_compute; reflexivity|].
  split; [vm_compute; reflexivity|].
  split; [apply (list_elem_of_lookup_2 _ 14); vm_compute; reflexivity|].
  split; [apply (list_elem_of_lookup_2 _ 21); vm_compute; reflexivity|].
  apply (updates_follow_transitions exampleSteadyRun (exampleProgram exampleSteadyRun));
    vm_compute; reflexivity.
Defined.

(** ** One job per key *)

(** X2.  In every run of the program in which the mapping is emptied only
    while nothing is in flight, the keys queued in an activation of
    handleGenerateClick, the keys its workers await and the keys of the
    re-runs in flight are style keys, all different: no key has two jobs at a
    time.  The pending entries of the mapping are exactly these keys. *)
Theorem one_job_per_key evs P :
  programRun evs initialProgram = Some P → resetsWhenIdle evs initialProgram = true →
  NoDup (keysInFlight P)
  ∧ (∀ k, isPending (generatedImages (core (component P)) !! k) = true ↔ k ∈ keysInFlight P)
  ∧ (∀ k, k ∈ keysInFlight P → k ∈ STYLE_KEYS)
  ∧ length (keysInFlight P) ≤ length STYLE_KEYS.
Proof.
  intros Hrun Hidle.
  pose proof (programRun_Steady None evs P Hrun Hidle ltac:(done)) as HS.
  destruct (Steady_cases _ _ HS) as [(_ & Hgi & _ & Hkeys & _)|(image & acts & b & pre & Himg & Hses & _ & _ & Hgi & _ & _ & Hkeys & _)];
    rewrite Hkeys, Hgi.
  - split; [constructor|]. split; [|split; [|simpl; lia]].
    + intros k. rewrite lookup_empty, elem_of_nil. by split.
    + by intros k ?%elem_of_nil.
  - destruct (session_map _ _ (session_SessionInv _ _ _ Himg Hses)) as [Hk Hp Hn Hw].
    assert (Hsub : ∀ k, k ∈ inFlight b → k ∈ STYLE_KEYS).
    { intros k Hin%Hp. apply Hk. by destruct (generatedImages b !! k). }
    split; [done|]. split; [done|]. split; [done|].
    apply submseteq_length, NoDup_submseteq; done.
Qed.

Lemma one_job_per_key_witness :
  programRun exampleSteadyRun initialProgram = Some (exampleProgram exampleSteadyRun)
  ∧ keysInFlight (exampleProgram exampleSteadyRun)
    = ["3d-render"; "impressionism"; "pop-art"; "anime"; "comic-book";
       "digital-painting"; "watercolor"; "vaporwave"; "sketch"]
  ∧ NoDup (keysInFlight (exampleProgram exampleSteadyRun))
  ∧ (isPending (generatedImages (core (component (exampleProgram exampleSteadyRun))) !! "sketch")
     = true
     ↔ "sketch" ∈ keysInFlight (exampleProgram exampleSteadyRun)).
Proof.
  destruct (one_job_per_key exampleSteadyRun (exampleProgram exampleSteadyRun))
    as (Hn & Hp & _); [vm_compute; reflexivity|vm_compute; reflexivity|].
  split; [vm_compute; reflexivity|]. split; [vm_compute; reflexivity|].
  split; [exact Hn|apply Hp].
Defined.

(** ** Downloading one image *)

(** X14.  In every run of the program in which the mapping is emptied only
    while nothing is in flight, handleDownloadIndividualImage clicks a link
    only for a style key whose entry is done, never for a key with work
    queued or in flight; the link points to the url of that entry and the
    file is named after the key, two keys never giving the same name.  For
    any other key it does nothing. *)
Theorem individual_download_only_when_done evs P styleKey :
  programRun evs initialProgram = Some P → resetsWhenIdle evs initialProgram = true →
  (∀ href file,
     ClickDownloadLink href file
     ∈ handleDownloadIndividualImage (generatedImages (core (component P))) styleKey →
     generatedImages (core (component P)) !! styleKey = Some (doneImage href)
     ∧ styleKey ∈ STYLE_KEYS
     ∧ (styleKey ∉ keysInFlight P)
     ∧ file = "pfp-perfect-" +:+ styleKey +:+ ".jpg"
     ∧ handleDownloadIndividualImage (generatedImages (core (component P))) styleKey
       = [ClickDownloadLink href file])
  ∧ ((status <$> generatedImages (core (component P)) !! styleKey) ≠ Some Done →
     handleDownloadIndividualImage (generatedImages (core (component P))) styleKey = [])
  ∧ (∀ other, "pfp-perfect-" +:+ styleKey +:+ ".jpg" = "pfp-perfect-" +:+ other +:+ ".jpg" →
       styleKey = other).
Proof.
  intros Hrun Hidle.
  pose proof (programRun_Steady None evs P Hrun Hidle ltac:(done)) as HS.
  split; [|split].
  - intros href file.
    destruct (Steady_cases _ _ HS) as [(_ & Hgi & _ & _ & _)|(image & acts & b & pre & Himg & Hses & _ & _ & Hgi & _ & _ & Hkeys & _)];
      rewrite Hgi.
    { unfold handleDownloadIndividualImage. rewrite lookup_empty. by intros ?%elem_of_nil. }
    rewrite Hkeys.
    pose proof (session_map _ _ (session_SessionInv _ _ _ Himg Hses)) as HM.
    unfold handleDownloadIndividualImage.
    destruct (generatedImages b !! styleKey) as [[st u e]|] eqn:Hg;
      [|by intros ?%elem_of_nil].
    pose proof (map_wf _ HM _ _ Hg) as Hwf. unfold wellFormed in Hwf. simpl in *.
    destruct st; try by intros ?%elem_of_nil.
    destruct u as [u|]; [|by intros ?%elem_of_nil].
    destruct (truthy u); [|by intros ?%elem_of_nil].
    intros [= <- <-]%list_elem_of_singleton. destruct Hwf as [_ ->].
    split; [done|]. split; [apply (map_keys _ HM); rewrite Hg; eauto|].
    split; [|done]. intros Hin. apply (map_pending _ HM) in Hin. by rewrite Hg in Hin.
  - unfold handleDownloadIndividualImage.
    by destruct (generatedImages (core (component P)) !! styleKey) as [[[] u e]|].
  - intros other H. apply append_inj_l in H. by apply append_inj_r in H.
Qed.

Lemma individual_download_only_when_done_witness :
  programRun exampleSteadyRun initialProgram = Some (exampleProgram exampleSteadyRun)
  ∧ handleDownloadIndividualImage
      (generatedImages (core (component (exampleProgram (take 44 exampleSteadyRun))))) "sketch"
    = [ClickDownloadLink "wm:sketch" "pfp-perfect-sketch.jpg"]
  ∧ handleDownloadIndividualImage
      (generatedImages (core (component (exampleProgram exampleSteadyRun)))) "sketch" = []
  ∧ generatedImages (core (component (exampleProgram (take 44 exampleSteadyRun)))) !! "sketch"
    = Some (doneImage "wm:sketch").
Proof.
  destruct (individual_download_only_when_done (take 44 exampleSteadyRun)
              (exampleProgram (take 44 exampleSteadyRun)) "sketch") as (Hlink & _ & _);
    [vm_compute; reflexivity|vm_compute; reflexivity|].
  split; [vm_compute; reflexivity|].
  split; [vm_compute; reflexivity|]. split; [vm_compute; reflexivity|].
  apply (Hlink "wm:sketch" "pfp-perfect-sketch.jpg"). vm_compute. left.
Defined.

(** ** The results are a function of the key *)

(** X13.  Let generateStyledImage and addWatermark answer the same call the
    same way, and let the mapping be emptied only while nothing is in flight.
    Then at every point of every run of the program, with re-runs or without,
    every entry that is not pending is the outcome of its key for the image
    in the state: the error of generateStyledImage for that key's prompt, or
    else the error or the url addWatermark gives for the generated image.
    When the cards are shown and nothing is in flight, the mapping is that
    function of the key on STYLE_KEYS, whatever the order in which the
    promises settled. *)
Theorem results_do_not_depend_on_the_schedule (sv : Services) evs P image :
  programRun evs initialProgram = Some P → resetsWhenIdle evs initialProgram = true →
  programConsistent sv evs initialProgram →
  croppedImageForDisplay (core (component P)) = Some image →
  (∀ k g, generatedImages (core (component P)) !! k = Some g → isPending (Some g) = false →
     g = outcome sv image k)
  ∧ (cardsShown (core (component P)) = true → nothingInFlight P = true →
     ∀ k, generatedImages (core (component P)) !! k
          = if bool_decide (k ∈ STYLE_KEYS) then Some (outcome sv image k) else None).
Proof.
  intros Hrun Hidle Hcons Hc.
  assert (HS : Steady (Some sv) P).
  { apply (programRun_Steady _ evs); [done|done|]. by intros sv' [= <-]. }
  destruct (Steady_cases _ _ HS) as [(Hcards & Hgi & _)|(image' & acts & b & pre & Himg & Hses & Hcs & Hc' & Hgi & _ & Hst & _ & Hnone & _)].
  { rewrite Hgi, Hcards. split; [|done]. intros k g. by rewrite lookup_empty. }
  rewrite Hc in Hc'. injection Hc' as <-. rewrite Hgi.
  pose proof (session_SessionInv _ _ _ Himg Hses) as [HP HM HT HSh].
  assert (HD : Determined sv image b).
  { eapply Determined_run; [done| | |exact (Hcs sv eq_refl)|exact Hses].
    - apply reachable_SessionInv; [done|constructor].
    - by apply Determined_click. }
  split; [apply HD|]. intros _ [Hf Hregs]%Hnone k.
  destruct (shown_fired _ HSh Hf) as (_ & Hall & Hq & _).
  case_bool_decide as Hk.
  - destruct (proj2 (map_keys _ HM k) Hk) as [g Hg]. rewrite Hg. f_equal.
    apply (det_entries _ _ _ HD k g Hg).
    destruct (isPending (Some g)) eqn:Hp; [|done]. rewrite <- Hg in Hp.
    apply (map_pending _ HM) in Hp. unfold inFlight in Hp.
    rewrite Hq, awaited_Returned, Hregs in Hp by done. by apply elem_of_nil in Hp.
  - destruct (generatedImages b !! k) as [g|] eqn:Hg; [|done].
    destruct Hk. apply (map_keys _ HM). eauto.
Qed.

Lemma results_do_not_depend_on_the_schedule_witness :
  programRun exampleDrivenRun initialProgram = Some (exampleProgram exampleDrivenRun)
  ∧ length (activations (exampleProgram exampleDrivenRun)) = 2
  ∧ (∀ k, k ∈ STYLE_KEYS →
       generatedImages (core (component (exampleProgram (take 32 exampleDrivenRun)))) !! k
       = Some (outcome exampleServices exampleImage k))
  ∧ (∀ k, k ∈ STYLE_KEYS →
       generatedImages (core (component (exampleProgram exampleDrivenRun))) !! k
       = Some (outcome exampleServices exampleImage k))
  ∧ outcome exampleServices exampleImage "watercolor" = errorImage "quota exceeded"
  ∧ outcome exampleServices exampleImage "anime" = errorImage "An unknown error occurred."
  ∧ outcome exampleServices exampleImage "sketch" = doneImage "wm:gen:other".
Proof.
  assert (Hon : ∀ evs,
    programRun evs initialProgram = Some (exampleProgram evs) →
    resetsWhenIdle evs initialProgram = true →
    programConsistent exampleServices evs initialProgram →
    croppedImageForDisplay (core (component (exampleProgram evs))) = Some exampleImage →
    cardsShown (core (component (exampleProgram evs))) = true →
    nothingInFlight (exampleProgram evs) = true →
    ∀ k, k ∈ STYLE_KEYS →
      generatedImages (core (component (exampleProgram evs))) !! k
      = Some (outcome exampleServices exampleImage k)).
  { intros evs Hrun Hidle Hcons Hc Hcards Hnone k Hk.
    destruct (results_do_not_depend_on_the_schedule exampleServices evs (exampleProgram evs)
                exampleImage Hrun Hidle Hcons Hc) as [_ Hend].
    rewrite (Hend Hcards Hnone k). by rewrite bool_decide_eq_true_2. }
  split; [vm_compute; reflexivity|]. split; [vm_compute; reflexivity|].
  split; [apply Hon; try (vm_compute; reflexivity); vm_compute; repeat split|].
  split; [apply Hon; try (vm_compute; reflexivity); vm_compute; repeat split|].
  repeat split; vm_compute; reflexivity.
Defined.

(** ** Generations and sessions *)

(** X16.  In every run of the program in which the mapping is emptied only
    while nothing is in flight, the program is either between two
    generations (no card is shown, the mapping is empty, nothing is in
    flight) or in a generation that is a session: the image in the state is
    the one the latest activation of handleGenerateClick tested, every
    earlier activation has ended, and the state that activation finds is the
    state of a session of that image, after the events recorded before the
    generation began. *)
Theorem generations_are_sessions evs P :
  programRun evs initialProgram = Some P → resetsWhenIdle evs initialProgram = true →
  (cardsShown (core (component P)) = false
   ∧ generatedImages (core (component P)) = ∅
   ∧ nothingInFlight P = true)
  ∨ (∃ image acts b earlier p pre,
       truthy image = true
       ∧ croppedImageForDisplay (core (component P)) = Some image
       ∧ activations P = earlier ++ [p]
       ∧ Forall inert earlier
       ∧ capturedImage p = image
       ∧ session image acts = Some b
       ∧ resumeActivation p (core (component P)) = prefixed pre b).
Proof.
  intros Hrun Hidle.
  destruct (programRun_Steady None evs P Hrun Hidle ltac:(done))
    as [Hcards Hgi Hregs Hinert _|image acts b earlier p pre Himg Hses _ Hact Hearlier Hp Hc Hres _].
  - left. split; [done|]. split; [done|]. unfold nothingInFlight. rewrite Hregs.
    apply andb_true_intro. split; [|done]. apply forallb_forall. intros p Hp.
    rewrite <- list_elem_of_In in Hp.
    destruct (proj1 (Forall_forall _ _) Hinert p Hp) as [-> _]. done.
  - right. by exists image, acts, b, earlier, p, pre.
Qed.

Lemma generations_are_sessions_witness :
  programRun exampleSteadyRun initialProgram = Some (exampleProgram exampleSteadyRun)
  ∧ cardsShown (core (component (exampleProgram exampleSteadyRun))) = true
  ∧ ∃ acts b earlier p pre,
      croppedImageForDisplay (core (component (exampleProgram exampleSteadyRun)))
      = Some "data:image/jpeg;base64,/9j/4BBQ"
      ∧ activations (exampleProgram exampleSteadyRun) = earlier ++ [p]
      ∧ session "data:image/jpeg;base64,/9j/4BBQ" acts = Some b
      ∧ resumeActivation p (core (component (exampleProgram exampleSteadyRun)))
        = prefixed pre b.
Proof.
  split; [vm_compute; reflexivity|]. split; [vm_compute; reflexivity|].
  destruct (generations_are_sessions exampleSteadyRun (exampleProgram exampleSteadyRun))
    as [(Hcards & _)|(image & acts & b & earlier & p & pre & _ & Hc & Hact & _ & _ & Hses & Hres)];
    [vm_compute; reflexivity|vm_compute; reflexivity|vm_compute in Hcards; discriminate Hcards|].
  assert (H : croppedImageForDisplay (core (component (exampleProgram exampleSteadyRun)))
              = Some "data:image/jpeg;base64,/9j/4BBQ") by (vm_compute; reflexivity).
  assert (Himage : image = "data:image/jpeg;base64,/9j/4BBQ").
  { rewrite Hc in H. injection H as H. exact H. }
  rewrite Himage in Hses.
  exists acts, b, earlier, p, pre.
  split; [exact H|]. split; [exact Hact|]. split; [exact Hses|exact Hres].
Defined.
